(** * Tag Explorer backend: boolean tag expressions, tag indexes, similarity

    A shallow embedding of the query engine of [cards-backend.js]
    (the boolean expression parser, the corpus build, the IDF table, the
    token search, the filter and the tag-set similarity metrics) together
    with the properties the specification states about them; and, beyond
    the specification, of the id hash, the HTML escape, the progress
    percentage, the sparse cosine, the edit distance and the longest common
    subsequence, the text tokenisers and the BM25 text index, with
    properties read off the code.

    The repository holds two copies of the backend.  The embedding follows
    the later one, which has the similarity API; the earlier one is the same
    code for every function modelled here but one, the [tags] of a new row,
    which is modelled beside the later one as [legacy_tags].

    Conventions of the embedding.
    - JavaScript strings are [string]s of ASCII characters.  White space is
      the ASCII part of the class [\s] (TAB, LF, VT, FF, CR, SPACE) and case
      conversion acts on the letters [A-Z] / [a-z]; other characters are left
      alone.
    - JavaScript numbers that hold counts are [nat]; real-valued numbers
      (IDF weights, similarities, range bounds) are idealised as [R], so
      rounding is outside the model.  Where rounding, NaN or an infinity
      decides a property, the function is embedded a second time on
      binary64 floats, in the module [Binary64], and the statement is made
      there.
    - The [try] block of the normalisation loop of [buildStore] is taken
      not to throw.  What the engine's capacities ([2^24] entries in a
      [Set], [2^32 - 1] elements in an array) exclude is a hypothesis where
      a statement depends on it ([within_capacity]).
    - A JavaScript [Set] is a duplicate-free list in insertion order, a [Map]
      is an association list with unique keys in insertion order, and a
      prototype-free object or a [Map] that is only read by key is a
      [gmap]. *)

From Stdlib Require Import Floats.
From Stdlib Require Import Reals Lra Lia ZArith String Ascii.
From stdpp Require Import gmap strings list fin_maps pretty.

Local Open Scope string_scope.
Local Open Scope list_scope.

(** ** JavaScript strings *)

Module JsStr.

(** [/\s/.test(ch)] on an ASCII character. *)
Definition is_space (c : ascii) : bool :=
  let n := nat_of_ascii c in
  (((9 <=? n) && (n <=? 13)) || (n =? 32))%nat.

Definition lower_char (c : ascii) : ascii :=
  let n := nat_of_ascii c in
  if ((65 <=? n) && (n <=? 90))%nat then ascii_of_nat (n + 32) else c.

Definition upper_char (c : ascii) : ascii :=
  let n := nat_of_ascii c in
  if ((97 <=? n) && (n <=? 122))%nat then ascii_of_nat (n - 32) else c.

Fixpoint map_chars (f : ascii -> ascii) (s : string) : string :=
  match s with
  | EmptyString => EmptyString
  | String c r => String (f c) (map_chars f r)
  end.

(** [s.toLowerCase()] and [s.toUpperCase()]. *)
Definition toLowerCase : string -> string := map_chars lower_char.
Definition toUpperCase : string -> string := map_chars upper_char.

Fixpoint trimStart (s : string) : string :=
  match s with
  | EmptyString => EmptyString
  | String c r => if is_space c then trimStart r else s
  end.

Fixpoint trimEnd (s : string) : string :=
  match s with
  | EmptyString => EmptyString
  | String c r =>
      match trimEnd r with
      | EmptyString => if is_space c then EmptyString else String c EmptyString
      | r' => String c r'
      end
  end.

(** [s.trim()]. *)
Definition trim (s : string) : string := trimEnd (trimStart s).

Fixpoint all_chars (p : ascii -> bool) (s : string) : bool :=
  match s with
  | EmptyString => true
  | String c r => p c && all_chars p r
  end.

(** The truthiness of a string: [Boolean(s)]. *)
Definition truthy (s : string) : bool :=
  match s with EmptyString => false | _ => true end.

End JsStr.

Import JsStr.

(** [normalizeTag]: the trimmed, lower-cased internal form of a tag. *)
Definition normalizeTag (t : string) : string := toLowerCase (trim t).

(** ** Boolean tag expressions *)

(** The token objects [{type, val}] of [parseBoolExpr]: a tag literal, one of
    the three operators, or a parenthesis. *)
Inductive token : Type :=
  | TTag (val : string)
  | TNot
  | TAnd
  | TOr
  | TLParen
  | TRParen.

#[global] Instance token_eq_dec : EqDecision token.
Proof. solve_decision. Defined.

Module BoolExpr.

(** A double (code 34) or single (code 39) quote. *)
Definition is_quote (c : ascii) : bool :=
  bool_decide (c = "034"%char) || bool_decide (c = "039"%char).

Definition is_paren (c : ascii) : bool :=
  bool_decide (c = "("%char) || bool_decide (c = ")"%char).

Definition is_opchar (c : ascii) : bool :=
  bool_decide (c = "!"%char) || bool_decide (c = "&"%char)
  || bool_decide (c = "|"%char).

(** [/[\s()!&|]/.test(c)]: the characters that end a bare word. *)
Definition is_delim (c : ascii) : bool :=
  is_space c || is_paren c || is_opchar c.

Definition paren_token (c : ascii) : token :=
  if bool_decide (c = "("%char) then TLParen else TRParen.

Definition opchar_token (c : ascii) : token :=
  if bool_decide (c = "!"%char) then TNot
  else if bool_decide (c = "&"%char) then TAnd else TOr.

(** A bare word is an operator when its upper-cased form is [AND], [OR] or
    [NOT], and a tag literal otherwise. *)
Definition word_token (word : string) : token :=
  let up := toUpperCase word in
  if bool_decide (up = "AND") then TAnd
  else if bool_decide (up = "OR") then TOr
  else if bool_decide (up = "NOT") then TNot
  else TTag (normalizeTag word).

(** The tokenizer loop.  The two inner loops (the body of a quoted string,
    the tail of a bare word) are local fixpoints over the rest of the
    input, so the whole function is structurally recursive on the input:
    it terminates on every string. *)
Fixpoint tokenize (s : string) : list token :=
  match s with
  | EmptyString => []
  | String ch rest =>
      if is_space ch then tokenize rest
      else if is_quote ch then
        (fix quoted (buf r : string) {struct r} : list token :=
           match r with
           | EmptyString => [TTag (normalizeTag buf)]
           | String c r' =>
               if bool_decide (c = ch)
               then TTag (normalizeTag buf) :: tokenize r'
               else quoted (buf +:+ String c EmptyString) r'
           end) EmptyString rest
      else if is_paren ch then paren_token ch :: tokenize rest
      else if is_opchar ch then opchar_token ch :: tokenize rest
      else
        (fix word (w r : string) {struct r} : list token :=
           match r with
           | EmptyString => [word_token w]
           | String c r' =>
               if is_delim c then word_token w :: tokenize r
               else word (w +:+ String c EmptyString) r'
           end) (String ch EmptyString) rest
  end.

(** The two inner loops on their own: what they collect and where the outer
    loop resumes. *)
Fixpoint scan_quoted (q : ascii) (buf r : string) : string * string :=
  match r with
  | EmptyString => (buf, EmptyString)
  | String c r' =>
      if bool_decide (c = q) then (buf, r')
      else scan_quoted q (buf +:+ String c EmptyString) r'
  end.

Fixpoint scan_word (w r : string) : string * string :=
  match r with
  | EmptyString => (w, EmptyString)
  | String c r' =>
      if is_delim c then (w, r)
      else scan_word (w +:+ String c EmptyString) r'
  end.

(** Shunting-yard: [prec = { NOT:3, AND:2, OR:1 }]. *)
Definition prec (t : token) : nat :=
  match t with
  | TNot => 3
  | TAnd => 2
  | TOr => 1
  | _ => 0
  end.

Definition is_operator (t : token) : bool :=
  match t with
  | TNot | TAnd | TOr => true
  | _ => false
  end.

(** The operator stack [ops] is a list whose head is the top of the stack.
    [pop_ops t] is the inner [while (ops.length)] loop run when the
    operator [t] arrives. *)
Fixpoint pop_ops (t : token) (out ops : list token)
  : list token * list token :=
  match ops with
  | [] => (out, [])
  | top :: ops' =>
      if is_operator top && (prec t <=? prec top)%nat
      then pop_ops t (out ++ [top]) ops'
      else (out, ops)
  end.

(** The loop run at a closing parenthesis: pop to the output until an
    opening parenthesis is on top. *)
Fixpoint pop_to_paren (out ops : list token) : list token * list token :=
  match ops with
  | [] => (out, [])
  | top :: ops' =>
      if bool_decide (top = TLParen) then (out, ops)
      else pop_to_paren (out ++ [top]) ops'
  end.

Definition sy_step (st : list token * list token) (t : token)
  : list token * list token :=
  let '(out, ops) := st in
  match t with
  | TTag _ => (out ++ [t], ops)
  | TNot | TAnd | TOr =>
      let '(out', ops') := pop_ops t out ops in (out', t :: ops')
  | TLParen => (out, t :: ops)
  | TRParen =>
      let '(out', ops') := pop_to_paren out ops in
      match ops' with
      | TLParen :: ops'' => (out', ops'')
      | _ => (out', ops')
      end
  end.

(** The postfix plan: the tokens run through [sy_step], then the operator
    stack flushed from its top. *)
Definition shunting_yard (tokens : list token) : list token :=
  let '(out, ops) := foldl sy_step ([], []) tokens in out ++ ops.

(** The evaluation stack holds booleans, head on top.  [stack.pop()] of an
    empty array is [undefined], here [None]. *)
Definition js_pop (stack : list bool) : option bool * list bool :=
  match stack with
  | [] => (None, [])
  | v :: stack' => (Some v, stack')
  end.

(** [v || false] for [v] a boolean or [undefined]. *)
Definition or_false (v : option bool) : bool := default false v.

Definition eval_step (tags : list string) (stack : list bool) (n : token)
  : list bool :=
  match n with
  | TTag val => bool_decide (val ∈ tags) :: stack
  | TNot =>
      let '(a, s1) := js_pop stack in negb (or_false a) :: s1
  | TAnd =>
      let '(b, s1) := js_pop stack in
      let '(a, s2) := js_pop s1 in
      (or_false a && or_false b) :: s2
  | TOr =>
      let '(b, s1) := js_pop stack in
      let '(a, s2) := js_pop s1 in
      (or_false a || or_false b) :: s2
  | TLParen | TRParen => stack
  end.

(** The [eval] closure over a postfix plan [out], applied to the tags of a
    row: [!!stack.pop()] after the loop. *)
Definition eval_postfix (out : list token) (tags : list string) : bool :=
  or_false (fst (js_pop (foldl (eval_step tags) [] out))).

(** The object [{ast, eval}] returned by [parseBoolExpr]; [ast] is [null]
    for the match-everything expression. *)
Record t : Type := mk {
  ast : option (list token);
  eval : list string -> bool
}.

End BoolExpr.

Import BoolExpr.

Definition parseBoolExpr (input : string) : BoolExpr.t :=
  let s := trim input in
  if negb (truthy s) then BoolExpr.mk None (fun _ => true)
  else
    let out := shunting_yard (tokenize s) in
    BoolExpr.mk (Some out) (eval_postfix out).


(** ** JavaScript sets and maps *)

(** A [Set]: a duplicate-free list in insertion order. *)
Module JsSet.
Section JsSet.
Context {A : Type} `{EqDecision A}.

Definition has (s : list A) (x : A) : bool := bool_decide (x ∈ s).

(** [s.add(x)]: a new element goes last, a present one changes nothing. *)
Definition add (s : list A) (x : A) : list A :=
  if has s x then s else s ++ [x].

(** [new Set(iterable)]. *)
Definition of_list (l : list A) : list A := foldl add [] l.

Definition size (s : list A) : nat := length s.

End JsSet.
End JsSet.

(** A [Map] with string keys: an association list with unique keys, in
    insertion order. *)
Module JsMap.
Section JsMap.
Context {V : Type}.

Fixpoint get (m : list (string * V)) (k : string) : option V :=
  match m with
  | [] => None
  | (k', v) :: m' => if bool_decide (k' = k) then Some v else get m' k
  end.

(** [m.set(k, v)]: a present key keeps its place, a new one goes last. *)
Fixpoint set (m : list (string * V)) (k : string) (v : V)
  : list (string * V) :=
  match m with
  | [] => [(k, v)]
  | (k', v') :: m' =>
      if bool_decide (k' = k) then (k, v) :: m' else (k', v') :: set m' k v
  end.

Definition values (m : list (string * V)) : list V := map snd m.

Definition size (m : list (string * V)) : nat := length m.

End JsMap.
End JsMap.

(** ** Numbers *)

Local Open Scope R_scope.

(** [!x] for a number [x]: zero is the falsy real. *)
Definition is_zero (x : R) : bool := if Req_dec_T x 0 then true else false.

(** [x < y] on numbers. *)
Definition Rltb (x y : R) : bool := if Rlt_dec x y then true else false.

(** [x || d] for a number or [undefined]. *)
Definition num_or (x : option R) (d : R) : R :=
  match x with
  | Some v => if is_zero v then d else v
  | None => d
  end.

(** ** The IDF table *)

(** The weight of a tag of document frequency [df] in a corpus of [N]
    documents: [Math.log((N + 1) / (df + 1)) + 1]. *)
Definition idf_weight (N df : nat) : R := ln ((INR N + 1) / (INR df + 1)) + 1.

(** [computeIdf]: one entry per entry of [tagToDf]. *)
Definition computeIdf (tagToDf : gmap string nat) (totalDocs : nat)
  : gmap string R :=
  let N := totalDocs in
  map_fold (fun tag df idf => <[tag := idf_weight N df]> idf) ∅ tagToDf.

(** ** Sparse cosine *)

(** [cosineSimSparse(ma, mb)] in exact arithmetic; an argument that is
    [undefined] is [None].  The function on the numbers of the code, whose
    sums are rounded in the order of the entries, is
    [Binary64.cosineSimSparse]. *)
Definition cosineSimSparse (ma mb : option (list (string * R))) : R :=
  match ma, mb with
  | Some ma, Some mb =>
      let na := foldl (fun na v => na + v * v) 0 (JsMap.values ma) in
      let nb := foldl (fun nb v => nb + v * v) 0 (JsMap.values mb) in
      let '(small, big) :=
        if (JsMap.size ma <? JsMap.size mb)%nat then (ma, mb) else (mb, ma) in
      let dot :=
        foldl (fun dot '(k, va) =>
                 match JsMap.get big k with
                 | Some vb => if is_zero vb then dot else dot + va * vb
                 | None => dot
                 end) 0 small in
      if is_zero dot || is_zero na || is_zero nb then 0
      else dot / sqrt (na * nb)
  | _, _ => 0
  end.

(** ** Rows and the store *)

(** A character of the payload.  [None] is an absent property; [c_id] holds
    [String(c.id)]; the elements of [c_tags] are the non-null entries of
    [c.tags] as strings. *)
Record RawChar : Type := {
  c_id : option string;
  c_name : option string;
  c_avatar : option string;
  c_data_avatar : option string;
  c_image : option string;
  c_tags : list string;
  c_creator : option string
}.

Record Payload : Type := {
  characters : list RawChar;
  tag_map : gmap string (list string)
}.

(** A row of the store, with the derived [tag_count] and [sigma_idf].  The
    display fields (sanitised notes and description, dates, sizes) take no
    part in what follows. *)
Record Row : Type := {
  id : string;
  name : string;
  creator : string;
  tags : list string;
  tag_count : nat;
  sigma_idf : R
}.

Record Store : Type := {
  rows : list Row;
  byId : gmap string Row;
  tagToIds : gmap string (list string);
  idf : gmap string R;
  tokenMap : gmap string (list string)
}.

(** [x || y] on strings that may be absent. *)
Definition str_or (x : option string) (y : option string) : option string :=
  match x with
  | Some s => if truthy s then x else y
  | None => y
  end.

(** [String(x || "")]. *)
Definition str_or_empty (x : option string) : string :=
  match x with
  | Some s => s
  | None => ""
  end.

Module Hash.

Local Open Scope Z_scope.

(** [ToInt32]: the signed 32-bit value of an integer. *)
Definition to_int32 (z : Z) : Z := (z + 2 ^ 31) mod 2 ^ 32 - 2 ^ 31.

(** [ToUint32], as in [h >>> 0]. *)
Definition to_uint32 (z : Z) : Z := z mod 2 ^ 32.

(** One round: [h = ((h << 5) + h) ^ s.charCodeAt(i)]. *)
Definition hash_round (h : Z) (c : ascii) : Z :=
  Z.lxor (to_int32 (to_int32 (Z.shiftl (to_int32 h) 5) + h))
         (Z.of_nat (nat_of_ascii c)).

Definition digit36 (d : Z) : ascii :=
  if d <? 10 then ascii_of_nat (48 + Z.to_nat d)
  else ascii_of_nat (87 + Z.to_nat d).

(** [n.toString(36)] for [0 <= n < 2^32]: at most seven digits. *)
Fixpoint to_base36 (fuel : nat) (n : Z) (acc : string) : string :=
  match fuel with
  | O => acc
  | S fuel' =>
      let acc' := String (digit36 (n mod 36)) acc in
      if n / 36 =? 0 then acc' else to_base36 fuel' (n / 36) acc'
  end.

Definition hashString (s : string) : string :=
  let h := foldl hash_round 5381 (list_ascii_of_string s) in
  to_base36 7 (to_uint32 h) EmptyString.

End Hash.

Module Json.

(** The one-character string holding a double quote. *)
Definition dquote : string := String "034"%char EmptyString.

Definition hex_digit (n : nat) : ascii :=
  if (n <? 10)%nat then ascii_of_nat (48 + n) else ascii_of_nat (87 + n).

(** The JSON escape of one ASCII character. *)
Definition escape_char (c : ascii) : string :=
  let n := nat_of_ascii c in
  if bool_decide (n = 34%nat) then "\" +:+ dquote
  else if bool_decide (n = 92%nat) then "\\"
  else if bool_decide (n = 8%nat) then "\b"
  else if bool_decide (n = 12%nat) then "\f"
  else if bool_decide (n = 10%nat) then "\n"
  else if bool_decide (n = 13%nat) then "\r"
  else if bool_decide (n = 9%nat) then "\t"
  else if (n <? 32)%nat then
    "\u00" +:+ String (hex_digit (n / 16)) (String (hex_digit (n mod 16)) "")
  else String c "".

Fixpoint escape (s : string) : string :=
  match s with
  | EmptyString => EmptyString
  | String c r => escape_char c +:+ escape r
  end.

Definition quote (s : string) : string := dquote +:+ escape s +:+ dquote.

Definition member (key : string) (v : option string) : list string :=
  match v with
  | Some s => [quote key +:+ ":" +:+ quote s]
  | None => []
  end.

Fixpoint join_comma (l : list string) : string :=
  match l with
  | [] => ""
  | [x] => x
  | x :: r => x +:+ "," +:+ join_comma r
  end.

(** [JSON.stringify({n: name, a: avatar})]; an absent property is left
    out. *)
Definition stringify_na (name avatar : option string) : string :=
  "{" +:+ join_comma (member "n" name ++ member "a" avatar) +:+ "}".

End Json.

(** [deriveId]: the given id, or a key derived from the avatar or name. *)
Definition deriveId (c : RawChar) : string :=
  match c_id c with
  | Some i => i
  | None =>
      let trimmed := trim (str_or_empty (str_or (c_avatar c) (c_name c))) in
      let basis :=
        if truthy trimmed then trimmed
        else Json.stringify_na (c_name c) (c_avatar c) in
      "x_" +:+ Hash.hashString basis
  end.

(** [normalizeTagsLower]: the trimmed, lower-cased, non-empty entries, each
    once, in order of first appearance. *)
Definition normalizeTagsLower (arr : list string) : list string :=
  foldl (fun out t =>
           let t' := toLowerCase (trim t) in
           if truthy t' then JsSet.add out t' else out) [] arr.

(** The [tags] of a new row: the character's own tags and the tags that
    [tag_map] holds for its avatar key, normalised and united. *)
Definition row_tags (tag_map : gmap string (list string)) (c : RawChar)
  : list string :=
  let selfTags := normalizeTagsLower (c_tags c) in
  let avatarKey :=
    str_or_empty (str_or (c_avatar c) (str_or (c_data_avatar c) (c_image c))) in
  let fromMapRaw := default [] (tag_map !! avatarKey) in
  let mapTags := normalizeTagsLower fromMapRaw in
  JsSet.of_list (selfTags ++ mapTags).

(** The [tags] of a new row in the older copy of the backend
    ([cards-backend.js] without [normalizeTagsLower]):
    [c.tags.map(normalizeTag).filter(Boolean)]. *)
Definition legacy_tags (c : RawChar) : list string :=
  List.filter truthy (map normalizeTag (c_tags c)).

(** A row before the derived metrics are written into it; [ts] is its
    [tags]. *)
Definition new_row (c : RawChar) (ts : list string) : Row :=
  {| id := deriveId c;
     name := str_or_empty (c_name c);
     creator := str_or_empty (c_creator c);
     tags := ts;
     tag_count := 0;
     sigma_idf := 0 |}.

(** One turn of the normalisation loop: a character whose id is already in
    [byId] is skipped.  The body of the loop is a [try] block whose [catch]
    drops the character; it is taken not to throw, which leaves out the
    characters whose tags exceed the capacity of a [Set]. *)
Definition add_character (tags_of : RawChar -> list string)
    (st : gmap string Row * list Row) (c : RawChar)
  : gmap string Row * list Row :=
  let '(byId, rows) := st in
  let id := deriveId c in
  if bool_decide (is_Some (byId !! id)) then st
  else
    let row := new_row c (tags_of c) in
    (<[id := row]> byId, rows ++ [row]).

(** The state of the tag index loops: the inverted index and the document
    frequencies. *)
Definition index_tag (rid : string)
    (st : list string * gmap string (list string) * gmap string nat)
    (t : string)
  : list string * gmap string (list string) * gmap string nat :=
  let '(seen, tagToIds, tagToDf) := st in
  if JsSet.has seen t then st
  else
    (JsSet.add seen t,
     <[t := JsSet.add (default [] (tagToIds !! t)) rid]> tagToIds,
     <[t := (default 0 (tagToDf !! t) + 1)%nat]> tagToDf).

Definition index_row
    (st : gmap string (list string) * gmap string nat) (r : Row)
  : gmap string (list string) * gmap string nat :=
  let '(tagToIds, tagToDf) := st in
  let '(_, tagToIds', tagToDf') :=
    foldl (index_tag (id r)) ([], tagToIds, tagToDf) (tags r) in
  (tagToIds', tagToDf').

(** The second pass over the rows: [tag_count] and [sigma_idf]. *)
Definition with_metrics (idf : gmap string R) (r : Row) : Row :=
  let sum := foldl (fun sum t => sum + num_or (idf !! t) 0) 0 (tags r) in
  {| id := id r; name := name r; creator := creator r; tags := tags r;
     tag_count := length (tags r); sigma_idf := sum |}.

Definition is_lower_alnum (c : ascii) : bool :=
  let n := nat_of_ascii c in
  (((97 <=? n) && (n <=? 122)) || ((48 <=? n) && (n <=? 57)))%nat.

(** [s.split(/[^a-z0-9]+/).filter(Boolean)]: the maximal runs of lower-case
    letters and digits of [s], in order; [cur] is the run being read. *)
Fixpoint alnum_runs (cur : string) (s : string) : list string :=
  match s with
  | EmptyString => if truthy cur then [cur] else []
  | String c r =>
      if is_lower_alnum c then alnum_runs (cur +:+ String c EmptyString) r
      else (if truthy cur then [cur] else []) ++ alnum_runs EmptyString r
  end.

Definition tokens_of (s : string) : list string :=
  alnum_runs EmptyString (toLowerCase s).

(** [addTok(tok, id)]. *)
Definition addTok (rid : string) (tokenMap : gmap string (list string))
    (tok : string) : gmap string (list string) :=
  let tok := trim tok in
  if negb (truthy tok) then tokenMap
  else <[tok := JsSet.add (default [] (tokenMap !! tok)) rid]> tokenMap.

Definition index_tokens (tokenMap : gmap string (list string)) (r : Row)
  : gmap string (list string) :=
  let nameToks := tokens_of (name r) in
  let creatorToks := tokens_of (creator r) in
  foldl (addTok (id r)) tokenMap (JsSet.of_list (nameToks ++ creatorToks)).

(** The body of [buildStore], for a given way to compute the [tags] of a
    row: normalise and de-duplicate, index the tags, compute the IDF table
    and the metrics of each row, index the name tokens. *)
Definition buildStore_with (tags_of : RawChar -> list string)
    (payload : Payload) : Store :=
  let '(_, rows0) :=
    foldl (add_character tags_of) (∅, []) (characters payload) in
  let '(tagToIds, tagToDf) := foldl index_row (∅, ∅) rows0 in
  let idf := computeIdf tagToDf (length rows0) in
  let rows := map (with_metrics idf) rows0 in
  let tokenMap := foldl index_tokens ∅ rows in
  {| rows := rows;
     byId := list_to_map (map (fun r => (id r, r)) rows);
     tagToIds := tagToIds;
     idf := idf;
     tokenMap := tokenMap |}.

(** [buildStore] of the backend with the similarity API: the tags of a row
    are the normalised union [row_tags]. *)
Definition buildStore (payload : Payload) : Store :=
  buildStore_with (row_tags (tag_map payload)) payload.

(** [buildStore] of the older copy [cards-backend.js]: the same function but
    for the tags of a row, which are [legacy_tags]. *)
Definition buildStore_legacy (payload : Payload) : Store :=
  buildStore_with legacy_tags payload.

(** The document frequency of a tag: the number of rows that carry it. *)
Definition doc_freq (t : string) (rows : list Row) : nat :=
  length (filter (fun r => t ∈ tags r) rows).

(** The corpus of the end-to-end scenario of the specification. *)
Definition scenario_char (i : string) (ts : list string) : RawChar :=
  {| c_id := Some i; c_name := Some ("Doc" +:+ i); c_avatar := None;
     c_data_avatar := None; c_image := None; c_tags := ts;
     c_creator := None |}.

Definition scenario : Payload :=
  {| characters := [scenario_char "1" ["a"; "b"];
                    scenario_char "2" ["b"; "c"];
                    scenario_char "3" ["a"; "b"; "c"]];
     tag_map := ∅ |}.

(** ** The query API *)

(** The options of [tagSimilarity], with their defaults. *)
Record SimOpts : Type := {
  mode : string;
  weightTags : bool;
  idfMul : R
}.

Definition default_sim_opts : SimOpts :=
  {| mode := "jaccard"; weightTags := true; idfMul := 1 |}.

(** The options of [filter]; [None] is an option left out, which takes its
    default. *)
Record FilterOpts : Type := {
  expr : string;
  tagCountMin : option R;
  tagCountMax : option R;
  rarityMin : option R;
  rarityMax : option R
}.

Module Query.

(** [let inter = 0; for (const t of A) if (B.has(t)) inter++]. *)
Definition count_inter (A B : list string) : nat :=
  foldl (fun inter t => if JsSet.has B t then S inter else inter) 0%nat A.

(** [S.has(t) ? 1 : 0]. *)
Definition indicator (S : list string) (t : string) : R :=
  if JsSet.has S t then 1 else 0.

(** The weight of a tag in the cosine vectors:
    [weightTags ? (store.idf[t] || 1) : 1]. *)
Definition tag_weight (store : Store) (weightTags : bool) (t : string) : R :=
  if weightTags then num_or (idf store !! t) 1 else 1.

(** [for (const t of A) wa.set(t, ...)] from an empty map. *)
Definition tag_vector (store : Store) (weightTags : bool) (A : list string)
  : list (string * R) :=
  foldl (fun w t => JsMap.set w t (tag_weight store weightTags t)) [] A.

(** [tagSimilarity(a, b, { mode, weightTags, idfMul })] in exact
    arithmetic; the function on the numbers of the code is
    [Binary64.tagSimilarity]. *)
Definition tagSimilarity (store : Store) (a b : Row) (o : SimOpts) : R :=
  let A := JsSet.of_list (tags a) in
  let B := JsSet.of_list (tags b) in
  if bool_decide (mode o = "none") then 0
  else if bool_decide (mode o = "overlap") then
    foldl (fun s t =>
             if negb (JsSet.has B t) then s
             else if weightTags o
                  then s + (1 + num_or (idf store !! t) 0 * (idfMul o - 1))
                  else s + 1) 0 A
  else if bool_decide (mode o = "jaccard") then
    let uni := JsSet.size (JsSet.of_list (A ++ B)) in
    let inter := count_inter A B in
    if (uni =? 0)%nat then 0 else INR inter / INR uni
  else if bool_decide (mode o = "dice") then
    let inter := count_inter A B in
    let total := (JsSet.size A + JsSet.size B)%nat in
    if (total =? 0)%nat then 0 else (2 * INR inter) / INR total
  else if bool_decide (mode o = "tanimoto") then
    let uni := JsSet.size (JsSet.of_list (A ++ B)) in
    let inter := count_inter A B in
    if (uni =? 0)%nat then 0 else INR inter / INR uni
  else if bool_decide (mode o = "ochiai") then
    let inter := count_inter A B in
    let denom := sqrt (INR (JsSet.size A * JsSet.size B)) in
    if is_zero denom then 0 else INR inter / denom
  else if bool_decide (mode o = "simpson") then
    let inter := count_inter A B in
    let minSize := Nat.min (JsSet.size A) (JsSet.size B) in
    if (minSize =? 0)%nat then 0 else INR inter / INR minSize
  else if bool_decide (mode o = "braun-blanquet") then
    let inter := count_inter A B in
    let maxSize := Nat.max (JsSet.size A) (JsSet.size B) in
    if (maxSize =? 0)%nat then 0 else INR inter / INR maxSize
  else if bool_decide (mode o = "hamming") then
    let union := JsSet.of_list (A ++ B) in
    let diff :=
      foldl (fun diff t =>
               if negb (Bool.eqb (JsSet.has A t) (JsSet.has B t))
               then S diff else diff) 0%nat union in
    if (JsSet.size union =? 0)%nat then 1
    else 1 - INR diff / INR (JsSet.size union)
  else if bool_decide (mode o = "manhattan") then
    let union := JsSet.of_list (A ++ B) in
    let dist :=
      foldl (fun dist t => dist + Rabs (indicator A t - indicator B t))
            0 union in
    if (JsSet.size union =? 0)%nat then 1
    else 1 - dist / INR (JsSet.size union)
  else if bool_decide (mode o = "euclidean") then
    let union := JsSet.of_list (A ++ B) in
    let dist :=
      foldl (fun dist t => dist + (indicator A t - indicator B t) ^ 2)
            0 union in
    let maxDist := sqrt (INR (JsSet.size union)) in
    if is_zero maxDist then 1 else 1 - sqrt dist / maxDist
  else
    let wa := tag_vector store (weightTags o) A in
    let wb := tag_vector store (weightTags o) B in
    cosineSimSparse (Some wa) (Some wb).

(** The defaults of [filter]. *)
Definition default_tagCountMin : R := 0.
Definition default_tagCountMax : R := 1000000000.
Definition default_rarityMin : R := -1000000000.
Definition default_rarityMax : R := 1000000000.

(** One turn of the loop of [filter]: the row is pushed unless one of the
    three tests says [continue]. *)
Definition filter_step (be : BoolExpr.t) (kMin kMax rMin rMax : R)
    (out : list Row) (r : Row) : list Row :=
  if negb (eval be (tags r)) then out
  else if Rltb (INR (tag_count r)) kMin || Rltb kMax (INR (tag_count r))
  then out
  else if Rltb (sigma_idf r) rMin || Rltb rMax (sigma_idf r) then out
  else out ++ [r].

Definition filter (store : Store) (o : FilterOpts) : list Row :=
  let kMin := default default_tagCountMin (tagCountMin o) in
  let kMax := default default_tagCountMax (tagCountMax o) in
  let rMin := default default_rarityMin (rarityMin o) in
  let rMax := default default_rarityMax (rarityMax o) in
  let be := parseBoolExpr (expr o) in
  foldl (filter_step be kMin kMax rMin rMax) [] (rows store).

(** The loop of [searchTokens]; [current] is [None] while it is still
    [undefined].  The loop stops at the first empty intersection. *)
Fixpoint search_loop (tokenMap : gmap string (list string))
    (current : option (list string)) (toks : list string)
  : option (list string) :=
  match toks with
  | [] => current
  | t :: toks' =>
      let s := default [] (tokenMap !! t) in
      let current' :=
        match current with
        | Some cur => base.filter (fun x => JsSet.has s x = true) cur
        | None => JsSet.of_list s
        end in
      if (JsSet.size current' =? 0)%nat then Some current'
      else search_loop tokenMap (Some current') toks'
  end.

Definition searchTokens (store : Store) (q : string) : list string :=
  let toks := tokens_of q in
  match toks with
  | [] => JsSet.of_list (map id (rows store))
  | _ => default [] (search_loop (tokenMap store) None toks)
  end.

End Query.

(** ** Shapes of input used in the statements *)

(** A bare word of the expression grammar: not empty, no white space,
    parenthesis or operator symbol in it, and no quote in front. *)
Definition bare_word (w : string) : bool :=
  match w with
  | EmptyString => false
  | String c _ => negb (is_quote c)
  end && all_chars (fun c => negb (is_delim c)) w.

(** The three operator words, in any case. *)
Definition is_keyword (w : string) : bool :=
  let up := toUpperCase w in
  bool_decide (up = "AND") || bool_decide (up = "OR")
  || bool_decide (up = "NOT").

(** A tag that can be written bare in an expression. *)
Definition bare_tag (w : string) : bool := bare_word w && negb (is_keyword w).

(** What may follow a bare word: the end of the input or a delimiter. *)
Definition ends_word (rest : string) : bool :=
  match rest with
  | EmptyString => true
  | String c _ => is_delim c
  end.

(** The input starts with a character that is no white space. *)
Definition first_solid (x : string) : bool :=
  match x with
  | EmptyString => false
  | String c _ => negb (is_space c)
  end.

(** No double quote occurs in the phrase. *)
Definition quote_free (p : string) : bool :=
  all_chars (fun c => negb (bool_decide (c = "034"%char))) p.

(** The double quote, and a phrase written between double quotes. *)
Definition dq : ascii := "034"%char.

Definition quoted (p : string) : string :=
  String dq (p +:+ String dq EmptyString).

(** A stack machine that raises on underflow: [None] where a [pop] finds the
    stack empty.  It is the reference the tolerant [eval] is compared with. *)
Definition strict_step (tags : list string) (stack : list bool) (n : token)
  : option (list bool) :=
  match n, stack with
  | TTag val, _ => Some (bool_decide (val ∈ tags) :: stack)
  | TNot, a :: s1 => Some (negb a :: s1)
  | TAnd, b :: a :: s2 => Some ((a && b) :: s2)
  | TOr, b :: a :: s2 => Some ((a || b) :: s2)
  | (TLParen | TRParen), _ => Some stack
  | _, _ => None
  end.

Fixpoint strict_run (tags : list string) (stack : list bool)
    (out : list token) : option (list bool) :=
  match out with
  | [] => Some stack
  | n :: out' =>
      match strict_step tags stack n with
      | Some stack' => strict_run tags stack' out'
      | None => None
      end
  end.

Definition strict_eval (tags : list string) (stack : list bool)
    (out : list token) : option bool :=
  match strict_run tags stack out with
  | Some (v :: _) => Some v
  | _ => None
  end.

(** ** Expression trees *)

(** Boolean expressions over tag literals, as trees. *)
Inductive bexp : Type :=
  | ETag (v : string)
  | ENot (e : bexp)
  | EAnd (l r : bexp)
  | EOr (l r : bexp).

(** The binding strength of the top of a tree: the precedence of its
    operator, and [4] for a literal. *)
Definition level (e : bexp) : nat :=
  match e with
  | ETag _ => 4
  | ENot _ => 3
  | EAnd _ _ => 2
  | EOr _ _ => 1
  end.

(** The tokens of a tree written where binding strength [k] is required,
    with the parentheses that precedence and left associativity make
    necessary and no others. *)
Fixpoint toks (k : nat) (e : bexp) : list token :=
  let raw :=
    match e with
    | ETag v => [TTag v]
    | ENot e1 => TNot :: toks 4 e1
    | EAnd l r => toks 2 l ++ TAnd :: toks 3 r
    | EOr l r => toks 1 l ++ TOr :: toks 2 r
    end in
  if (level e <? k)%nat then TLParen :: raw ++ [TRParen] else raw.

(** The postfix form of a tree. *)
Fixpoint post (e : bexp) : list token :=
  match e with
  | ETag v => [TTag v]
  | ENot e1 => post e1 ++ [TNot]
  | EAnd l r => post l ++ post r ++ [TAnd]
  | EOr l r => post l ++ post r ++ [TOr]
  end.

(** The truth value of a tree on a tag list. *)
Fixpoint den (tags : list string) (e : bexp) : bool :=
  match e with
  | ETag v => bool_decide (v ∈ tags)
  | ENot e1 => negb (den tags e1)
  | EAnd l r => den tags l && den tags r
  | EOr l r => den tags l || den tags r
  end.

(** The top of the operator stack does not hold an operator of precedence
    [k] or more. *)
Definition below (k : nat) (ops : list token) : Prop :=
  match ops with
  | [] => True
  | top :: _ => is_operator top = false \/ (prec top < k)%nat
  end.

(** The tokens of a tree before the enclosing parentheses, if any. *)
Definition raw_toks (e : bexp) : list token :=
  match e with
  | ETag v => [TTag v]
  | ENot e1 => TNot :: toks 4 e1
  | EAnd l r => toks 2 l ++ TAnd :: toks 3 r
  | EOr l r => toks 1 l ++ TOr :: toks 2 r
  end.

(** The tag literals of a tree, and a tree with its literals mapped. *)
Fixpoint etags (e : bexp) : list string :=
  match e with
  | ETag v => [v]
  | ENot e1 => etags e1
  | EAnd l r => etags l ++ etags r
  | EOr l r => etags l ++ etags r
  end.

Fixpoint emap (f : string -> string) (e : bexp) : bexp :=
  match e with
  | ETag v => ETag (f v)
  | ENot e1 => ENot (emap f e1)
  | EAnd l r => EAnd (emap f l) (emap f r)
  | EOr l r => EOr (emap f l) (emap f r)
  end.

Definition tmap (f : string -> string) (t : token) : token :=
  match t with
  | TTag v => TTag (f v)
  | _ => t
  end.

(** How a token is written, and a token list written with one blank between
    tokens. *)
Definition show (t : token) : string :=
  match t with
  | TTag v => v
  | TNot => "NOT"
  | TAnd => "AND"
  | TOr => "OR"
  | TLParen => "("
  | TRParen => ")"
  end.

Fixpoint render (ts : list token) : string :=
  match ts with
  | [] => EmptyString
  | [t] => show t
  | t :: r => show t +:+ String " " (render r)
  end.

(** The tag literals of a token list can be written bare. *)
Definition writable (ts : list token) : Prop :=
  Forall (fun t => match t with TTag v => bare_tag v = true | _ => True end) ts.

(** ** Closed forms used in the statements *)

Section ClosedForms.
Local Open Scope R_scope.

(** The sum of [f] over a list. *)
Fixpoint rsum {A : Type} (f : A -> R) (l : list A) : R :=
  match l with
  | [] => 0
  | x :: l' => f x + rsum f l'
  end.

(** How two sets differ at a tag: [0] when both or neither has it. *)
Definition differ (A B : list string) (t : string) : R :=
  if Bool.eqb (JsSet.has A t) (JsSet.has B t) then 0 else 1.

(** The weight [overlap] gives a shared tag. *)
Definition overlap_weight (store : Store) (o : SimOpts) (t : string) : R :=
  if weightTags o then 1 + num_or (idf store !! t) 0 * (idfMul o - 1) else 1.

(** The square of the cosine weight of a tag. *)
Definition sq_weight (store : Store) (o : SimOpts) (t : string) : R :=
  Query.tag_weight store (weightTags o) t
  * Query.tag_weight store (weightTags o) t.

(** The cosine of two tag sets: the squared weights of the shared tags over
    the root of the product of the two sums of squared weights, and [0] when
    one of the three sums is zero. *)
Definition cosine_of (store : Store) (o : SimOpts) (A B : list string) : R :=
  let dot := rsum (sq_weight store o) (filter (fun t => t ∈ B) A) in
  let na := rsum (sq_weight store o) A in
  let nb := rsum (sq_weight store o) B in
  if is_zero dot || is_zero na || is_zero nb then 0
  else dot / sqrt (na * nb).

End ClosedForms.

(** The metrics of the specification that are bounded by [1]. *)
Definition bounded_modes : list string :=
  ["jaccard"; "dice"; "cosine"; "ochiai"; "simpson"; "braun-blanquet";
   "tanimoto"].

(** The modes [tagSimilarity] tests for before its default. *)
Definition handled_modes : list string :=
  ["none"; "overlap"; "jaccard"; "dice"; "tanimoto"; "ochiai"; "simpson";
   "braun-blanquet"; "hamming"; "manhattan"; "euclidean"].

(** A store with one IDF entry and two rows, for the instances below. *)
Definition sample_store : Store :=
  {| rows := []; byId := ∅; tagToIds := ∅;
     idf := {[ "x" := 2%R ]}; tokenMap := ∅ |}.

Definition sample_row (ts : list string) : Row :=
  {| id := "r"; name := ""; creator := ""; tags := ts;
     tag_count := length ts; sigma_idf := 0%R |}.

(** ** Parts of a built store *)

(** The rows as the normalisation loop leaves them. *)
Definition norm_rows (tags_of : RawChar -> list string) (p : Payload)
  : list Row :=
  (foldl (add_character tags_of) (∅, []) (characters p)).2.

(** The document-frequency table after the index loops. *)
Definition tag_df (rows0 : list Row) : gmap string nat :=
  (foldl index_row (∅, ∅) rows0).2.

(** What the document-frequency loop adds to an entry over [n] rows that
    carry the tag. *)
Definition bump (o : option nat) (n : nat) : option nat :=
  match n with
  | O => o
  | S _ => Some (default 0 o + n)%nat
  end.

(** The posting set of a token: [tokenMap.get(t) || new Set()]. *)
Definition posting (tm : gmap string (list string)) (t : string)
  : list string :=
  default [] (tm !! t).

#[global] Instance Rle_decision (x y : R) : Decision (x <= y)%R := Rle_dec x y.

(** What a row must satisfy to pass the three tests of [filter]. *)
Definition passes (be : BoolExpr.t) (kMin kMax rMin rMax : R) (r : Row)
  : Prop :=
  eval be (tags r) = true
  /\ (kMin <= INR (tag_count r))%R /\ (INR (tag_count r) <= kMax)%R
  /\ (rMin <= sigma_idf r)%R /\ (sigma_idf r <= rMax)%R.

(** The default upper bounds of [filter], which stay in force when the
    caller gives none. *)
Definition within_caps (r : Row) : Prop :=
  (INR (tag_count r) <= Query.default_tagCountMax)%R
  /\ (sigma_idf r <= Query.default_rarityMax)%R.

#[global] Instance passes_dec be kMin kMax rMin rMax r :
  Decision (passes be kMin kMax rMin rMax r).
Proof. unfold passes. apply _. Defined.

#[global] Instance within_caps_dec r : Decision (within_caps r).
Proof. unfold within_caps. apply _. Defined.

(** The options of [filter] with a blank expression [ws], a lower bound
    [kMin] on the tag count and the other three bounds left out. *)
Definition open_filter (ws : string) (kMin : option R) : FilterOpts :=
  {| expr := ws; tagCountMin := kMin; tagCountMax := None;
     rarityMin := None; rarityMax := None |}.

(** ** Sample inputs *)

(** One document whose tag list spells the same tag twice. *)
Definition dup_payload : Payload :=
  {| characters := [scenario_char "1" ["a"; "A "]]; tag_map := ∅ |}.

(** ** More shapes of expressions *)

Definition is_tag (t : token) : bool :=
  match t with TTag _ => true | _ => false end.

(** The character [q] does not occur in the phrase. *)
Definition free_of (q : ascii) (p : string) : bool :=
  all_chars (fun c => negb (bool_decide (c = q))) p.

(** The single quote. *)
Definition sq : ascii := "039"%char.

(** An upper-case letter. *)
Definition is_upper (c : ascii) : bool :=
  let n := nat_of_ascii c in ((65 <=? n) && (n <=? 90))%nat.

(** The result object of the parsing branch for a postfix plan. *)
Definition plan_of (out : list token) : BoolExpr.t :=
  BoolExpr.mk (Some out) (eval_postfix out).

(** ** Options of [filter] in the statements *)

(** The options [o] with another expression. *)
Definition with_expr (o : FilterOpts) (e : string) : FilterOpts :=
  {| expr := e; tagCountMin := tagCountMin o; tagCountMax := tagCountMax o;
     rarityMin := rarityMin o; rarityMax := rarityMax o |}.

(** A tree written as an expression. *)
Definition write (e : bexp) : string := render (toks 1 e).

(** The four bounds of [filter] as it applies them, defaults filled in. *)
Definition bounds_of (o : FilterOpts) : R * R * R * R :=
  (default Query.default_tagCountMin (tagCountMin o),
   default Query.default_tagCountMax (tagCountMax o),
   default Query.default_rarityMin (rarityMin o),
   default Query.default_rarityMax (rarityMax o)).

(** A row is inside the four bounds. *)
Definition in_bounds (o : FilterOpts) (r : Row) : Prop :=
  let '(kMin, kMax, rMin, rMax) := bounds_of o in
  kMin <= INR (tag_count r) <= kMax /\ rMin <= sigma_idf r <= rMax.

(** ** Tag sets in the statements *)

(** The distinct tags of a row, as [new Set(row.tags)] holds them. *)
Definition tag_set (r : Row) : list string := JsSet.of_list (tags r).

(** The distinct tags two rows share. *)
Definition shared_tags (a b : Row) : list string :=
  filter (fun t => t ∈ tag_set b) (tag_set a).

(** The options of [tagSimilarity] for a mode, the others at their
    defaults. *)
Definition sim_mode (m : string) : SimOpts :=
  {| mode := m; weightTags := true; idfMul := 1 |}.

(** ** Parts of the store in the statements *)

(** The row [buildStore] makes of a character that is kept. *)
Definition row_of (p : Payload) (c : RawChar) : Row :=
  with_metrics (idf (buildStore p)) (new_row c (row_tags (tag_map p) c)).

(** The rows that carry a tag. *)
Definition carriers (t : string) (rs : list Row) : list Row :=
  filter (fun r => t ∈ tags r) rs.

(** The value of a base-36 digit and of a string of base-36 digits, highest
    digit first. *)
Definition digit_value (c : ascii) : Z :=
  let n := Z.of_nat (nat_of_ascii c) in
  (if n <? 58 then n - 48 else n - 87)%Z.

Fixpoint base36_value (acc : Z) (s : string) : Z :=
  match s with
  | EmptyString => acc
  | String c r => base36_value (acc * 36 + digit_value c)%Z r
  end.

(** The 32-bit value [hashString] writes out. *)
Definition hash_value (s : string) : Z :=
  Hash.to_uint32 (foldl Hash.hash_round 5381%Z (list_ascii_of_string s)).


(** ** Escaping text for HTML *)

(** [s.replace(/c/g, by)], or [s.replaceAll(c, by)], for a pattern of one
    character [c]. *)
Fixpoint replace_char (c : ascii) (by_ : string) (s : string) : string :=
  match s with
  | EmptyString => EmptyString
  | String x r =>
      (if bool_decide (x = c) then by_ else String x EmptyString)
      +:+ replace_char c by_ r
  end.

(** [escapeHTML]: five passes over the text, the ampersand first. *)
Definition escapeHTML (s : string) : string :=
  replace_char "'" "&#39;"
    (replace_char dq "&quot;"
       (replace_char ">" "&gt;"
          (replace_char "<" "&lt;"
             (replace_char "&" "&amp;" s)))).

(** [sanitizeToText(html)]: [escapeHTML(html ?? "")]. *)
Definition sanitizeToText (html : option string) : string :=
  escapeHTML (default EmptyString html).

(** The characters [escapeHTML] rewrites. *)
Definition html_special (c : ascii) : bool :=
  bool_decide (c = "&"%char) || bool_decide (c = "<"%char)
  || bool_decide (c = ">"%char) || bool_decide (c = dq)
  || bool_decide (c = "'"%char).

(** What one character becomes. *)
Definition html_entity (c : ascii) : string :=
  if bool_decide (c = "&"%char) then "&amp;"
  else if bool_decide (c = "<"%char) then "&lt;"
  else if bool_decide (c = ">"%char) then "&gt;"
  else if bool_decide (c = dq) then "&quot;"
  else if bool_decide (c = "'"%char) then "&#39;"
  else String c EmptyString.

Fixpoint escape_each (s : string) : string :=
  match s with
  | EmptyString => EmptyString
  | String c r => html_entity c +:+ escape_each r
  end.

(** A reader of the five entities, the reference the escaping is checked
    against: any other text is left as it is. *)
Fixpoint decode_entities (s : string) : string :=
  match s with
  | EmptyString => EmptyString
  | String c r =>
      if bool_decide (c = "&"%char) then
        match r with
        | String "a" (String "m" (String "p" (String ";" r'))) =>
            String "&" (decode_entities r')
        | String "l" (String "t" (String ";" r')) =>
            String "<" (decode_entities r')
        | String "g" (String "t" (String ";" r')) =>
            String ">" (decode_entities r')
        | String "q" (String "u" (String "o" (String "t" (String ";" r')))) =>
            String dq (decode_entities r')
        | String "#" (String "3" (String "9" (String ";" r'))) =>
            String "'" (decode_entities r')
        | _ => String c (decode_entities r)
        end
      else String c (decode_entities r)
  end.

(** ** The progress bar *)

(** [clamp01] on a number that is not NaN, as a real; [Binary64.clamp01] is
    the function on every number of the code. *)
Definition clamp01 (x : R) : R :=
  if Rltb x 0 then 0 else if Rltb 1 x then 1 else x.

(** [Math.round]: the nearest integer, a half going up. *)
Definition js_round (x : R) : Z := Int_part (x + / 2).

(** The number [setProgress(p, msg)] writes in front of [%] as the width of
    the bar. *)
Definition progress_percent (p : R) : Z := js_round (clamp01 p * 100).

(** ** Edit distance and common subsequences *)

Local Close Scope R_scope.

(** A matrix of numbers, an array of rows.  A cell that was never written
    holds [null] or [0], which the arithmetic of the code reads as [0]; every
    index the two functions below use is inside the matrix. *)
Definition matrix_get (m : list (list nat)) (j i : nat) : nat :=
  default 0%nat (m !! j ≫= (.!! i)).

Definition matrix_set (m : list (list nat)) (j i v : nat) : list (list nat) :=
  alter (<[i := v]>) j m.

(** The code units of a string; [s[i]] is [chars s !! i]. *)
Definition chars (s : string) : list ascii := list_ascii_of_string s.

(** [levenshteinDistance(a, b)]. *)
Definition levenshteinDistance (a b : string) : nat :=
  let la := String.length a in
  let lb := String.length b in
  let matrix := replicate (lb + 1) (replicate (la + 1) 0%nat) in
  let matrix := foldl (fun m i => matrix_set m 0 i i) matrix (seq 0 (la + 1)) in
  let matrix := foldl (fun m j => matrix_set m j 0 j) matrix (seq 0 (lb + 1)) in
  let matrix :=
    foldl (fun m j =>
             foldl (fun m i =>
                      let cost :=
                        if bool_decide (chars a !! (i - 1) = chars b !! (j - 1))
                        then 0%nat else 1%nat in
                      matrix_set m j i
                        (Nat.min
                           (Nat.min (matrix_get m j (i - 1) + 1)
                                    (matrix_get m (j - 1) i + 1))
                           (matrix_get m (j - 1) (i - 1) + cost)))
                   m (seq 1 la))
          matrix (seq 1 lb) in
  matrix_get matrix lb la.

(** [longestCommonSubsequence(a, b)]. *)
Definition longestCommonSubsequence (a b : string) : nat :=
  let m := String.length a in
  let n := String.length b in
  let dp := replicate (m + 1) (replicate (n + 1) 0%nat) in
  let dp :=
    foldl (fun dp i =>
             foldl (fun dp j =>
                      if bool_decide (chars a !! (i - 1) = chars b !! (j - 1))
                      then matrix_set dp i j (matrix_get dp (i - 1) (j - 1) + 1)
                      else matrix_set dp i j
                             (Nat.max (matrix_get dp (i - 1) j)
                                      (matrix_get dp i (j - 1))))
                   dp (seq 1 n))
          dp (seq 1 m) in
  matrix_get dp m n.

(** The edit distance of two lists of characters by its recurrence, the
    reference the matrix is checked against. *)
Fixpoint edit (s : list ascii) : list ascii -> nat :=
  fix inner (t : list ascii) : nat :=
    match s, t with
    | [], _ => length t
    | _, [] => length s
    | x :: s', y :: t' =>
        Nat.min (Nat.min (edit s' t + 1) (inner t' + 1))
                (edit s' t' + (if bool_decide (x = y) then 0 else 1))%nat
    end.

(** The length of a longest common subsequence by its recurrence. *)
Fixpoint lcs_length (s : list ascii) : list ascii -> nat :=
  fix inner (t : list ascii) : nat :=
    match s, t with
    | [], _ => 0%nat
    | _, [] => 0%nat
    | x :: s', y :: t' =>
        if bool_decide (x = y) then (lcs_length s' t' + 1)%nat
        else Nat.max (lcs_length s' t) (inner t')
    end.

(** A matrix of [rows] rows of [cols] cells. *)
Definition dims (m : list (list nat)) (rows cols : nat) : Prop :=
  length m = rows /\ Forall (fun r => length r = cols) m.

Local Open Scope R_scope.

(** [levenshteinSimilarity(a, b)]. *)
Definition levenshteinSimilarity (a b : string) : R :=
  let maxLen := Nat.max (String.length a) (String.length b) in
  if (maxLen =? 0)%nat then 1
  else 1 - INR (levenshteinDistance a b) / INR maxLen.

(** [lcsSimilarity(a, b)]. *)
Definition lcsSimilarity (a b : string) : R :=
  let lcs := longestCommonSubsequence a b in
  let maxLen := Nat.max (String.length a) (String.length b) in
  if (maxLen =? 0)%nat then 1 else INR lcs / INR maxLen.

(** ** The text index *)

(** [String(s).toLowerCase().split(/[^\p{L}\p{N}]+/u).filter(Boolean)]: on
    ASCII text the letters and digits of Unicode are the ASCII ones, so the
    words are the runs of letters and digits of the lower-cased text. *)
Definition words (s : string) : list string := tokens_of s.

(** [l.join(" ")]. *)
Fixpoint join_space (l : list string) : string :=
  match l with
  | [] => EmptyString
  | [x] => x
  | x :: r => x +:+ " " +:+ join_space r
  end.

(** The inner loop of [tokenizeText] for one [n]:
    [for (i = 0; i + n <= toks.length; i++) out.push(toks.slice(i, i + n).join(" "))]. *)
Definition ngrams (n : nat) (toks : list string) : list string :=
  map (fun i => join_space (take n (drop i toks)))
      (seq 0 (length toks + 1 - n)).

(** [tokenizeText(s, { minN, maxN })]. *)
Definition tokenizeText (s : string) (minN maxN : nat) : list string :=
  flat_map (fun n => ngrams n (words s)) (seq minN (maxN + 1 - minN)).

Definition STOPWORDS : list string :=
  ["a"; "an"; "the"; "and"; "or"; "but"; "if"; "to"; "in"; "on"; "with";
   "for"; "of"; "at"; "by"; "from"; "up"; "out"; "over"; "under"; "then";
   "so"; "than"; "too"; "very"; "can"; "will"; "just"; "is"; "are"; "was";
   "were"; "be"; "been"; "being"; "have"; "has"; "had"; "do"; "does"; "did";
   "i"; "you"; "he"; "she"; "it"; "we"; "they"; "them"; "this"; "that";
   "these"; "those"].

(** The loop of [tokenizeForIndex] over the words: the word itself unless it
    is a stop word, then the bigram with the next word unless one of the two
    is a stop word. *)
Fixpoint index_grams (raw : list string) : list string :=
  match raw with
  | [] => []
  | w1 :: rest =>
      (if JsSet.has STOPWORDS w1 then [] else [w1])
      ++ match rest with
         | w2 :: _ =>
             if negb (JsSet.has STOPWORDS w1) && negb (JsSet.has STOPWORDS w2)
             then [w1 +:+ " " +:+ w2] else []
         | [] => []
         end
      ++ index_grams rest
  end.

Definition tokenizeForIndex (text : string) : list string :=
  index_grams (words text).

(** What [buildTextIndex] reads of a row: its id and its two texts, each
    [""] where the row has none. *)
Record TextRow : Type := {
  t_id : string;
  creator_notes : string;
  description : string
}.

(** A document of the first pass: [{ id, tf, len }]. *)
Record TextDoc : Type := {
  doc_id : string;
  doc_tf : list (string * nat);
  doc_len : nat
}.

(** The index: [{ idf, vecs, built, docs, vocabSize }]. *)
Record TextIndex : Type := {
  ti_idf : list (string * R);
  ti_vecs : list (string * list (string * R));
  ti_built : bool;
  ti_docs : nat;
  ti_vocabSize : nat
}.

(** [for (const t of toks) tf.set(t, (tf.get(t) || 0) + 1)]. *)
Definition count_terms (toks : list string) : list (string * nat) :=
  foldl (fun tf t => JsMap.set tf t (default 0 (JsMap.get tf t) + 1)%nat)
        [] toks.

(** The loop over the keys of [tf] that updates the document frequencies;
    [seen] is the set of the loop. *)
Definition bump_df (st : list string * list (string * nat)) (t : string)
  : list string * list (string * nat) :=
  let '(seen, df) := st in
  if JsSet.has seen t then st
  else (JsSet.add seen t, JsMap.set df t (default 0 (JsMap.get df t) + 1)%nat).

(** One turn of the first pass. *)
Definition scan_row
    (st : list (string * nat) * list TextDoc * nat) (r : TextRow)
  : list (string * nat) * list TextDoc * nat :=
  let '(df, docs, totalLen) := st in
  let notes := creator_notes r in
  let desc := description r in
  let weighted := trim (notes +:+ " " +:+ notes +:+ " " +:+ desc +:+ " " +:+ desc) in
  let toks := tokenizeForIndex weighted in
  let tf := count_terms toks in
  let '(_, df') := foldl bump_df ([], df) (map fst tf) in
  (df', docs ++ [{| doc_id := t_id r; doc_tf := tf; doc_len := length toks |}],
   (totalLen + length toks)%nat).

(** The second pass: the IDF of the terms that pass the two cut-offs. *)
Definition text_idf (N : nat) (df : list (string * nat))
  : list (string * R) :=
  foldl (fun idf '(t, dfi) =>
           if (dfi <=? 1)%nat then idf
           else if Rltb (1 / 100) (INR dfi / INR N) then idf
           else JsMap.set idf t
                  (ln (1 + (INR N - INR dfi + 1 / 2) / (INR dfi + 1 / 2))))
        [] df.

(** The BM25 vector of a document. *)
Definition bm25_vector (idf : list (string * R)) (avgdl : R) (d : TextDoc)
  : list (string * R) :=
  let k1 := 3 / 2 in
  let b := 3 / 4 in
  foldl (fun m '(t, f) =>
           match JsMap.get idf t with
           | None => m
           | Some itf =>
               if is_zero itf then m
               else
                 let denom := INR f + k1 * (1 - b + b * (INR (doc_len d) / avgdl)) in
                 let w := itf * (INR f * (k1 + 1)) / denom in
                 JsMap.set m t w
           end) [] (doc_tf d).

(** The index built from the rows. *)
Definition fresh_text_index (rows : list TextRow) : TextIndex :=
  let '(df, docs, totalLen) := foldl scan_row ([], [], 0%nat) rows in
  let N := Nat.max 1 (length docs) in
  let idf := text_idf N df in
  let avgdl := INR totalLen / INR N in
  let vecs :=
    foldl (fun vecs d => JsMap.set vecs (doc_id d) (bm25_vector idf avgdl d))
          [] docs in
  {| ti_idf := idf; ti_vecs := vecs; ti_built := true; ti_docs := N;
     ti_vocabSize := JsMap.size idf |}.

(** [buildTextIndex(store)] on a store with the rows [rows] whose
    [textIndex], if it has one, is [cached]: an index that is marked as
    built is returned as it is. *)
Definition buildTextIndex (cached : option TextIndex) (rows : list TextRow)
  : TextIndex :=
  match cached with
  | Some ti => if ti_built ti then ti else fresh_text_index rows
  | None => fresh_text_index rows
  end.

(** ** Binary64 numbers

    Where rounding, NaN or an infinity decides a property, the function is
    embedded a second time with the numbers of the code: binary64 floats,
    with [+], [-], [*], [/] and [Math.sqrt] rounded to nearest.  The
    definitions are those above with [float] for [R].  Numbers that count
    (a [size], [inter], [diff]) stay whole numbers: they are far below
    [2^53], where binary64 is exact on them.  [Math.log] is no operation of
    the format and is a parameter, [log]. *)

Module Binary64.

(** A whole number from [0] to [2^53] as a float. *)
Definition of_int (z : Z) : float := of_uint63 (Uint63.of_Z z).

Definition of_nat (n : nat) : float := of_int (Z.of_nat n).

(** [!x] for a number: [0], [-0] and [NaN] are the falsy ones. *)
Definition falsy (x : float) : bool := (x =? 0)%float || is_nan x.

(** [x || d] for a number or [undefined]. *)
Definition num_or (x : option float) (d : float) : float :=
  match x with
  | Some v => if falsy v then d else v
  | None => d
  end.

(** [Math.log((N + 1) / (df + 1)) + 1]. *)
Definition idf_weight (log : float -> float) (N df : nat) : float :=
  (log (of_nat (N + 1) / of_nat (df + 1)) + 1)%float.

(** [computeIdf]. *)
Definition computeIdf (log : float -> float) (tagToDf : gmap string nat)
    (totalDocs : nat) : gmap string float :=
  let N := totalDocs in
  map_fold (fun tag df idf => <[tag := idf_weight log N df]> idf) ∅ tagToDf.

(** The [idf] of the store that [buildStore] builds: the normalisation loop
    and the index loops as above, then [computeIdf]. *)
Definition built_idf (log : float -> float) (payload : Payload)
  : gmap string float :=
  let '(_, rows0) :=
    foldl (add_character (row_tags (tag_map payload))) (∅, [])
          (characters payload) in
  let '(_, tagToDf) := foldl index_row (∅, ∅) rows0 in
  computeIdf log tagToDf (length rows0).

(** [cosineSimSparse(ma, mb)]. *)
Definition cosineSimSparse (ma mb : option (list (string * float))) : float :=
  match ma, mb with
  | Some ma, Some mb =>
      let na := foldl (fun na v => (na + v * v)%float) 0%float
                      (JsMap.values ma) in
      let nb := foldl (fun nb v => (nb + v * v)%float) 0%float
                      (JsMap.values mb) in
      let '(small, big) :=
        if (JsMap.size ma <? JsMap.size mb)%nat then (ma, mb) else (mb, ma) in
      let dot :=
        foldl (fun dot '(k, va) =>
                 match JsMap.get big k with
                 | Some vb => if falsy vb then dot else (dot + va * vb)%float
                 | None => dot
                 end) 0%float small in
      if falsy dot || falsy na || falsy nb then 0%float
      else (dot / PrimFloat.sqrt (na * nb))%float
  | _, _ => 0%float
  end.

(** [weightTags ? (store.idf[t] || 1) : 1]. *)
Definition tag_weight (idf : gmap string float) (weightTags : bool)
    (t : string) : float :=
  if weightTags then num_or (idf !! t) 1%float else 1%float.

Definition tag_vector (idf : gmap string float) (weightTags : bool)
    (A : list string) : list (string * float) :=
  foldl (fun w t => JsMap.set w t (tag_weight idf weightTags t)) [] A.

(** [S.has(t) ? 1 : 0]. *)
Definition indicator (S : list string) (t : string) : Z :=
  if JsSet.has S t then 1%Z else 0%Z.

(** [tagSimilarity(a, b, { mode, weightTags, idfMul })] for a store with
    the IDF table [idf] and two rows with the tags [ta] and [tb].  The sums
    [dist] of [manhattan] and [euclidean] add [0] or [1] at each tag and are
    whole numbers. *)
Definition tagSimilarity (idf : gmap string float) (ta tb : list string)
    (mode : string) (weightTags : bool) (idfMul : float) : float :=
  let A := JsSet.of_list ta in
  let B := JsSet.of_list tb in
  if bool_decide (mode = "none") then 0%float
  else if bool_decide (mode = "overlap") then
    foldl (fun s t =>
             if negb (JsSet.has B t) then s
             else if weightTags
                  then (s + (1 + num_or (idf !! t) 0 * (idfMul - 1)))%float
                  else (s + 1)%float) 0%float A
  else if bool_decide (mode = "jaccard") then
    let uni := JsSet.size (JsSet.of_list (A ++ B)) in
    let inter := Query.count_inter A B in
    if (uni =? 0)%nat then 0%float else (of_nat inter / of_nat uni)%float
  else if bool_decide (mode = "dice") then
    let inter := Query.count_inter A B in
    let total := (JsSet.size A + JsSet.size B)%nat in
    if (total =? 0)%nat then 0%float
    else (of_nat (2 * inter) / of_nat total)%float
  else if bool_decide (mode = "tanimoto") then
    let uni := JsSet.size (JsSet.of_list (A ++ B)) in
    let inter := Query.count_inter A B in
    if (uni =? 0)%nat then 0%float else (of_nat inter / of_nat uni)%float
  else if bool_decide (mode = "ochiai") then
    let inter := Query.count_inter A B in
    let denom := PrimFloat.sqrt (of_nat (JsSet.size A * JsSet.size B)) in
    if falsy denom then 0%float else (of_nat inter / denom)%float
  else if bool_decide (mode = "simpson") then
    let inter := Query.count_inter A B in
    let minSize := Nat.min (JsSet.size A) (JsSet.size B) in
    if (minSize =? 0)%nat then 0%float
    else (of_nat inter / of_nat minSize)%float
  else if bool_decide (mode = "braun-blanquet") then
    let inter := Query.count_inter A B in
    let maxSize := Nat.max (JsSet.size A) (JsSet.size B) in
    if (maxSize =? 0)%nat then 0%float
    else (of_nat inter / of_nat maxSize)%float
  else if bool_decide (mode = "hamming") then
    let union := JsSet.of_list (A ++ B) in
    let diff :=
      foldl (fun diff t =>
               if negb (Bool.eqb (JsSet.has A t) (JsSet.has B t))
               then S diff else diff) 0%nat union in
    if (JsSet.size union =? 0)%nat then 1%float
    else (1 - of_nat diff / of_nat (JsSet.size union))%float
  else if bool_decide (mode = "manhattan") then
    let union := JsSet.of_list (A ++ B) in
    let dist :=
      foldl (fun dist t => (dist + Z.abs (indicator A t - indicator B t))%Z)
            0%Z union in
    if (JsSet.size union =? 0)%nat then 1%float
    else (1 - of_int dist / of_nat (JsSet.size union))%float
  else if bool_decide (mode = "euclidean") then
    let union := JsSet.of_list (A ++ B) in
    let dist :=
      foldl (fun dist t => (dist + (indicator A t - indicator B t) ^ 2)%Z)
            0%Z union in
    let maxDist := PrimFloat.sqrt (of_nat (JsSet.size union)) in
    if falsy maxDist then 1%float
    else (1 - PrimFloat.sqrt (of_int dist) / maxDist)%float
  else
    let wa := tag_vector idf weightTags A in
    let wb := tag_vector idf weightTags B in
    cosineSimSparse (Some wa) (Some wb).

(** [clamp01]. *)
Definition clamp01 (x : float) : float :=
  if (x <? 0)%float then 0%float else if (1 <? x)%float then 1%float else x.

(** [Math.round(x)] for a finite [x]: the whole number nearest to [x], the
    larger of the two at a tie.  [None] for NaN and the infinities, which
    [Math.round] returns as they are. *)
Definition round (x : float) : option Z :=
  match Prim2SF x with
  | S754_zero _ => Some 0%Z
  | S754_finite s m e =>
      let n := if s then Z.neg m else Z.pos m in
      Some (if (0 <=? e)%Z then (n * 2 ^ e)%Z
            else ((2 * n + 2 ^ (- e)) / 2 ^ (1 - e))%Z)
  | _ => None
  end.

(** The width [setProgress(p, msg)] gives the bar:
    [`${Math.round(clamp01(p)*100)}%`]. *)
Definition progress_width (p : float) : string :=
  let x := (clamp01 p * 100)%float in
  match round x with
  | Some n => pretty n +:+ "%"
  | None =>
      if is_nan x then "NaN%"
      else if (x <? 0)%float then "-Infinity%" else "Infinity%"
  end.

(** The progress that the first phase of the n-gram scan of [ui-wire.js]
    reports after [i] of [total] rows: [0.02 + 0.48 * (i / total)]. *)
Definition scan_progress (i total : nat) : float :=
  (0x1.47ae147ae147bp-6 + 0x1.eb851eb851eb8p-2 * (of_nat i / of_nat total))%float.

End Binary64.

(** [Math.log] at [1], [2] and [4], the arguments that the corpus below
    reaches: [0], [0.6931471805599453] and [1.3862943611198906]. *)
Definition log_at (x : float) : float :=
  if (x =? 1)%float then 0%float
  else if (x =? 2)%float then 0x1.62e42fefa39efp-1%float
  else if (x =? 4)%float then 0x1.62e42fefa39efp+0%float
  else nan.

(** A corpus of eleven documents in which the tag [x] has document frequency
    [2] and the tags [y], [z] and [t] have document frequency [5], so that
    their IDF weights are [Math.log(4) + 1] and [Math.log(2) + 1]. *)
Definition rounding_corpus : Payload :=
  {| characters :=
       [scenario_char "1" ["x"; "y"; "z"; "t"];
        scenario_char "2" ["y"; "z"; "t"; "x"];
        scenario_char "3" ["y"; "z"; "t"];
        scenario_char "4" ["y"; "z"; "t"];
        scenario_char "5" ["y"; "z"; "t"];
        scenario_char "6" []; scenario_char "7" []; scenario_char "8" [];
        scenario_char "9" []; scenario_char "10" []; scenario_char "11" []];
     tag_map := ∅ |}.

Definition rounding_idf : gmap string float :=
  Binary64.built_idf log_at rounding_corpus.

(** The tags of the first two documents of that corpus. *)
Definition rounding_tags_1 : list string := ["x"; "y"; "z"; "t"].
Definition rounding_tags_2 : list string := ["y"; "z"; "t"; "x"].

(** Their tag vectors under the IDF-weighted cosine. *)
Definition rounding_vector_1 : list (string * float) :=
  Binary64.tag_vector rounding_idf true rounding_tags_1.
Definition rounding_vector_2 : list (string * float) :=
  Binary64.tag_vector rounding_idf true rounding_tags_2.

(** A vector with the one entry [1e200]. *)
Definition large_vector : list (string * float) :=
  [("a", 0x1.4e718d7d7625ap+664%float)].

(** ** Capacities of the engine *)




(** ** The weighted cosine of the specification *)

(** The cosine of two tag sets under a weighting [w] of the tags: the
    squared weights of the shared tags, over the root of the product of the
    sums of the squared weights of each set. *)
Definition weighted_cosine (w : string -> R) (A B : list string) : R :=
  rsum (fun t => w t * w t) (filter (fun t => t ∈ B) A)
  / sqrt (rsum (fun t => w t * w t) A * rsum (fun t => w t * w t) B).

(** The IDF weight of a tag in a corpus: [Math.log((N + 1) / (df + 1)) + 1]
    for the number [N] of rows and the number [df] of rows with the tag. *)
Definition corpus_weight (rs : list Row) (t : string) : R :=
  idf_weight (length rs) (doc_freq t rs).

(** ** Terms and their frequencies in the statements *)

(** The terms of a row in the text index: the index tokens of its notes and
    its description, each taken twice. *)
Definition row_terms (r : TextRow) : list string :=
  tokenizeForIndex
    (trim (creator_notes r +:+ " " +:+ creator_notes r +:+ " "
           +:+ description r +:+ " " +:+ description r)).

(** The number of rows in which a term occurs. *)
Definition text_df (t : string) (rows : list TextRow) : nat :=
  length (filter (fun r => t ∈ row_terms r) rows).

(** The IDF of the text index for a term in [d] of [N] rows:
    [Math.log(1 + (N - d + 0.5) / (d + 0.5))]. *)
Definition text_weight (N d : nat) : R :=
  ln (1 + (INR N - INR d + 1 / 2) / (INR d + 1 / 2)).

(** * Properties *)

Local Close Scope R_scope.

(** ** Strings *)

Section StringFacts.

Lemma append_cons (c : ascii) (s t : string) :
  String c s +:+ t = String c (s +:+ t).
Proof. reflexivity. Qed.

Lemma append_nil_l (s : string) : EmptyString +:+ s = s.
Proof. reflexivity. Qed.

Lemma append_nil_r (s : string) : s +:+ EmptyString = s.
Proof.
  induction s as [|c s IH]; [done|].
  by rewrite append_cons, IH.
Qed.

Lemma append_assoc (s1 s2 s3 : string) :
  (s1 +:+ s2) +:+ s3 = s1 +:+ (s2 +:+ s3).
Proof.
  induction s1 as [|c s1 IH]; [done|].
  by rewrite !append_cons, IH.
Qed.

Lemma all_chars_app (p : ascii -> bool) (s1 s2 : string) :
  all_chars p (s1 +:+ s2) = all_chars p s1 && all_chars p s2.
Proof.
  induction s1 as [|c s1 IH]; [done|].
  rewrite append_cons. simpl. by rewrite IH, andb_assoc.
Qed.

Lemma trimStart_spaces (s : string) :
  all_chars is_space s = true -> trimStart s = EmptyString.
Proof.
  induction s as [|c s IH]; simpl; [done|].
  intros [Hc Hs]%andb_true_iff. rewrite Hc. auto.
Qed.

Lemma trim_spaces (s : string) :
  all_chars is_space s = true -> trim s = EmptyString.
Proof. intros H. unfold trim. by rewrite trimStart_spaces. Qed.

Lemma trimEnd_solid (s : string) :
  all_chars (fun c => negb (is_space c)) s = true -> trimEnd s = s.
Proof.
  induction s as [|c s IH]; simpl; [done|].
  intros [Hc Hs]%andb_true_iff. rewrite (IH Hs).
  destruct s; [|done].
  by destruct (is_space c).
Qed.

Lemma trimEnd_app_solid (s1 s2 : string) :
  s2 <> EmptyString ->
  all_chars (fun c => negb (is_space c)) s2 = true ->
  trimEnd (s1 +:+ s2) = s1 +:+ s2.
Proof.
  intros Hne Hs2. induction s1 as [|c s1 IH].
  - by apply trimEnd_solid.
  - rewrite append_cons. simpl. rewrite IH.
    destruct (s1 +:+ s2) eqn:E; [|done].
    destruct s1; [done | discriminate].
Qed.

(** Trimming changes nothing between a first character that is no white
    space and a last word without white space. *)
Lemma trim_solid_ends (c : ascii) (s1 s2 : string) :
  is_space c = false ->
  s2 <> EmptyString ->
  all_chars (fun c => negb (is_space c)) s2 = true ->
  trim (String c (s1 +:+ s2)) = String c (s1 +:+ s2).
Proof.
  intros Hc Hne Hs2. unfold trim. simpl trimStart. rewrite Hc.
  rewrite <- append_cons.
  by apply trimEnd_app_solid.
Qed.

End StringFacts.

(** ** Normal forms of tags *)

Section Normalisation.

Lemma is_space_lower (c : ascii) : is_space (lower_char c) = is_space c.
Proof. by destruct c as [[] [] [] [] [] [] [] []]. Qed.

Lemma lower_char_idem (c : ascii) : lower_char (lower_char c) = lower_char c.
Proof. by destruct c as [[] [] [] [] [] [] [] []]. Qed.

Lemma toLowerCase_idem (s : string) :
  toLowerCase (toLowerCase s) = toLowerCase s.
Proof.
  induction s as [|c s IH]; [done|].
  unfold toLowerCase in *. simpl. by rewrite lower_char_idem, IH.
Qed.

Lemma trimStart_lower (s : string) :
  trimStart (toLowerCase s) = toLowerCase (trimStart s).
Proof.
  induction s as [|c s IH]; [done|].
  unfold toLowerCase in *. simpl. rewrite is_space_lower.
  by destruct (is_space c).
Qed.

Lemma trimEnd_lower (s : string) :
  trimEnd (toLowerCase s) = toLowerCase (trimEnd s).
Proof.
  induction s as [|c s IH]; [done|].
  unfold toLowerCase in *. simpl. rewrite IH, is_space_lower.
  destruct (trimEnd s); simpl; [by destruct (is_space c) | done].
Qed.

Lemma trim_lower (s : string) : trim (toLowerCase s) = toLowerCase (trim s).
Proof. unfold trim. by rewrite trimStart_lower, trimEnd_lower. Qed.

Lemma trimStart_first (s : string) :
  trimStart s = EmptyString \/ first_solid (trimStart s) = true.
Proof.
  induction s as [|c s IH]; simpl; [by left|].
  destruct (is_space c) eqn:E; [done|]. right. simpl. by rewrite E.
Qed.

Lemma trimEnd_first (s : string) :
  first_solid s = true -> first_solid (trimEnd s) = true.
Proof.
  destruct s as [|c s]; [done|]. simpl. intros Hc.
  apply negb_true_iff in Hc. rewrite Hc.
  destruct (trimEnd s); simpl; by rewrite Hc.
Qed.

Lemma trimStart_solid (s : string) :
  first_solid s = true -> trimStart s = s.
Proof.
  destruct s as [|c s]; [done|]. simpl. intros Hc.
  apply negb_true_iff in Hc. by rewrite Hc.
Qed.

Lemma trimEnd_idem (s : string) : trimEnd (trimEnd s) = trimEnd s.
Proof.
  induction s as [|c s IH]; [done|]. simpl.
  destruct (trimEnd s) as [|d e] eqn:E.
  - destruct (is_space c) eqn:Ec; [done|]. simpl. by rewrite Ec.
  - simpl in *. by rewrite IH.
Qed.

Lemma trim_idem (s : string) : trim (trim s) = trim s.
Proof.
  unfold trim. destruct (trimStart_first s) as [E|E].
  - by rewrite E.
  - rewrite (trimStart_solid (trimEnd _)) by by apply trimEnd_first.
    apply trimEnd_idem.
Qed.

Lemma normalizeTag_idem (t : string) :
  normalizeTag (normalizeTag t) = normalizeTag t.
Proof.
  unfold normalizeTag. by rewrite trim_lower, trim_idem, toLowerCase_idem.
Qed.

Lemma truthy_true (s : string) : truthy s = true <-> s <> EmptyString.
Proof. by destruct s. Qed.

End Normalisation.

(** ** The tokenizer *)

Section Tokenizer.

#[local] Arguments String.append !_ _ / : simpl nomatch.

(** The tokenizer loop, with its inner loops named. *)
Lemma tokenize_cons (ch : ascii) (rest : string) :
  tokenize (String ch rest) =
    if is_space ch then tokenize rest
    else if is_quote ch then
      let '(buf, r) := scan_quoted ch EmptyString rest in
      TTag (normalizeTag buf) :: tokenize r
    else if is_paren ch then paren_token ch :: tokenize rest
    else if is_opchar ch then opchar_token ch :: tokenize rest
    else
      let '(w, r) := scan_word (String ch EmptyString) rest in
      word_token w :: tokenize r.
Proof.
  simpl. destruct (is_space ch); [done|].
  destruct (is_quote ch).
  - match goal with
    | |- ?f EmptyString rest = _ =>
        enough (H : forall buf, f buf rest =
                  let '(b, r) := scan_quoted ch buf rest in
                  TTag (normalizeTag b) :: tokenize r) by apply H
    end.
    induction rest as [|c r IH]; intros buf; simpl; [done|].
    destruct (bool_decide (c = ch)); [done | apply IH].
  - destruct (is_paren ch); [done|].
    destruct (is_opchar ch); [done|].
    match goal with
    | |- ?f (String ch EmptyString) rest = _ =>
        enough (H : forall w, f w rest =
                  let '(w', r) := scan_word w rest in
                  word_token w' :: tokenize r) by apply H
    end.
    induction rest as [|c r IH]; intros w; [done|].
    simpl scan_word. destruct (is_delim c) eqn:E; [done | apply IH].
Qed.

Lemma scan_word_app (w1 w2 rest : string) :
  all_chars (fun c => negb (is_delim c)) w2 = true ->
  ends_word rest = true ->
  scan_word w1 (w2 +:+ rest) = (w1 +:+ w2, rest).
Proof.
  intros Hw Hrest. revert w1.
  induction w2 as [|c w2 IH]; intros w1.
  - rewrite append_nil_l, append_nil_r.
    destruct rest as [|c r]; [done|].
    simpl in *. by rewrite Hrest.
  - simpl in Hw. apply andb_true_iff in Hw as [Hc Hw].
    rewrite append_cons. simpl scan_word.
    apply negb_true_iff in Hc. rewrite Hc, (IH Hw).
    by rewrite append_assoc.
Qed.

Lemma scan_quoted_app (q : ascii) (buf p rest : string) :
  all_chars (fun c => negb (bool_decide (c = q))) p = true ->
  scan_quoted q buf (p +:+ String q rest) = (buf +:+ p, rest).
Proof.
  intros Hp. revert buf.
  induction p as [|c p IH]; intros buf.
  - rewrite append_nil_l, append_nil_r. simpl.
    by rewrite bool_decide_eq_true_2.
  - simpl in Hp. apply andb_true_iff in Hp as [Hc Hp].
    rewrite append_cons. simpl scan_quoted.
    apply negb_true_iff in Hc. rewrite Hc, (IH Hp).
    by rewrite append_assoc.
Qed.

Lemma not_delim (c : ascii) :
  is_delim c = false ->
  is_space c = false /\ is_paren c = false /\ is_opchar c = false.
Proof.
  unfold is_delim. intros H.
  apply orb_false_iff in H as [H ?]. apply orb_false_iff in H as [? ?].
  done.
Qed.

(** A bare word in front of the input becomes one token. *)
Lemma tokenize_word_then (w rest : string) :
  bare_word w = true -> ends_word rest = true ->
  tokenize (w +:+ rest) = word_token w :: tokenize rest.
Proof.
  unfold bare_word. intros [Hq Hw]%andb_true_iff Hrest.
  destruct w as [|c w]; [done|].
  simpl in Hw. apply andb_true_iff in Hw as [Hc Hw].
  apply negb_true_iff in Hq, Hc.
  destruct (not_delim c Hc) as (Hs & Hp & Ho).
  rewrite append_cons, tokenize_cons, Hs, Hq, Hp, Ho.
  by rewrite (scan_word_app _ _ _ Hw Hrest).
Qed.

Lemma tokenize_word_last (w : string) :
  bare_word w = true -> tokenize w = [word_token w].
Proof.
  intros Hw. rewrite <- (append_nil_r w) at 1.
  by rewrite tokenize_word_then.
Qed.

(** A quoted phrase in front of the input becomes one tag literal. *)
Lemma tokenize_quoted_then (p rest : string) :
  quote_free p = true ->
  tokenize (String dq (p +:+ String dq rest))
  = TTag (normalizeTag p) :: tokenize rest.
Proof.
  intros Hp. rewrite tokenize_cons.
  change (is_space dq) with false. change (is_quote dq) with true.
  cbv iota. by rewrite (scan_quoted_app _ _ _ _ Hp).
Qed.

Lemma word_token_tag (w : string) :
  bare_tag w = true -> word_token w = TTag (normalizeTag w).
Proof.
  unfold bare_tag, is_keyword, word_token.
  intros [_ Hk]%andb_true_iff. apply negb_true_iff in Hk.
  apply orb_false_iff in Hk as [Hk Hn]. apply orb_false_iff in Hk as [Ha Ho].
  by rewrite Ha, Ho, Hn.
Qed.

Lemma bare_tag_word (w : string) : bare_tag w = true -> bare_word w = true.
Proof. by intros [? _]%andb_true_iff. Qed.

Lemma bare_word_solid (w : string) :
  bare_word w = true ->
  w <> EmptyString /\ all_chars (fun c => negb (is_space c)) w = true.
Proof.
  unfold bare_word. intros [Hq Hw]%andb_true_iff.
  split; [by destruct w|].
  clear Hq. induction w as [|c w IH]; [done|].
  simpl in *. apply andb_true_iff in Hw as [Hc Hw].
  apply negb_true_iff, not_delim in Hc as (-> & _).
  by rewrite IH.
Qed.

End Tokenizer.

(** ** Parsing the expressions of the specification *)

Section ParseShapes.

#[local] Arguments String.append !_ _ / : simpl nomatch.

Lemma first_solid_app (x y : string) :
  first_solid x = true -> first_solid (x +:+ y) = true.
Proof. by destruct x. Qed.

Lemma bare_first_solid (w : string) :
  bare_word w = true -> first_solid w = true.
Proof.
  unfold bare_word. intros [Hq Hw]%andb_true_iff.
  destruct w as [|c w]; [done|]. simpl in *.
  apply andb_true_iff in Hw as [Hc _].
  by apply negb_true_iff, not_delim in Hc as (-> & _).
Qed.

(** An expression that starts with a solid character and ends with a bare
    word is its own trimmed form. *)
Lemma trim_expr (x b : string) :
  first_solid x = true -> bare_word b = true -> trim (x +:+ b) = x +:+ b.
Proof.
  intros Hx [Hne Hb]%bare_word_solid.
  destruct x as [|c x]; [done|]. simpl in Hx. apply negb_true_iff in Hx.
  rewrite append_cons. by apply trim_solid_ends.
Qed.

(** On such an input [parseBoolExpr] takes the parsing branch. *)
Lemma parse_plan (s : string) :
  trim s = s -> first_solid s = true ->
  parseBoolExpr s
  = BoolExpr.mk (Some (shunting_yard (tokenize s)))
                (eval_postfix (shunting_yard (tokenize s))).
Proof.
  intros Ht Hs. unfold parseBoolExpr. rewrite Ht. by destruct s.
Qed.

Lemma parse_blank (ws : string) :
  all_chars is_space ws = true ->
  parseBoolExpr ws = BoolExpr.mk None (fun _ => true).
Proof. intros H. unfold parseBoolExpr. by rewrite trim_spaces. Qed.

Lemma tokenize_space (r : string) : tokenize (String " " r) = tokenize r.
Proof. by rewrite tokenize_cons. Qed.

Lemma tokenize_lparen (r : string) :
  tokenize (String "(" r) = TLParen :: tokenize r.
Proof. by rewrite tokenize_cons. Qed.

Lemma tokenize_rparen (r : string) :
  tokenize (String ")" r) = TRParen :: tokenize r.
Proof. by rewrite tokenize_cons. Qed.

(** An operator word between two blanks. *)
Lemma tokenize_infix (kw r : string) :
  bare_word kw = true ->
  tokenize (String " " (kw +:+ String " " r)) = word_token kw :: tokenize r.
Proof.
  intros Hkw. rewrite tokenize_space, tokenize_word_then by done.
  by rewrite tokenize_space.
Qed.

Section Shapes.
Variables a b c : string.
Hypothesis Ha : bare_tag a = true.
Hypothesis Hb : bare_tag b = true.
Hypothesis Hc : bare_tag c = true.

Let Ha' := bare_tag_word a Ha.
Let Hb' := bare_tag_word b Hb.
Let Hc' := bare_tag_word c Hc.

Lemma tokens_binary (kw : string) :
  bare_word kw = true ->
  tokenize (a +:+ String " " (kw +:+ String " " b))
  = [TTag (normalizeTag a); word_token kw; TTag (normalizeTag b)].
Proof.
  intros Hkw.
  rewrite tokenize_word_then, tokenize_infix, tokenize_word_last by done.
  by rewrite (word_token_tag a), (word_token_tag b).
Qed.

Lemma plan_and :
  parseBoolExpr (a +:+ " AND " +:+ b)
  = let out := [TTag (normalizeTag a); TTag (normalizeTag b); TAnd] in
    BoolExpr.mk (Some out) (eval_postfix out).
Proof.
  rewrite parse_plan.
  - change (" AND " +:+ b) with (String " " ("AND" +:+ String " " b)).
    by rewrite tokens_binary.
  - rewrite <- append_assoc.
    apply trim_expr; [by apply first_solid_app, bare_first_solid | done].
  - by apply first_solid_app, bare_first_solid.
Qed.

Lemma plan_or :
  parseBoolExpr (a +:+ " OR " +:+ b)
  = let out := [TTag (normalizeTag a); TTag (normalizeTag b); TOr] in
    BoolExpr.mk (Some out) (eval_postfix out).
Proof.
  rewrite parse_plan.
  - change (" OR " +:+ b) with (String " " ("OR" +:+ String " " b)).
    by rewrite tokens_binary.
  - rewrite <- append_assoc.
    apply trim_expr; [by apply first_solid_app, bare_first_solid | done].
  - by apply first_solid_app, bare_first_solid.
Qed.

Lemma plan_not :
  parseBoolExpr ("NOT " +:+ a)
  = let out := [TTag (normalizeTag a); TNot] in
    BoolExpr.mk (Some out) (eval_postfix out).
Proof.
  rewrite parse_plan.
  - change ("NOT " +:+ a) with ("NOT" +:+ String " " a).
    rewrite tokenize_word_then, tokenize_space, tokenize_word_last by done.
    by rewrite (word_token_tag a).
  - by apply trim_expr.
  - done.
Qed.

Lemma plan_and_or :
  parseBoolExpr (a +:+ " AND " +:+ b +:+ " OR " +:+ c)
  = let out := [TTag (normalizeTag a); TTag (normalizeTag b); TAnd;
                TTag (normalizeTag c); TOr] in
    BoolExpr.mk (Some out) (eval_postfix out).
Proof.
  rewrite parse_plan.
  - change (" AND " +:+ b +:+ " OR " +:+ c)
      with (String " " ("AND" +:+ String " "
              (b +:+ String " " ("OR" +:+ String " " c)))).
    rewrite tokenize_word_then, tokenize_infix by done.
    rewrite tokenize_word_then, tokenize_infix, tokenize_word_last by done.
    by rewrite (word_token_tag a), (word_token_tag b), (word_token_tag c).
  - rewrite <- !append_assoc.
    apply trim_expr; [by repeat apply first_solid_app; apply bare_first_solid | done].
  - by apply first_solid_app, bare_first_solid.
Qed.

Lemma plan_paren_and_or :
  parseBoolExpr ("(" +:+ a +:+ " AND " +:+ b +:+ ") OR " +:+ c)
  = let out := [TTag (normalizeTag a); TTag (normalizeTag b); TAnd;
                TTag (normalizeTag c); TOr] in
    BoolExpr.mk (Some out) (eval_postfix out).
Proof.
  rewrite parse_plan.
  - change ("(" +:+ a +:+ " AND " +:+ b +:+ ") OR " +:+ c)
      with (String "(" (a +:+ String " " ("AND" +:+ String " "
              (b +:+ String ")" (String " " ("OR" +:+ String " " c)))))).
    rewrite tokenize_lparen, tokenize_word_then, tokenize_infix by done.
    rewrite tokenize_word_then, tokenize_rparen, tokenize_infix by done.
    rewrite tokenize_word_last by done.
    by rewrite (word_token_tag a), (word_token_tag b), (word_token_tag c).
  - rewrite <- !append_assoc. by apply trim_expr.
  - done.
Qed.

Lemma plan_not_and :
  parseBoolExpr ("NOT " +:+ a +:+ " AND " +:+ b)
  = let out := [TTag (normalizeTag a); TNot; TTag (normalizeTag b); TAnd] in
    BoolExpr.mk (Some out) (eval_postfix out).
Proof.
  rewrite parse_plan.
  - change ("NOT " +:+ a +:+ " AND " +:+ b)
      with ("NOT" +:+ String " "
              (a +:+ String " " ("AND" +:+ String " " b))).
    rewrite tokenize_word_then, tokenize_space, tokens_binary by done.
    by change (word_token "NOT") with TNot.
  - rewrite <- !append_assoc. by apply trim_expr.
  - done.
Qed.

Lemma plan_paren_not_and :
  parseBoolExpr ("(NOT " +:+ a +:+ ") AND " +:+ b)
  = let out := [TTag (normalizeTag a); TNot; TTag (normalizeTag b); TAnd] in
    BoolExpr.mk (Some out) (eval_postfix out).
Proof.
  rewrite parse_plan.
  - change ("(NOT " +:+ a +:+ ") AND " +:+ b)
      with (String "(" ("NOT" +:+ String " "
              (a +:+ String ")" (String " " ("AND" +:+ String " " b))))).
    rewrite tokenize_lparen, tokenize_word_then, tokenize_space by done.
    rewrite tokenize_word_then, tokenize_rparen, tokenize_infix by done.
    rewrite tokenize_word_last by done.
    by rewrite (word_token_tag a), (word_token_tag b).
  - rewrite <- !append_assoc. by apply trim_expr.
  - done.
Qed.

End Shapes.

Lemma plan_quoted_and (p c : string) :
  quote_free p = true -> bare_tag c = true ->
  parseBoolExpr (quoted p +:+ " AND " +:+ c)
  = let out := [TTag (normalizeTag p); TTag (normalizeTag c); TAnd] in
    BoolExpr.mk (Some out) (eval_postfix out).
Proof.
  intros Hp Hc. pose proof (bare_tag_word c Hc) as Hc'.
  assert (quoted p +:+ " AND " +:+ c
          = String dq (p +:+ String dq
              (String " " ("AND" +:+ String " " c)))) as ->.
  { unfold quoted. by rewrite append_cons, append_assoc. }
  rewrite parse_plan.
  - rewrite tokenize_quoted_then, tokenize_infix, tokenize_word_last by done.
    by rewrite (word_token_tag c).
  - assert (p +:+ String dq (String " " ("AND" +:+ String " " c))
            = (p +:+ String dq " AND ") +:+ c) as ->
      by (by rewrite append_assoc).
    destruct (bare_word_solid c Hc'). by apply trim_solid_ends.
  - done.
Qed.

End ParseShapes.

(** ** The shunting-yard conversion *)

Section ShuntingYard.

Lemma below_mono (k k' : nat) (ops : list token) :
  (k' <= k)%nat -> below k' ops -> below k ops.
Proof. destruct ops as [|top ops]; [done|]. simpl. intros ? [?|?]; [by left | right; lia]. Qed.

Lemma pop_ops_none (t : token) (out ops : list token) :
  below (prec t) ops -> pop_ops t out ops = (out, ops).
Proof.
  destruct ops as [|top ops]; [done|]. simpl. intros [->|Hlt]; [done|].
  rewrite (proj2 (Nat.leb_gt _ _) Hlt). by rewrite andb_false_r.
Qed.

(** An arriving operator pops the pending operators that bind at least as
    strongly as itself. *)
Lemma pop_ops_all (t : token) (pd : list token) :
  forall out ops,
    Forall (fun o => is_operator o = true /\ (prec t <= prec o)%nat) pd ->
    below (prec t) ops ->
    pop_ops t out (pd ++ ops) = (out ++ pd, ops).
Proof.
  induction pd as [|o pd IH]; intros out ops Hpd Hops.
  - rewrite app_nil_r. by apply pop_ops_none.
  - apply Forall_cons in Hpd as [[Ho Hle] Hpd]. simpl.
    rewrite Ho, (proj2 (Nat.leb_le _ _) Hle). simpl.
    rewrite IH by done. by rewrite <- app_assoc.
Qed.

(** A closing parenthesis pops the pending operators down to the opening
    one. *)
Lemma pop_to_paren_all (pd : list token) :
  forall out ops,
    Forall (fun o => is_operator o = true) pd ->
    pop_to_paren out (pd ++ TLParen :: ops) = (out ++ pd, TLParen :: ops).
Proof.
  induction pd as [|o pd IH]; intros out ops Hpd.
  - by rewrite app_nil_r.
  - apply Forall_cons in Hpd as [Ho Hpd]. simpl.
    rewrite bool_decide_eq_false_2 by (by destruct o).
    rewrite IH by done. by rewrite <- app_assoc.
Qed.

(** The state of the conversion after the tokens of a tree: the part of its
    postfix form that is already out, and the rest pending on the stack. *)
Lemma sy_run (e : bexp) :
  forall (k : nat) (out ops : list token),
    below k ops ->
    exists em pd,
      foldl sy_step (out, ops) (toks k e) = (out ++ em, pd ++ ops)
      /\ em ++ pd = post e
      /\ Forall (fun o => is_operator o = true /\ (k <= prec o)%nat) pd.
Proof.
  assert (forall (e : bexp),
    (forall out ops, below (level e) ops ->
       exists em pd,
         foldl sy_step (out, ops)
           (match e with
            | ETag v => [TTag v]
            | ENot e1 => TNot :: toks 4 e1
            | EAnd l r => toks 2 l ++ TAnd :: toks 3 r
            | EOr l r => toks 1 l ++ TOr :: toks 2 r
            end) = (out ++ em, pd ++ ops)
         /\ em ++ pd = post e
         /\ Forall (fun o => is_operator o = true /\ (level e <= prec o)%nat) pd) ->
    forall k out ops, below k ops ->
      exists em pd,
        foldl sy_step (out, ops) (toks k e) = (out ++ em, pd ++ ops)
        /\ em ++ pd = post e
        /\ Forall (fun o => is_operator o = true /\ (k <= prec o)%nat) pd)
    as Hwrap.
  { clear e. intros e Hraw k out ops Hops.
    assert (toks k e =
      let raw := match e with
            | ETag v => [TTag v]
            | ENot e1 => TNot :: toks 4 e1
            | EAnd l r => toks 2 l ++ TAnd :: toks 3 r
            | EOr l r => toks 1 l ++ TOr :: toks 2 r
            end in
      if (level e <? k)%nat then TLParen :: raw ++ [TRParen] else raw) as ->
      by by destruct e.
    cbv zeta. destruct (level e <? k)%nat eqn:E.
    - destruct (Hraw out (TLParen :: ops)) as (em & pd & Hrun & Hpost & Hpd);
        [by left|].
      exists (post e), []. split_and!; [|by rewrite app_nil_r | done].
      cbn [foldl]. change (sy_step (out, ops) TLParen) with (out, TLParen :: ops).
      rewrite foldl_app, Hrun. cbn [foldl sy_step].
      rewrite pop_to_paren_all.
      + by rewrite <- app_assoc, Hpost.
      + eapply Forall_impl; [exact Hpd|]. by intros o [? _].
    - apply Nat.ltb_ge in E.
      destruct (Hraw out ops) as (em & pd & Hrun & Hpost & Hpd);
        [by apply (below_mono _ k)|].
      exists em, pd. split_and!; [done | done |].
      eapply Forall_impl; [exact Hpd|]. intros o [? ?]. split; [done | lia]. }
  induction e as [v|e1 IH|l IHl r IHr|l IHl r IHr]; apply Hwrap.
  - intros out ops _. exists [TTag v], []. by split_and!.
  - intros out ops Hops. cbn [foldl sy_step].
    rewrite pop_ops_none by done.
    destruct (IH 4%nat out (TNot :: ops)) as (em & pd & Hrun & Hpost & Hpd);
      [right; simpl; lia|].
    assert (pd = []) as ->.
    { destruct pd as [|o pd]; [done|].
      apply Forall_cons in Hpd as [[Ho Hle] _]. destruct o; simpl in *; lia || done. }
    rewrite app_nil_r in Hpost. subst em.
    exists (post e1), [TNot]. split_and!; [done | done |].
    apply Forall_singleton. by split.
  - intros out ops Hops. rewrite foldl_app.
    destruct (IHl 2%nat out ops Hops) as (eml & pdl & Hrl & Hpl & Hdl).
    rewrite Hrl. cbn [foldl sy_step].
    rewrite pop_ops_all by done.
    destruct (IHr 3%nat (out ++ eml ++ pdl) (TAnd :: ops))
      as (emr & pdr & Hrr & Hpr & Hdr); [right; simpl; lia|].
    rewrite <- app_assoc. rewrite Hrr.
    exists (post l ++ emr), (pdr ++ [TAnd]). split_and!.
    + by rewrite Hpl, <- !app_assoc.
    + cbn [post]. by rewrite <- Hpr, <- !app_assoc.
    + apply Forall_app. split.
      * eapply Forall_impl; [exact Hdr|]. intros o [? ?]. split; [done | simpl; lia].
      * apply Forall_singleton. split; [done | simpl; lia].
  - intros out ops Hops. rewrite foldl_app.
    destruct (IHl 1%nat out ops Hops) as (eml & pdl & Hrl & Hpl & Hdl).
    rewrite Hrl. cbn [foldl sy_step].
    rewrite pop_ops_all by done.
    destruct (IHr 2%nat (out ++ eml ++ pdl) (TOr :: ops))
      as (emr & pdr & Hrr & Hpr & Hdr); [right; simpl; lia|].
    rewrite <- app_assoc. rewrite Hrr.
    exists (post l ++ emr), (pdr ++ [TOr]). split_and!.
    + by rewrite Hpl, <- !app_assoc.
    + cbn [post]. by rewrite <- Hpr, <- !app_assoc.
    + apply Forall_app. split.
      * eapply Forall_impl; [exact Hdr|]. intros o [? ?]. split; [done | simpl; lia].
      * apply Forall_singleton. split; [done | simpl; lia].
Qed.

(** The conversion of the tokens of a tree is its postfix form. *)
Lemma shunting_yard_post (e : bexp) : shunting_yard (toks 1 e) = post e.
Proof.
  unfold shunting_yard.
  destruct (sy_run e 1%nat [] []) as (em & pd & Hrun & Hpost & _); [done|].
  rewrite Hrun. by rewrite app_nil_r.
Qed.

(** The stack machine on a postfix form pushes the value of the tree. *)
Lemma eval_post (tags : list string) (e : bexp) :
  forall stack,
    foldl (eval_step tags) stack (post e) = den tags e :: stack.
Proof.
  induction e as [v|e1 IH|l IHl r IHr|l IHl r IHr]; intros stack; cbn [post den].
  - done.
  - by rewrite foldl_app, IH.
  - by rewrite !foldl_app, IHl, IHr.
  - by rewrite !foldl_app, IHl, IHr.
Qed.

Lemma eval_postfix_post (tags : list string) (e : bexp) :
  eval_postfix (post e) tags = den tags e.
Proof. unfold eval_postfix. by rewrite eval_post. Qed.

End ShuntingYard.

(** ** Writing expressions out *)

Section Rendering.

#[local] Arguments String.append !_ _ / : simpl nomatch.

Lemma toks_unfold (k : nat) (e : bexp) :
  toks k e
  = if (level e <? k)%nat then TLParen :: raw_toks e ++ [TRParen]
    else raw_toks e.
Proof. by destruct e. Qed.

Lemma level_emap (f : string -> string) (e : bexp) :
  level (emap f e) = level e.
Proof. by destruct e. Qed.

Lemma toks_emap (f : string -> string) (e : bexp) (k : nat) :
  toks k (emap f e) = map (tmap f) (toks k e).
Proof.
  revert k.
  induction e as [v|e1 IH|l IHl r IHr|l IHl r IHr]; intros k;
    rewrite !toks_unfold, level_emap; cbn [emap raw_toks].
  - by destruct (_ <? _)%nat.
  - rewrite IH. destruct (_ <? _)%nat; [|done].
    cbn [map tmap]. by rewrite map_app.
  - rewrite IHl, IHr. destruct (_ <? _)%nat.
    + cbn [map tmap]. by rewrite !map_app.
    + by rewrite map_app.
  - rewrite IHl, IHr. destruct (_ <? _)%nat.
    + cbn [map tmap]. by rewrite !map_app.
    + by rewrite map_app.
Qed.

Lemma writable_paren (ts : list token) :
  writable ts -> writable (TLParen :: ts ++ [TRParen]).
Proof.
  intros Hts. apply Forall_cons. split; [done|].
  apply Forall_app. split; [done|]. by apply Forall_cons.
Qed.

Lemma toks_writable (e : bexp) (k : nat) :
  Forall (fun v => bare_tag v = true) (etags e) -> writable (toks k e).
Proof.
  revert k.
  induction e as [v|e1 IH|l IHl r IHr|l IHl r IHr]; intros k He;
    rewrite toks_unfold; cbn [etags] in He.
  - apply Forall_cons in He as [Hv _].
    assert (writable (raw_toks (ETag v))) as Hraw by by apply Forall_cons.
    destruct (_ <? _)%nat; [by apply writable_paren | done].
  - assert (writable (raw_toks (ENot e1))) as Hraw
      by (apply Forall_cons; split; [done | by apply IH]).
    destruct (_ <? _)%nat; [by apply writable_paren | done].
  - apply Forall_app in He as [Hl Hr].
    assert (writable (raw_toks (EAnd l r))) as Hraw.
    { apply Forall_app. split; [by apply IHl|].
      apply Forall_cons. split; [done | by apply IHr]. }
    destruct (_ <? _)%nat; [by apply writable_paren | done].
  - apply Forall_app in He as [Hl Hr].
    assert (writable (raw_toks (EOr l r))) as Hraw.
    { apply Forall_app. split; [by apply IHl|].
      apply Forall_cons. split; [done | by apply IHr]. }
    destruct (_ <? _)%nat; [by apply writable_paren | done].
Qed.

Lemma toks_nonempty (e : bexp) (k : nat) : toks k e <> [].
Proof.
  rewrite toks_unfold. destruct (_ <? _)%nat; [done|].
  destruct e as [v|e1|l r|l r]; cbn [raw_toks]; [done | done | |];
    by destruct (toks _ l).
Qed.

Lemma show_solid (t : token) :
  match t with TTag v => bare_tag v = true | _ => True end ->
  show t <> EmptyString
  /\ first_solid (show t) = true
  /\ all_chars (fun c => negb (is_space c)) (show t) = true.
Proof.
  destruct t; try done. intros Hv%bare_tag_word.
  destruct (bare_word_solid _ Hv) as [? ?].
  split_and!; [done | by apply bare_first_solid | done].
Qed.

Lemma render_cons (t : token) (r : list token) :
  r <> [] -> render (t :: r) = show t +:+ String " " (render r).
Proof. by destruct r. Qed.

Lemma render_first_solid (ts : list token) :
  ts <> [] -> writable ts -> first_solid (render ts) = true.
Proof.
  destruct ts as [|t r]; [done|]. intros _ [Ht _]%Forall_cons.
  destruct (show_solid t Ht) as (_ & Hf & _).
  destruct r; [done|]. rewrite render_cons by done.
  by apply first_solid_app.
Qed.

Lemma trimEnd_app_fixed (x y : string) :
  y <> EmptyString -> trimEnd y = y -> trimEnd (x +:+ y) = x +:+ y.
Proof.
  intros Hne Hy. induction x as [|c x IH]; [done|].
  rewrite append_cons. simpl. rewrite IH.
  destruct (x +:+ y) eqn:E; [|done].
  destruct x; [done | discriminate].
Qed.

Lemma render_nonempty (ts : list token) :
  ts <> [] -> writable ts -> render ts <> EmptyString.
Proof.
  intros Hne Hw E. pose proof (render_first_solid ts Hne Hw) as H.
  by rewrite E in H.
Qed.

Lemma trimEnd_render (ts : list token) :
  writable ts -> trimEnd (render ts) = render ts.
Proof.
  induction ts as [|t r IH]; [done|]. intros [Ht Hr]%Forall_cons.
  destruct (show_solid t Ht) as (_ & _ & Hs).
  destruct (decide (r = [])) as [->|Hne]; [by apply trimEnd_solid|].
  rewrite render_cons by done.
  apply trimEnd_app_fixed; [done|].
  change (String " " (render r)) with (" " +:+ render r).
  apply trimEnd_app_fixed; [by apply render_nonempty | by apply IH].
Qed.

Lemma trim_render (ts : list token) :
  ts <> [] -> writable ts -> trim (render ts) = render ts.
Proof.
  intros Hne Hw. unfold trim.
  rewrite trimStart_solid by by apply render_first_solid.
  by apply trimEnd_render.
Qed.

(** Tokenizing what was written gives the tokens back, the tag literals in
    normal form. *)
Lemma tokenize_render (ts : list token) :
  writable ts -> tokenize (render ts) = map (tmap normalizeTag) ts.
Proof.
  induction ts as [|t r IH]; [done|]. intros [Ht Hr]%Forall_cons.
  destruct (decide (r = [])) as [->|Hne].
  - destruct t; try done. cbn.
    rewrite tokenize_word_last by by apply bare_tag_word.
    by rewrite word_token_tag.
  - rewrite render_cons by done. cbn [map]. rewrite <- IH by done.
    destruct t; cbn [show tmap].
    + rewrite tokenize_word_then, tokenize_space by (done || by apply bare_tag_word).
      by rewrite word_token_tag.
    + by rewrite tokenize_word_then, tokenize_space.
    + by rewrite tokenize_word_then, tokenize_space.
    + by rewrite tokenize_word_then, tokenize_space.
    + by rewrite append_cons, append_nil_l, tokenize_lparen, tokenize_space.
    + by rewrite append_cons, append_nil_l, tokenize_rparen, tokenize_space.
Qed.

(** Every tree over tags that can be written bare, written out with the
    parentheses its shape needs, is parsed to its postfix form and evaluated
    to its truth value. *)
Theorem parse_tree (e : bexp) (tags : list string) :
  Forall (fun v => bare_tag v = true) (etags e) ->
  ast (parseBoolExpr (render (toks 1 e)))
  = Some (post (emap normalizeTag e))
  /\ eval (parseBoolExpr (render (toks 1 e))) tags
     = den tags (emap normalizeTag e).
Proof.
  intros He. pose proof (toks_writable e 1 He) as Hw.
  rewrite parse_plan.
  - rewrite tokenize_render, <- toks_emap, shunting_yard_post by done.
    split; [done | apply eval_postfix_post].
  - apply trim_render; [apply toks_nonempty | done].
  - apply render_first_solid; [apply toks_nonempty | done].
Qed.

End Rendering.

(** ** Evaluation of boolean expressions *)

Section Evaluation.

(** C1.  For tags [a], [b], [c] that can be written bare and a phrase [p]
    without a double quote: [a AND b] holds of a document iff both
    normalised tags are among its tags, [a OR b] iff one of them is,
    [NOT a] iff [a] is not; an empty or blank expression holds of every
    document; and in ["p" AND c] the quoted phrase is one tag literal, the
    normalised [p]. *)
Theorem bool_expr_semantics (a b c p : string) (doc_tags : list string) :
  bare_tag a = true -> bare_tag b = true -> bare_tag c = true ->
  quote_free p = true ->
  (eval (parseBoolExpr (a +:+ " AND " +:+ b)) doc_tags = true
   <-> normalizeTag a ∈ doc_tags /\ normalizeTag b ∈ doc_tags)
  /\ (eval (parseBoolExpr (a +:+ " OR " +:+ b)) doc_tags = true
      <-> normalizeTag a ∈ doc_tags \/ normalizeTag b ∈ doc_tags)
  /\ (eval (parseBoolExpr ("NOT " +:+ a)) doc_tags = true
      <-> normalizeTag a ∉ doc_tags)
  /\ (forall ws, all_chars is_space ws = true ->
        eval (parseBoolExpr ws) doc_tags = true)
  /\ ast (parseBoolExpr (quoted p +:+ " AND " +:+ c))
     = Some [TTag (normalizeTag p); TTag (normalizeTag c); TAnd]
  /\ (eval (parseBoolExpr (quoted p +:+ " AND " +:+ c)) doc_tags = true
      <-> normalizeTag p ∈ doc_tags /\ normalizeTag c ∈ doc_tags).
Proof.
  intros Ha Hb Hc Hp.
  rewrite plan_and, plan_or, plan_not, plan_quoted_and by done.
  unfold eval_postfix. simpl.
  split_and!.
  - by rewrite andb_true_iff, !bool_decide_eq_true.
  - by rewrite orb_true_iff, !bool_decide_eq_true.
  - by rewrite negb_true_iff, bool_decide_eq_false.
  - intros ws Hws. by rewrite parse_blank.
  - done.
  - by rewrite andb_true_iff, !bool_decide_eq_true.
Qed.

(** The statement of C1 at the expressions the specification writes out,
    for a document tagged [a], [c] and [multi word]. *)
Lemma bool_expr_semantics_witness :
  bare_tag "a" = true /\ bare_tag "b" = true /\ bare_tag "c" = true
  /\ quote_free "multi word" = true
  /\ (eval (parseBoolExpr "a AND b") ["a"; "c"; "multi word"] = true
      <-> "a" ∈ ["a"; "c"; "multi word"] /\ "b" ∈ ["a"; "c"; "multi word"])
  /\ (eval (parseBoolExpr (quoted "multi word" +:+ " AND c"))
        ["a"; "c"; "multi word"] = true
      <-> "multi word" ∈ ["a"; "c"; "multi word"]
          /\ "c" ∈ ["a"; "c"; "multi word"]).
Proof.
  pose proof (bool_expr_semantics "a" "b" "c" "multi word"
                ["a"; "c"; "multi word"] eq_refl eq_refl eq_refl eq_refl)
    as (Hand & _ & _ & _ & _ & Hquoted).
  split_and!; try reflexivity; [apply Hand | apply Hquoted].
Defined.

(** C2.  [a AND b OR c] is planned and evaluated as [(a AND b) OR c], and
    [NOT a AND b] as [(NOT a) AND b]: both spellings yield the same postfix
    plan, so they agree on every document.  In general the conversion gives
    NOT precedence over AND and AND over OR, with AND and OR associating to
    the left: every expression tree over bare tags, written out with only
    the parentheses this reading needs, is evaluated to the truth value of
    the tree. *)
Theorem operator_precedence (a b c : string) (doc_tags : list string) :
  bare_tag a = true -> bare_tag b = true -> bare_tag c = true ->
  let A := bool_decide (normalizeTag a ∈ doc_tags) in
  let B := bool_decide (normalizeTag b ∈ doc_tags) in
  let C := bool_decide (normalizeTag c ∈ doc_tags) in
  let e1 := a +:+ " AND " +:+ b +:+ " OR " +:+ c in
  let e1' := "(" +:+ a +:+ " AND " +:+ b +:+ ") OR " +:+ c in
  let e2 := "NOT " +:+ a +:+ " AND " +:+ b in
  let e2' := "(NOT " +:+ a +:+ ") AND " +:+ b in
  eval (parseBoolExpr e1) doc_tags = eval (parseBoolExpr e1') doc_tags
  /\ eval (parseBoolExpr e1) doc_tags = (A && B) || C
  /\ ast (parseBoolExpr e1) = ast (parseBoolExpr e1')
  /\ ast (parseBoolExpr e1)
     = Some [TTag (normalizeTag a); TTag (normalizeTag b); TAnd;
             TTag (normalizeTag c); TOr]
  /\ eval (parseBoolExpr e2) doc_tags = eval (parseBoolExpr e2') doc_tags
  /\ eval (parseBoolExpr e2) doc_tags = negb A && B
  /\ ast (parseBoolExpr e2) = ast (parseBoolExpr e2')
  /\ ast (parseBoolExpr e2)
     = Some [TTag (normalizeTag a); TNot; TTag (normalizeTag b); TAnd]
  /\ (forall e : bexp,
        Forall (fun v => bare_tag v = true) (etags e) ->
        eval (parseBoolExpr (render (toks 1 e))) doc_tags
        = den doc_tags (emap normalizeTag e)).
Proof.
  intros Ha Hb Hc A B C e1 e1' e2 e2'. subst e1 e1' e2 e2'.
  rewrite plan_and_or, plan_paren_and_or by done.
  rewrite plan_not_and, plan_paren_not_and by done.
  split_and!; try done.
  intros e He. by apply parse_tree.
Qed.

Lemma operator_precedence_witness :
  bare_tag "a" = true /\ bare_tag "b" = true /\ bare_tag "c" = true
  /\ eval (parseBoolExpr "a AND b OR c") ["c"]
     = eval (parseBoolExpr "(a AND b) OR c") ["c"]
  /\ eval (parseBoolExpr "NOT a AND b") ["b"]
     = eval (parseBoolExpr "(NOT a) AND b") ["b"].
Proof.
  pose proof (operator_precedence "a" "b" "c" ["c"] eq_refl eq_refl eq_refl)
    as H1.
  pose proof (operator_precedence "a" "b" "c" ["b"] eq_refl eq_refl eq_refl)
    as H2.
  cbv zeta in H1, H2.
  destruct H1 as (E1 & _). destruct H2 as (_ & _ & _ & _ & E2 & _).
  split_and!; [reflexivity | reflexivity | reflexivity | exact E1 | exact E2].
Defined.

(** Two operator words in a row are outside that reading: the second [NOT]
    pops the first one to the output before any operand, where it finds the
    stack empty, so [NOT NOT a] is evaluated as [NOT a]. *)
Remark stacked_not (tags : list string) :
  ast (parseBoolExpr "NOT NOT a") = Some [TNot; TTag "a"; TNot]
  /\ eval (parseBoolExpr "NOT NOT a") tags = negb (bool_decide ("a" ∈ tags))
  /\ render (toks 1 (ENot (ENot (ETag "a")))) = "NOT ( NOT a )".
Proof. done. Qed.

(** The tolerant machine and the raising one, run side by side: the raising
    machine starts on [k] copies of [false] below the stack, enough for two
    pops per token. *)
Lemma strict_run_padded (tags : list string) (out : list token) :
  forall (stack : list bool) (k : nat),
    2 * length out <= k ->
    exists k', k - 2 * length out <= k' /\
      strict_run tags (stack ++ replicate k false) out
      = Some (foldl (eval_step tags) stack out ++ replicate k' false).
Proof.
  induction out as [|n out IH]; intros stack k Hk.
  - exists k. split; [lia | done].
  - simpl length in Hk.
    destruct n.
    + destruct (IH (bool_decide (val ∈ tags) :: stack) k) as (k' & ? & E);
        [lia|]. exists k'. split; [simpl; lia | done].
    + destruct stack as [|x stack].
      * destruct k as [|k]; [lia|].
        destruct (IH [true] k) as (k' & ? & E); [lia|].
        exists k'. split; [simpl; lia | done].
      * destruct (IH (negb x :: stack) k) as (k' & ? & E); [lia|].
        exists k'. split; [simpl; lia | done].
    + destruct stack as [|y [|x stack]].
      * destruct k as [|[|k]]; [lia | lia |].
        destruct (IH [false] k) as (k' & ? & E); [lia|].
        exists k'. split; [simpl; lia | done].
      * destruct k as [|k]; [lia|].
        destruct (IH [false && y] k) as (k' & ? & E); [lia|].
        exists k'. split; [simpl; lia | done].
      * destruct (IH ((x && y) :: stack) k) as (k' & ? & E); [lia|].
        exists k'. split; [simpl; lia | done].
    + destruct stack as [|y [|x stack]].
      * destruct k as [|[|k]]; [lia | lia |].
        destruct (IH [false] k) as (k' & ? & E); [lia|].
        exists k'. split; [simpl; lia | done].
      * destruct k as [|k]; [lia|].
        destruct (IH [false || y] k) as (k' & ? & E); [lia|].
        exists k'. split; [simpl; lia | done].
      * destruct (IH ((x || y) :: stack) k) as (k' & ? & E); [lia|].
        exists k'. split; [simpl; lia | done].
    + destruct (IH stack k) as (k' & ? & E); [lia|].
      exists k'. split; [simpl; lia | done].
    + destruct (IH stack k) as (k' & ? & E); [lia|].
      exists k'. split; [simpl; lia | done].
Qed.

Lemma strict_eval_padded (tags : list string) (out : list token) :
  strict_eval tags (replicate (2 * length out + 1) false) out
  = Some (eval_postfix out tags).
Proof.
  destruct (strict_run_padded tags out [] (2 * length out + 1))
    as (k' & Hk' & E); [lia|].
  unfold strict_eval, eval_postfix. cbn [app] in E. rewrite E.
  destruct k' as [|k']; [lia|].
  by destruct (foldl (eval_step tags) [] out).
Qed.

(** C8.  [eval] returns a boolean on the plan of every input, well formed or
    not: it agrees with the raising stack machine run on a stack that holds
    [false] below every operand, so a pop from the empty stack counts as
    [false].  The inputs [AND] and [a AND] evaluate to [false], and a lone
    [NOT] to [true]. *)
Theorem eval_total_on_malformed (input : string) (tags : list string) :
  match ast (parseBoolExpr input) with
  | None => eval (parseBoolExpr input) tags = true
  | Some out =>
      strict_eval tags (replicate (2 * length out + 1) false) out
      = Some (eval (parseBoolExpr input) tags)
  end
  /\ ast (parseBoolExpr "AND") = Some [TAnd]
  /\ eval (parseBoolExpr "AND") tags = false
  /\ ast (parseBoolExpr "a AND") = Some [TTag "a"; TAnd]
  /\ eval (parseBoolExpr "a AND") tags = false
  /\ eval (parseBoolExpr "NOT") tags = true.
Proof.
  split; [|by split_and!].
  unfold parseBoolExpr. destruct (negb (truthy (trim input))); [done|].
  apply strict_eval_padded.
Qed.

End Evaluation.

(** ** Sets as duplicate-free lists *)

Section JsSetFacts.
Context {A : Type} `{EqDecision A}.
Implicit Types (s l : list A) (x y : A).

Lemma has_true s x : JsSet.has s x = true <-> x ∈ s.
Proof. apply bool_decide_eq_true. Qed.

Lemma has_false s x : JsSet.has s x = false <-> x ∉ s.
Proof. apply bool_decide_eq_false. Qed.

Lemma elem_of_add s x y : y ∈ JsSet.add s x <-> y ∈ s \/ y = x.
Proof.
  unfold JsSet.add. destruct (JsSet.has s x) eqn:E.
  - apply has_true in E. split; [auto | intros [?| ->]; done].
  - rewrite elem_of_app, list_elem_of_singleton. done.
Qed.

Lemma NoDup_add s x : NoDup s -> NoDup (JsSet.add s x).
Proof.
  intros Hs. unfold JsSet.add. destruct (JsSet.has s x) eqn:E; [done|].
  apply has_false in E. apply NoDup_app. split_and!; [done | | apply NoDup_singleton].
  intros y Hy ->%list_elem_of_singleton. done.
Qed.

Lemma elem_of_foldl_add l :
  forall s y, y ∈ foldl JsSet.add s l <-> y ∈ s \/ y ∈ l.
Proof.
  induction l as [|x l IH]; intros s y; simpl.
  - rewrite elem_of_nil. tauto.
  - rewrite IH, elem_of_add, elem_of_cons. tauto.
Qed.

Lemma NoDup_foldl_add l : forall s, NoDup s -> NoDup (foldl JsSet.add s l).
Proof.
  induction l as [|x l IH]; intros s Hs; simpl; [done|].
  by apply IH, NoDup_add.
Qed.

Lemma elem_of_of_list l y : y ∈ JsSet.of_list l <-> y ∈ l.
Proof.
  unfold JsSet.of_list. rewrite elem_of_foldl_add, elem_of_nil. tauto.
Qed.

Lemma NoDup_of_list l : NoDup (JsSet.of_list l).
Proof. apply NoDup_foldl_add, NoDup_nil_2. Qed.

Lemma foldl_add_present l :
  forall s, (forall x, x ∈ l -> x ∈ s) -> foldl JsSet.add s l = s.
Proof.
  induction l as [|x l IH]; intros s Hl; simpl; [done|].
  assert (JsSet.add s x = s) as ->.
  { unfold JsSet.add. rewrite (proj2 (has_true s x)); [done|].
    apply Hl, list_elem_of_here. }
  apply IH. intros y Hy. by apply Hl, list_elem_of_further.
Qed.

Lemma foldl_add_fresh l :
  forall s, NoDup (s ++ l) -> foldl JsSet.add s l = s ++ l.
Proof.
  induction l as [|x l IH]; intros s Hs; simpl.
  - by rewrite app_nil_r.
  - assert (JsSet.add s x = s ++ [x]) as ->.
    { unfold JsSet.add. rewrite (proj2 (has_false s x)); [done|].
      apply NoDup_app in Hs as (_ & Hs & _). intros Hx.
      apply (Hs x Hx), list_elem_of_here. }
    rewrite IH, <- app_assoc; [done|]. by rewrite <- app_assoc.
Qed.

Lemma of_list_NoDup l : NoDup l -> JsSet.of_list l = l.
Proof. intros Hl. unfold JsSet.of_list. by rewrite foldl_add_fresh. Qed.

Lemma of_list_app_self l : NoDup l -> JsSet.of_list (l ++ l) = l.
Proof.
  intros Hl. unfold JsSet.of_list. rewrite foldl_app.
  fold (JsSet.of_list l). rewrite (of_list_NoDup l Hl).
  by apply foldl_add_present.
Qed.

Lemma of_list_nil_inv l : JsSet.of_list l = [] -> l = [].
Proof.
  intros E. destruct l as [|x l]; [done|].
  assert (x ∈ JsSet.of_list (x :: l)) as Hx
    by apply elem_of_of_list, list_elem_of_here.
  rewrite E in Hx. by apply elem_of_nil in Hx.
Qed.

(** The union set does not depend on the order of its two parts, up to the
    order of its elements. *)
Lemma of_list_app_comm s l :
  JsSet.of_list (s ++ l) ≡ₚ JsSet.of_list (l ++ s).
Proof.
  apply NoDup_Permutation; [apply NoDup_of_list | apply NoDup_of_list |].
  intros x. rewrite !elem_of_of_list, !elem_of_app. tauto.
Qed.

(** The members of [s] that are in [l], and the members of [l] that are in
    [s]. *)
Lemma filter_inter_comm s l :
  NoDup s -> NoDup l ->
  filter (fun x => x ∈ l) s ≡ₚ filter (fun x => x ∈ s) l.
Proof.
  intros Hs Hl. apply NoDup_Permutation; [by apply NoDup_filter.. |].
  intros x. rewrite !list_elem_of_filter. tauto.
Qed.

Lemma filter_self s : filter (fun x => x ∈ s) s = s.
Proof.
  assert (forall l, (forall x, x ∈ l -> x ∈ s) -> filter (fun x => x ∈ s) l = l) as H0.
  { induction l as [|x l IH]; intros Hl; [done|].
    rewrite filter_cons_True by apply Hl, list_elem_of_here.
    f_equal. apply IH. intros y Hy. by apply Hl, list_elem_of_further. }
  by apply H0.
Qed.

End JsSetFacts.

(** ** Sums of reals over lists *)

Section Sums.
Local Open Scope R_scope.
Context {A : Type}.
Implicit Types (f g : A -> R) (l : list A).

Lemma foldl_radd f l (a : R) :
  foldl (fun s t => s + f t) a l = a + rsum f l.
Proof.
  revert a. induction l as [|x l IH]; intros a; simpl; [lra|].
  rewrite IH. lra.
Qed.

Lemma rsum_ext f g l :
  (forall x, x ∈ l -> f x = g x) -> rsum f l = rsum g l.
Proof.
  induction l as [|x l IH]; intros Hfg; simpl; [done|].
  rewrite (Hfg x) by apply list_elem_of_here.
  rewrite IH; [done|]. intros y Hy. by apply Hfg, list_elem_of_further.
Qed.

Lemma rsum_perm f l l' : l ≡ₚ l' -> rsum f l = rsum f l'.
Proof.
  induction 1 as [|x l l' _ IH|x y l|l l' l'' _ IH1 _ IH2]; simpl; lra.
Qed.

Lemma rsum_filter f (P : A -> Prop) `{forall x, Decision (P x)} l :
  rsum (fun x => if decide (P x) then f x else 0) l = rsum f (filter P l).
Proof.
  induction l as [|x l IH]; simpl; [done|].
  rewrite filter_cons. destruct (decide (P x)); simpl; lra.
Qed.

Lemma rsum_const_1 l : rsum (fun _ => 1) l = INR (length l).
Proof.
  induction l as [|x l IH]; [done|].
  simpl rsum. rewrite IH. simpl length. rewrite S_INR. lra.
Qed.

Lemma rsum_pos f l :
  l <> [] -> (forall x, x ∈ l -> 0 < f x) -> 0 < rsum f l.
Proof.
  intros Hne Hf.
  assert (forall k, (forall x, x ∈ k -> 0 < f x) -> 0 <= rsum f k) as Hge.
  { induction k as [|x k IH]; intros Hk; simpl; [lra|].
    pose proof (Hk x (list_elem_of_here _ _)).
    assert (0 <= rsum f k) by (apply IH; intros y Hy; by apply Hk, list_elem_of_further).
    lra. }
  destruct l as [|x l]; [done|]. simpl.
  pose proof (Hf x (list_elem_of_here _ _)).
  assert (0 <= rsum f l) by (apply Hge; intros y Hy; by apply Hf, list_elem_of_further).
  lra.
Qed.

End Sums.

(** ** Maps as association lists *)

Section MapFacts.
Context {V : Type}.
Implicit Types (m : list (string * V)) (k : string) (v : V).

Lemma set_fresh m k v : k ∉ m.*1 -> JsMap.set m k v = m ++ [(k, v)].
Proof.
  induction m as [|[k' v'] m IH]; intros Hk; simpl; [done|].
  rewrite fmap_cons, not_elem_of_cons in Hk. destruct Hk as [Hne Hk].
  rewrite bool_decide_eq_false_2 by done. by rewrite IH.
Qed.

Lemma foldl_set_fresh (f : string -> V) (l : list string) :
  forall m, NoDup (m.*1 ++ l) ->
    foldl (fun w t => JsMap.set w t (f t)) m l
    = m ++ map (fun t => (t, f t)) l.
Proof.
  induction l as [|t l IH]; intros m Hm; simpl.
  - by rewrite app_nil_r.
  - rewrite set_fresh.
    + rewrite IH, <- app_assoc; [done|].
      by rewrite fmap_app, <- app_assoc.
    + apply NoDup_app in Hm as (_ & Hm & _). intros Ht.
      apply (Hm t Ht), list_elem_of_here.
Qed.

Lemma get_map_keys (f : string -> V) (l : list string) k :
  JsMap.get (map (fun t => (t, f t)) l) k
  = if decide (k ∈ l) then Some (f k) else None.
Proof.
  induction l as [|t l IH].
  - destruct (decide (k ∈ [])) as [Hk|Hk]; [by apply elem_of_nil in Hk | done].
  - cbn [map JsMap.get]. rewrite IH. case_bool_decide as E.
    + subst t. by rewrite (decide_True (P := k ∈ k :: l)) by apply list_elem_of_here.
    + destruct (decide (k ∈ l)) as [Hk|Hk].
      * by rewrite (decide_True (P := k ∈ t :: l)) by by apply list_elem_of_further.
      * rewrite (decide_False (P := k ∈ t :: l)); [done|].
        rewrite not_elem_of_cons. split; [congruence | done].
Qed.

End MapFacts.

(** ** The tag-set metrics *)

Section Similarity.
Local Open Scope R_scope.

Lemma is_zero_true (x : R) : is_zero x = true <-> x = 0.
Proof. unfold is_zero. destruct (Req_dec_T x 0); split; done. Qed.

Lemma is_zero_false (x : R) : is_zero x = false <-> x <> 0.
Proof. unfold is_zero. destruct (Req_dec_T x 0); split; done. Qed.

Lemma num_or_nonzero (x : option R) (d : R) : d <> 0 -> num_or x d <> 0.
Proof.
  intros Hd. destruct x as [v|]; simpl; [|done].
  destruct (is_zero v) eqn:E; [done | by apply is_zero_false].
Qed.

Lemma rsum_map {A B : Type} (f : B -> R) (g : A -> B) (l : list A) :
  rsum f (map g l) = rsum (fun x => f (g x)) l.
Proof. induction l as [|x l IH]; simpl; [done | by rewrite IH]. Qed.

Lemma differ_comm A B t : differ A B t = differ B A t.
Proof. unfold differ. by destruct (JsSet.has A t), (JsSet.has B t). Qed.

Lemma differ_abs A B t :
  Rabs (Query.indicator A t - Query.indicator B t) = differ A B t.
Proof.
  unfold differ, Query.indicator.
  destruct (JsSet.has A t), (JsSet.has B t); simpl.
  - replace (1 - 1) with 0 by lra. apply Rabs_R0.
  - replace (1 - 0) with 1 by lra. apply Rabs_R1.
  - replace (0 - 1) with (-1) by lra. rewrite Rabs_left; lra.
  - replace (0 - 0) with 0 by lra. apply Rabs_R0.
Qed.

Lemma differ_sq A B t :
  (Query.indicator A t - Query.indicator B t) ^ 2 = differ A B t.
Proof.
  unfold differ, Query.indicator.
  destruct (JsSet.has A t), (JsSet.has B t); simpl; lra.
Qed.

Lemma count_inter_filter (A B : list string) :
  Query.count_inter A B = length (filter (fun t => t ∈ B) A).
Proof.
  unfold Query.count_inter.
  enough (forall n, foldl (fun inter t => if JsSet.has B t then S inter else inter) n A
                    = (n + length (filter (fun t => t ∈ B) A))%nat) as H by apply H.
  induction A as [|t A IH]; intros n; simpl; [lia|].
  rewrite IH, filter_cons. unfold JsSet.has.
  destruct (decide (t ∈ B)).
  - rewrite bool_decide_eq_true_2 by done. simpl. lia.
  - by rewrite bool_decide_eq_false_2 by done.
Qed.

Lemma count_inter_comm (A B : list string) :
  NoDup A -> NoDup B -> Query.count_inter A B = Query.count_inter B A.
Proof.
  intros HA HB. rewrite !count_inter_filter.
  by apply Permutation_length, filter_inter_comm.
Qed.

Lemma count_inter_self (A : list string) : Query.count_inter A A = length A.
Proof. by rewrite count_inter_filter, filter_self. Qed.

Lemma union_size_comm (A B : list string) :
  JsSet.size (JsSet.of_list (A ++ B)) = JsSet.size (JsSet.of_list (B ++ A)).
Proof. apply Permutation_length, of_list_app_comm. Qed.

(** The count of [hamming] as a sum. *)
Lemma hamming_diff_sum (A B U : list string) :
  INR (foldl (fun diff t =>
                if negb (Bool.eqb (JsSet.has A t) (JsSet.has B t))
                then S diff else diff) 0%nat U)
  = rsum (differ A B) U.
Proof.
  enough (forall n,
    INR (foldl (fun diff t =>
                  if negb (Bool.eqb (JsSet.has A t) (JsSet.has B t))
                  then S diff else diff) n U)
    = INR n + rsum (differ A B) U) as H by (rewrite H; simpl; lra).
  induction U as [|t U IH]; intros n; simpl; [lra|].
  rewrite IH. unfold differ.
  destruct (Bool.eqb (JsSet.has A t) (JsSet.has B t)); simpl negb; cbv iota.
  - lra.
  - rewrite S_INR. lra.
Qed.

Lemma rsum_differ_comm (A B : list string) :
  rsum (differ A B) (JsSet.of_list (A ++ B))
  = rsum (differ B A) (JsSet.of_list (B ++ A)).
Proof.
  rewrite (rsum_perm _ _ _ (of_list_app_comm A B)).
  apply rsum_ext. intros t _. apply differ_comm.
Qed.

Section WithStore.
Variable store : Store.
Variable o : SimOpts.

Lemma overlap_sum (A B : list string) :
  foldl (fun s t =>
           if negb (JsSet.has B t) then s
           else if weightTags o
                then s + (1 + num_or (idf store !! t) 0 * (idfMul o - 1))
                else s + 1) 0 A
  = rsum (overlap_weight store o) (filter (fun t => t ∈ B) A).
Proof.
  rewrite <- rsum_filter.
  enough (forall a,
    foldl (fun s t =>
           if negb (JsSet.has B t) then s
           else if weightTags o
                then s + (1 + num_or (idf store !! t) 0 * (idfMul o - 1))
                else s + 1) a A
    = a + rsum (fun t => if decide (t ∈ B) then (overlap_weight store o) t else 0) A)
    as H by (rewrite H; lra).
  induction A as [|t A IH]; intros a; simpl; [lra|].
  rewrite IH. unfold JsSet.has, overlap_weight.
  destruct (decide (t ∈ B)).
  - rewrite bool_decide_eq_true_2 by done. simpl.
    destruct (weightTags o); lra.
  - rewrite bool_decide_eq_false_2 by done. simpl. lra.
Qed.

Lemma sq_weight_pos (t : string) : 0 < (sq_weight store o) t.
Proof.
  unfold sq_weight, Query.tag_weight.
  assert (forall x : R, x <> 0 -> 0 < x * x) as Hsq by (intros x Hx; nra).
  destruct (weightTags o); apply Hsq; [|lra].
  apply num_or_nonzero. lra.
Qed.

Lemma tag_vector_map (A : list string) :
  NoDup A ->
  Query.tag_vector store (weightTags o) A
  = map (fun t => (t, Query.tag_weight store (weightTags o) t)) A.
Proof.
  intros HA. unfold Query.tag_vector. by rewrite foldl_set_fresh.
Qed.

Lemma norm_sum (A : list string) :
  foldl (fun na v => na + v * v) 0
    (JsMap.values
       (map (fun t => (t, Query.tag_weight store (weightTags o) t)) A))
  = rsum (sq_weight store o) A.
Proof.
  rewrite foldl_radd. unfold JsMap.values. rewrite map_map. simpl.
  rewrite rsum_map, Rplus_0_l. done.
Qed.

Lemma dot_sum (A B : list string) :
  foldl (fun dot '(k, va) =>
           match JsMap.get
                   (map (fun t => (t, Query.tag_weight store (weightTags o) t)) B)
                   k with
           | Some vb => if is_zero vb then dot else dot + va * vb
           | None => dot
           end) 0
    (map (fun t => (t, Query.tag_weight store (weightTags o) t)) A)
  = rsum (sq_weight store o) (filter (fun t => t ∈ B) A).
Proof.
  rewrite <- rsum_filter.
  enough (forall a,
    foldl (fun dot '(k, va) =>
           match JsMap.get
                   (map (fun t => (t, Query.tag_weight store (weightTags o) t)) B)
                   k with
           | Some vb => if is_zero vb then dot else dot + va * vb
           | None => dot
           end) a
      (map (fun t => (t, Query.tag_weight store (weightTags o) t)) A)
    = a + rsum (fun t => if decide (t ∈ B) then (sq_weight store o) t else 0) A)
    as H by (rewrite H; lra).
  induction A as [|t A IH]; intros a; simpl; [lra|].
  rewrite IH, get_map_keys.
  destruct (decide (t ∈ B)); [|lra].
  destruct (is_zero _) eqn:E.
  - apply is_zero_true in E. unfold sq_weight. rewrite E. lra.
  - unfold sq_weight. lra.
Qed.

Lemma cosine_closed_form (A B : list string) :
  NoDup A -> NoDup B ->
  cosineSimSparse (Some (Query.tag_vector store (weightTags o) A))
                  (Some (Query.tag_vector store (weightTags o) B))
  = (cosine_of store o) A B.
Proof.
  intros HA HB. rewrite !tag_vector_map by done.
  unfold cosineSimSparse, cosine_of. rewrite !norm_sum.
  destruct (_ <? _)%nat.
  - by rewrite dot_sum.
  - rewrite dot_sum.
    by rewrite (rsum_perm _ _ _ (filter_inter_comm B A HB HA)).
Qed.

Lemma cosine_of_comm (A B : list string) :
  NoDup A -> NoDup B -> (cosine_of store o) A B = (cosine_of store o) B A.
Proof.
  intros HA HB. unfold cosine_of.
  rewrite (rsum_perm _ _ _ (filter_inter_comm A B HA HB)).
  rewrite (Rmult_comm (rsum (sq_weight store o) A)).
  f_equal. by destruct (is_zero _), (is_zero _), (is_zero _).
Qed.

Lemma cosine_of_self (A : list string) : A <> [] -> (cosine_of store o) A A = 1.
Proof.
  intros HA. unfold cosine_of. rewrite filter_self.
  assert (0 < rsum (sq_weight store o) A) as Hpos
    by (apply rsum_pos; [done | intros; apply sq_weight_pos]).
  rewrite (proj2 (is_zero_false _)) by lra. simpl.
  rewrite sqrt_square by lra. field. lra.
Qed.

End WithStore.
End Similarity.

(** ** Symmetry and self-similarity *)

(** Decides the chain of tests on a known mode. *)
Ltac mode_tests :=
  repeat first
    [ rewrite bool_decide_eq_true_2 by done
    | rewrite bool_decide_eq_false_2 by done ];
  cbv iota.

Section Metrics.
Local Open Scope R_scope.
Variable store : Store.

Lemma manhattan_sum (A B U : list string) :
  foldl (fun dist t => dist + Rabs (Query.indicator A t - Query.indicator B t))
        0 U
  = rsum (differ A B) U.
Proof.
  rewrite foldl_radd, Rplus_0_l. apply rsum_ext. intros t _. apply differ_abs.
Qed.

Lemma euclidean_sum (A B U : list string) :
  foldl (fun dist t => dist + (Query.indicator A t - Query.indicator B t) ^ 2)
        0 U
  = rsum (differ A B) U.
Proof.
  rewrite foldl_radd, Rplus_0_l. apply rsum_ext. intros t _. apply differ_sq.
Qed.

Lemma tagSimilarity_comm (a b : Row) (o : SimOpts) :
  Query.tagSimilarity store a b o = Query.tagSimilarity store b a o.
Proof.
  unfold Query.tagSimilarity.
  pose proof (NoDup_of_list (tags a)) as HA.
  pose proof (NoDup_of_list (tags b)) as HB.
  set (A := JsSet.of_list (tags a)) in *.
  set (B := JsSet.of_list (tags b)) in *.
  repeat case_bool_decide.
  - done.
  - rewrite !overlap_sum. apply rsum_perm. by apply filter_inter_comm.
  - by rewrite union_size_comm, count_inter_comm.
  - by rewrite count_inter_comm, Nat.add_comm.
  - by rewrite union_size_comm, count_inter_comm.
  - by rewrite count_inter_comm, Nat.mul_comm.
  - by rewrite count_inter_comm, Nat.min_comm.
  - by rewrite count_inter_comm, Nat.max_comm.
  - by rewrite !hamming_diff_sum, rsum_differ_comm, union_size_comm.
  - by rewrite !manhattan_sum, rsum_differ_comm, union_size_comm.
  - by rewrite !euclidean_sum, rsum_differ_comm, union_size_comm.
  - rewrite !cosine_closed_form by done. by apply cosine_of_comm.
Qed.

Lemma ratio_self (n : nat) : n <> 0%nat -> INR n / INR n = 1.
Proof. intros Hn. field. by apply not_0_INR. Qed.

Lemma tagSimilarity_self (a : Row) (o : SimOpts) :
  tags a <> [] -> mode o ∈ bounded_modes ->
  Query.tagSimilarity store a a o = 1.
Proof.
  intros Hne Hm. unfold Query.tagSimilarity.
  pose proof (NoDup_of_list (tags a)) as HA.
  assert (JsSet.of_list (tags a) <> []) as HA0
    by (intros E; by apply of_list_nil_inv in E).
  set (A := JsSet.of_list (tags a)) in *.
  assert (length A <> 0%nat) as Hlen by by destruct A.
  assert (INR (length A) <> 0) as HlenR by by apply not_0_INR.
  rewrite of_list_app_self, count_inter_self by done.
  unfold JsSet.size.
  rewrite Nat.min_id, Nat.max_id.
  rewrite (proj2 (Nat.eqb_neq _ _) Hlen).
  assert ((length A + length A =? 0)%nat = false) as -> by (apply Nat.eqb_neq; lia).
  assert (sqrt (INR (length A * length A)) = INR (length A)) as ->
    by (rewrite mult_INR; apply sqrt_square, pos_INR).
  rewrite (proj2 (is_zero_false _) HlenR).
  rewrite cosine_closed_form, cosine_of_self by done.
  rewrite plus_INR.
  unfold bounded_modes in Hm. rewrite !elem_of_cons, elem_of_nil in Hm.
  destruct Hm as [E|[E|[E|[E|[E|[E|[E|[]]]]]]]]; rewrite E; mode_tests;
    first [ by apply ratio_self | done | field; lra ].
Qed.

End Metrics.

Section MetricClaims.
Local Open Scope R_scope.

(** C5.  [hamming] and [manhattan] return the same number on every pair of
    documents, empty tag lists included, whatever the other options are. *)
Theorem hamming_is_manhattan (store : Store) (a b : Row)
    (w1 w2 : bool) (m1 m2 : R) :
  Query.tagSimilarity store a b
    {| mode := "hamming"; weightTags := w1; idfMul := m1 |}
  = Query.tagSimilarity store a b
      {| mode := "manhattan"; weightTags := w2; idfMul := m2 |}.
Proof.
  unfold Query.tagSimilarity. cbn [mode]. mode_tests.
  by rewrite hamming_diff_sum, manhattan_sum.
Qed.

End MetricClaims.

(** ** The rows of a built store *)

Section NormaliseTags.

(** Every entry that [normalizeTagsLower] returns is a non-empty normal
    form, and no entry comes twice. *)
Lemma normalizeTagsLower_spec (arr : list string) :
  NoDup (normalizeTagsLower arr)
  /\ forall t, t ∈ normalizeTagsLower arr <->
       t <> EmptyString /\ exists u, u ∈ arr /\ t = normalizeTag u.
Proof.
  unfold normalizeTagsLower.
  enough (forall out,
    let res := foldl (fun out t =>
                        let t' := toLowerCase (trim t) in
                        if truthy t' then JsSet.add out t' else out) out arr in
    (NoDup out -> NoDup res)
    /\ forall t, t ∈ res <->
         t ∈ out \/ (t <> EmptyString /\ exists u, u ∈ arr /\ t = normalizeTag u))
    as H.
  { destruct (H []) as [H1 H2]. split; [apply H1, NoDup_nil_2|].
    intros t. rewrite H2, elem_of_nil. tauto. }
  induction arr as [|x arr IH]; intros out; simpl.
  - split; [done|]. intros t. split; [auto|].
    intros [?|(_ & u & Hu & _)]; [done | by apply elem_of_nil in Hu].
  - fold (normalizeTag x). destruct (truthy (normalizeTag x)) eqn:E.
    + destruct (IH (JsSet.add out (normalizeTag x))) as [H1 H2]. split.
      * intros Hout. by apply H1, NoDup_add.
      * intros t. rewrite H2, elem_of_add. apply truthy_true in E. split.
        -- intros [[?| ->]|(Hne & u & Hu & ->)]; [by left | right | right].
           ++ split; [done|]. exists x. split; [apply list_elem_of_here | done].
           ++ split; [done|]. exists u. split; [by apply list_elem_of_further | done].
        -- intros [?|(Hne & u & Hu & ->)]; [by left; left|].
           apply elem_of_cons in Hu as [->|Hu]; [by left; right|].
           right. split; [done|]. by exists u.
    + destruct (IH out) as [H1 H2]. split; [done|].
      intros t. rewrite H2. split.
      * intros [?|(Hne & u & Hu & ->)]; [by left | right].
        split; [done|]. exists u. split; [by apply list_elem_of_further | done].
      * intros [?|(Hne & u & Hu & ->)]; [by left|].
        apply elem_of_cons in Hu as [->|Hu].
        -- apply truthy_true in Hne. congruence.
        -- right. split; [done|]. by exists u.
Qed.

(** The tags of a row of the current backend: no duplicate, no empty
    string, every entry trimmed and lower-cased. *)
Lemma row_tags_normal (tm : gmap string (list string)) (c : RawChar) :
  NoDup (row_tags tm c)
  /\ forall t, t ∈ row_tags tm c -> t <> EmptyString /\ normalizeTag t = t.
Proof.
  unfold row_tags. split; [apply NoDup_of_list|].
  intros t. rewrite elem_of_of_list, elem_of_app.
  intros [Ht|Ht]; apply normalizeTagsLower_spec in Ht as (Hne & u & _ & ->);
    (split; [done | apply normalizeTag_idem]).
Qed.

End NormaliseTags.

(** ** The normalisation loop *)

Section Build.
Variable tags_of : RawChar -> list string.

Lemma rows_buildStore_with (p : Payload) :
  rows (buildStore_with tags_of p)
  = map (with_metrics (idf (buildStore_with tags_of p))) (norm_rows tags_of p).
Proof.
  unfold buildStore_with, norm_rows.
  destruct (foldl (add_character tags_of) _ _) as [byId0 rows0].
  by destruct (foldl index_row _ _) as [ids df].
Qed.

Lemma idf_buildStore_with (p : Payload) :
  idf (buildStore_with tags_of p)
  = computeIdf (tag_df (norm_rows tags_of p)) (length (norm_rows tags_of p)).
Proof.
  unfold buildStore_with, norm_rows, tag_df.
  destruct (foldl (add_character tags_of) _ _) as [byId0 rows0].
  by destruct (foldl index_row _ _) as [ids df].
Qed.

Lemma map_id_with_metrics (i : gmap string R) (l : list Row) :
  map id (map (with_metrics i) l) = map id l.
Proof. by rewrite map_map. Qed.

Lemma map_tags_with_metrics (i : gmap string R) (l : list Row) :
  map tags (map (with_metrics i) l) = map tags l.
Proof. by rewrite map_map. Qed.

(** The normalisation loop keeps the ids of the pushed rows distinct, keeps
    [byId] in step with them, and only pushes rows made by [new_row]. *)
Lemma add_characters_inv (cs : list RawChar) :
  forall (byId0 : gmap string Row) (rows0 : list Row),
    NoDup (map id rows0) ->
    (forall i, is_Some (byId0 !! i) <-> i ∈ map id rows0) ->
    Forall (fun r => exists c, r = new_row c (tags_of c)) rows0 ->
    NoDup (map id (foldl (add_character tags_of) (byId0, rows0) cs).2)
    /\ Forall (fun r => exists c, r = new_row c (tags_of c))
         (foldl (add_character tags_of) (byId0, rows0) cs).2.
Proof.
  induction cs as [|c cs IH]; intros byId0 rows0 Hnd Hby Hnew; [done|].
  cbn [foldl]. unfold add_character at 2 4.
  case_bool_decide as Hin; [by apply IH|].
  apply IH.
  - rewrite map_app. simpl. apply NoDup_app. split_and!; [done | | apply NoDup_singleton].
    intros i Hi ->%list_elem_of_singleton. by apply Hin, Hby.
  - intros i. rewrite map_app, elem_of_app. simpl.
    rewrite list_elem_of_singleton, lookup_insert_is_Some, Hby.
    split; [intros [-> | [_ ?]]; auto | intros [? | ->]; [|by left]].
    destruct (decide (deriveId c = i)); [by left | by right].
  - apply Forall_app. split; [done|]. apply Forall_singleton. by exists c.
Qed.

Lemma norm_rows_inv (p : Payload) :
  NoDup (map id (norm_rows tags_of p))
  /\ Forall (fun r => exists c, r = new_row c (tags_of c)) (norm_rows tags_of p).
Proof.
  apply (add_characters_inv (characters p) ∅ []).
  - apply NoDup_nil_2.
  - intros i. rewrite lookup_empty, elem_of_nil. split; [by intros [? ?] | done].
  - apply Forall_nil_2.
Qed.

(** Ids are unique among the rows of a built store. *)
Lemma ids_unique (p : Payload) :
  NoDup (map id (rows (buildStore_with tags_of p))).
Proof.
  rewrite rows_buildStore_with, map_id_with_metrics. apply norm_rows_inv.
Qed.

Lemma rows_tags_of (p : Payload) (r : Row) :
  r ∈ rows (buildStore_with tags_of p) -> exists c, tags r = tags_of c.
Proof.
  rewrite rows_buildStore_with. intros (r0 & -> & Hr0)%list_elem_of_fmap.
  destruct (norm_rows_inv p) as [_ Hnew].
  rewrite Forall_forall in Hnew. destruct (Hnew r0 Hr0) as [c ->].
  by exists c.
Qed.

End Build.

(** The invariant of the rows built by the current backend. *)
Lemma build_invariant (p : Payload) :
  NoDup (map id (rows (buildStore p)))
  /\ forall r, r ∈ rows (buildStore p) ->
       NoDup (tags r)
       /\ forall t, t ∈ tags r -> t <> EmptyString /\ normalizeTag t = t.
Proof.
  split; [apply ids_unique|].
  intros r [c ->]%rows_tags_of. apply row_tags_normal.
Qed.

(** ** The IDF table *)

Section Idf.

Lemma computeIdf_lookup (tagToDf : gmap string nat) (N : nat) (t : string) :
  computeIdf tagToDf N !! t = idf_weight N <$> tagToDf !! t.
Proof.
  unfold computeIdf.
  apply (map_fold_weak_ind
           (fun (r : gmap string R) (m : gmap string nat) =>
              r !! t = idf_weight N <$> m !! t)).
  - by rewrite !lookup_empty.
  - intros i x m r _ IH.
    destruct (decide (i = t)) as [->|Hne].
    + by rewrite !lookup_insert_eq.
    + by rewrite !lookup_insert_ne.
Qed.

(** The inner loop of the tag index: each tag of the row that was not seen
    before counts once. *)
Lemma index_tags_df (rid : string) (l : list string) :
  forall (seen : list string) (ids : gmap string (list string))
         (df : gmap string nat) (t : string),
    (foldl (index_tag rid) (seen, ids, df) l).2 !! t
    = if decide (t ∈ l /\ t ∉ seen)
      then Some (default 0 (df !! t) + 1) else df !! t.
Proof.
  induction l as [|x l IH]; intros seen ids df t.
  - simpl. destruct (decide (t ∈ [] /\ t ∉ seen)) as [[Ht _]|_];
      [by apply elem_of_nil in Ht | done].
  - cbn [foldl]. unfold index_tag at 2.
    destruct (JsSet.has seen x) eqn:Hx.
    + apply has_true in Hx. rewrite IH.
      destruct (decide (t ∈ l /\ t ∉ seen)) as [[H1 H2]|Hn].
      * rewrite decide_True; [done|]. split; [by apply list_elem_of_further | done].
      * rewrite decide_False; [done|].
        intros [[->|H1]%elem_of_cons H2]; [done | by apply Hn].
    + apply has_false in Hx. rewrite IH.
      destruct (decide (t = x)) as [->|Hne].
      * rewrite decide_False.
        2:{ intros [_ H2]. apply H2, elem_of_add. by right. }
        rewrite lookup_insert_eq.
        rewrite decide_True; [done|]. split; [apply list_elem_of_here | done].
      * rewrite lookup_insert_ne by done.
        destruct (decide (t ∈ l /\ t ∉ seen)) as [[H1 H2]|Hn].
        -- rewrite decide_True.
           2:{ split; [done|]. rewrite elem_of_add. intros [?|?]; done. }
           rewrite decide_True; [done|]. split; [by apply list_elem_of_further | done].
        -- rewrite decide_False.
           2:{ intros [H1 H2]. apply Hn. split; [done|].
               intros Hs. apply H2, elem_of_add. by left. }
           rewrite decide_False; [done|].
           intros [[->|H1]%elem_of_cons H2]; [done | by apply Hn].
Qed.

Lemma index_row_df (ids : gmap string (list string)) (df : gmap string nat)
    (r : Row) (t : string) :
  (index_row (ids, df) r).2 !! t
  = if decide (t ∈ tags r) then Some (default 0 (df !! t) + 1) else df !! t.
Proof.
  unfold index_row.
  pose proof (index_tags_df (id r) (tags r) [] ids df t) as H.
  destruct (foldl (index_tag (id r)) ([], ids, df) (tags r)) as [[seen ids'] df'].
  simpl in *. rewrite H.
  destruct (decide (t ∈ tags r)) as [Ht|Ht].
  - rewrite decide_True; [done|]. split; [done | apply not_elem_of_nil].
  - rewrite decide_False; [done|]. by intros [? _].
Qed.

Lemma index_rows_df (rs : list Row) (t : string) :
  forall (ids : gmap string (list string)) (df : gmap string nat),
    (foldl index_row (ids, df) rs).2 !! t = bump (df !! t) (doc_freq t rs).
Proof.
  unfold doc_freq.
  induction rs as [|r rs IH]; intros ids df; [done|].
  cbn [foldl].
  destruct (index_row (ids, df) r) as [ids' df'] eqn:E.
  rewrite IH. pose proof (index_row_df ids df r t) as H.
  rewrite E in H. simpl in H. rewrite H, filter_cons.
  destruct (decide (t ∈ tags r)); [|done].
  simpl. destruct (length _); simpl; f_equal; lia.
Qed.

Lemma tag_df_lookup (rs : list Row) (t : string) :
  tag_df rs !! t
  = match doc_freq t rs with O => None | S n => Some (S n) end.
Proof.
  unfold tag_df. rewrite index_rows_df, lookup_empty.
  by destruct (doc_freq t rs).
Qed.

Lemma doc_freq_with_metrics (i : gmap string R) (rs : list Row) (t : string) :
  doc_freq t (map (with_metrics i) rs) = doc_freq t rs.
Proof.
  unfold doc_freq. induction rs as [|r rs IH]; [done|].
  cbn [map]. rewrite !filter_cons. simpl tags.
  destruct (decide (t ∈ tags r)); simpl; by rewrite IH.
Qed.

Lemma doc_freq_le (rs : list Row) (t : string) : doc_freq t rs <= length rs.
Proof. apply length_filter. Qed.

(** The IDF table of a built store, for either copy of [buildStore]. *)
Lemma idf_built (tags_of : RawChar -> list string) (p : Payload) (t : string) :
  let st := buildStore_with tags_of p in
  idf st !! t
  = match doc_freq t (rows st) with
    | O => None
    | S n => Some (idf_weight (length (rows st)) (S n))
    end.
Proof.
  intros st. subst st.
  rewrite rows_buildStore_with, doc_freq_with_metrics, length_map.
  rewrite idf_buildStore_with, computeIdf_lookup, tag_df_lookup.
  by destruct (doc_freq t _).
Qed.

Local Open Scope R_scope.

Lemma idf_weight_decreasing (N df1 df2 : nat) :
  (df1 < df2)%nat -> idf_weight N df2 < idf_weight N df1.
Proof.
  intros Hlt. unfold idf_weight.
  apply lt_INR in Hlt.
  pose proof (pos_INR N). pose proof (pos_INR df1).
  assert ((INR N + 1) / (INR df2 + 1) < (INR N + 1) / (INR df1 + 1)) as H1.
  { unfold Rdiv. apply Rmult_lt_compat_l; [lra|].
    apply Rinv_lt_contravar; [nra | lra]. }
  assert (0 < (INR N + 1) / (INR df2 + 1)) as H2
    by (apply Rdiv_lt_0_compat; lra).
  pose proof (ln_increasing _ _ H2 H1). lra.
Qed.

Lemma idf_weight_full (N : nat) : idf_weight N N = 1.
Proof.
  unfold idf_weight. pose proof (pos_INR N).
  replace ((INR N + 1) / (INR N + 1)) with 1 by (field; lra).
  rewrite ln_1. lra.
Qed.

Lemma idf_weight_ge_1 (N df : nat) : (df <= N)%nat -> 1 <= idf_weight N df.
Proof.
  intros Hle. destruct (decide (df = N)) as [->|Hne].
  - rewrite idf_weight_full. lra.
  - assert (df < N)%nat as Hlt by lia.
    pose proof (idf_weight_decreasing N df N Hlt) as H.
    rewrite idf_weight_full in H. lra.
Qed.

End Idf.

(** ** Token search *)

Section Search.
Variable tm : gmap string (list string).

Lemma search_loop_from (toks : list string) :
  forall cur, exists res,
    Query.search_loop tm (Some cur) toks = Some res
    /\ forall x, x ∈ res <-> x ∈ cur /\ forall t, t ∈ toks -> x ∈ posting tm t.
Proof.
  induction toks as [|t toks IH]; intros cur.
  - exists cur. split; [done|]. intros x. split; [|by intros [? _]].
    intros Hx. split; [done|]. intros t Ht. by apply elem_of_nil in Ht.
  - cbn [Query.search_loop].
    set (cur' := filter (fun x => JsSet.has (default [] (tm !! t)) x = true) cur).
    assert (forall x, x ∈ cur' <-> x ∈ cur /\ x ∈ posting tm t) as Hcur'.
    { intros x. unfold cur'. rewrite list_elem_of_filter, has_true.
      unfold posting. tauto. }
    destruct (JsSet.size cur' =? 0)%nat eqn:E.
    + exists cur'. split; [done|].
      apply Nat.eqb_eq in E. apply nil_length_inv in E.
      intros x. split.
      * rewrite E. by intros ?%elem_of_nil.
      * intros [Hx Hall]. apply Hcur'. split; [done|].
        apply Hall, list_elem_of_here.
    + destruct (IH cur') as (res & Hres & Hmem). exists res. split; [done|].
      intros x. rewrite Hmem, Hcur'. split.
      * intros [[Hx Ht] Hall]. split; [done|].
        intros t' [->|Ht']%elem_of_cons; auto.
      * intros [Hx Hall]. split_and!; [done | apply Hall, list_elem_of_here |].
        intros t' Ht'. by apply Hall, list_elem_of_further.
Qed.

Lemma search_loop_start (t : string) (toks : list string) :
  exists res,
    Query.search_loop tm None (t :: toks) = Some res
    /\ forall x, x ∈ res <-> forall t', t' ∈ t :: toks -> x ∈ posting tm t'.
Proof.
  cbn [Query.search_loop].
  set (cur' := JsSet.of_list (default [] (tm !! t))).
  assert (forall x, x ∈ cur' <-> x ∈ posting tm t) as Hcur'
    by (intros x; apply elem_of_of_list).
  destruct (JsSet.size cur' =? 0)%nat eqn:E.
  - exists cur'. split; [done|].
    apply Nat.eqb_eq in E. apply nil_length_inv in E.
    intros x. split.
    + rewrite E. by intros ?%elem_of_nil.
    + intros Hall. apply Hcur', Hall, list_elem_of_here.
  - destruct (search_loop_from toks cur') as (res & Hres & Hmem).
    exists res. split; [done|].
    intros x. rewrite Hmem, Hcur'. split.
    + intros [Ht Hall] t' [->|Ht']%elem_of_cons; auto.
    + intros Hall. split; [apply Hall, list_elem_of_here|].
      intros t' Ht'. by apply Hall, list_elem_of_further.
Qed.

End Search.

Lemma searchTokens_nonempty (store : Store) (q : string) :
  tokens_of q <> [] ->
  forall x, x ∈ Query.searchTokens store q
            <-> forall t, t ∈ tokens_of q -> x ∈ posting (tokenMap store) t.
Proof.
  intros Hne. unfold Query.searchTokens.
  destruct (tokens_of q) as [|t toks]; [done|].
  destruct (search_loop_start (tokenMap store) t toks) as (res & -> & Hmem).
  done.
Qed.

Lemma nil_by_members {A : Type} (l : list A) :
  (forall x, x ∉ l) -> l = [].
Proof.
  destruct l as [|x l]; [done|]. intros H.
  destruct (H x). apply list_elem_of_here.
Qed.


(** ** The filter *)

Section Filter.
Local Open Scope R_scope.

Lemma Rltb_true (x y : R) : Rltb x y = true <-> x < y.
Proof. unfold Rltb. destruct (Rlt_dec x y); split; done. Qed.

Lemma Rltb_false (x y : R) : Rltb x y = false <-> y <= x.
Proof.
  unfold Rltb. destruct (Rlt_dec x y); split; try done; lra.
Qed.

Lemma filter_loop (be : BoolExpr.t) (kMin kMax rMin rMax : R)
    (rs : list Row) :
  forall out,
    foldl (Query.filter_step be kMin kMax rMin rMax) out rs
    = out ++ filter (passes be kMin kMax rMin rMax) rs.
Proof.
  induction rs as [|r rs IH]; intros out; [by rewrite app_nil_r|].
  cbn [foldl]. rewrite IH, filter_cons. unfold Query.filter_step at 1.
  destruct (decide (passes be kMin kMax rMin rMax r)) as [Hp|Hn].
  - destruct Hp as (He & H1 & H2 & H3 & H4). rewrite He.
    rewrite (proj2 (Rltb_false _ _) H1), (proj2 (Rltb_false _ _) H2).
    rewrite (proj2 (Rltb_false _ _) H3), (proj2 (Rltb_false _ _) H4).
    simpl. by rewrite <- app_assoc.
  - destruct (eval be (tags r)) eqn:He; [|done]. simpl.
    destruct (Rltb (INR (tag_count r)) kMin) eqn:E1; [done|].
    destruct (Rltb kMax (INR (tag_count r))) eqn:E2; [done|].
    destruct (Rltb (sigma_idf r) rMin) eqn:E3; [done|].
    destruct (Rltb rMax (sigma_idf r)) eqn:E4; [done|].
    apply Rltb_false in E1, E2, E3, E4. by destruct Hn.
Qed.

Lemma filter_passes (store : Store) (o : FilterOpts) :
  Query.filter store o
  = filter (passes (parseBoolExpr (expr o))
              (default Query.default_tagCountMin (tagCountMin o))
              (default Query.default_tagCountMax (tagCountMax o))
              (default Query.default_rarityMin (rarityMin o))
              (default Query.default_rarityMax (rarityMax o)))
           (rows store).
Proof. unfold Query.filter. by rewrite filter_loop. Qed.

Lemma sigma_sum (i : gmap string R) (r : Row) :
  sigma_idf (with_metrics i r) = rsum (fun t => num_or (i !! t) 0) (tags r).
Proof. unfold with_metrics. simpl. rewrite foldl_radd. lra. Qed.

(** The metrics of a row of a built store: [tag_count] is the number of its
    tags and [sigma_idf] the sum of their IDF weights, which is not
    negative. *)
Lemma built_row_metrics (tags_of : RawChar -> list string) (p : Payload)
    (r : Row) :
  let st := buildStore_with tags_of p in
  r ∈ rows st ->
  tag_count r = length (tags r)
  /\ sigma_idf r = rsum (fun t => num_or (idf st !! t) 0) (tags r)
  /\ 0 <= sigma_idf r.
Proof.
  intros st Hr. subst st.
  assert (forall t, 0 <= num_or (idf (buildStore_with tags_of p) !! t) 0) as Hpos.
  { intros t. rewrite idf_built.
    pose proof (doc_freq_le (rows (buildStore_with tags_of p)) t) as Hle.
    destruct (doc_freq t _) as [|n]; simpl; [lra|].
    pose proof (idf_weight_ge_1 _ _ Hle) as Hge.
    destruct (is_zero _); lra. }
  rewrite rows_buildStore_with in Hr.
  apply list_elem_of_fmap in Hr as (r0 & -> & _).
  rewrite sigma_sum. unfold with_metrics at 1 2 3. cbn [tag_count tags].
  split_and!; [done | done |].
  generalize (tags r0). intros l. induction l as [|t l IH]; simpl; [lra|].
  specialize (Hpos t). lra.
Qed.

End Filter.

Section FilterIdentity.
Local Open Scope R_scope.

Lemma filter_ext_in {A : Type} (P Q : A -> Prop)
    `{forall x, Decision (P x)} `{forall x, Decision (Q x)} (l : list A) :
  (forall x, x ∈ l -> P x <-> Q x) -> filter P l = filter Q l.
Proof.
  induction l as [|x l IH]; intros HPQ; [done|].
  rewrite !filter_cons.
  rewrite IH by (intros y Hy; by apply HPQ, list_elem_of_further).
  pose proof (HPQ x (list_elem_of_here _ _)) as Hx.
  destruct (decide (P x)), (decide (Q x)); tauto.
Qed.

Lemma filter_all {A : Type} (P : A -> Prop) `{forall x, Decision (P x)}
    (l : list A) :
  (forall x, x ∈ l -> P x) -> filter P l = l.
Proof.
  induction l as [|x l IH]; intros HP; [done|].
  rewrite filter_cons_True by apply HP, list_elem_of_here.
  f_equal. apply IH. intros y Hy. by apply HP, list_elem_of_further.
Qed.

(** With a blank expression, a lower bound on the tag count that is not
    positive and the other bounds left out, [filter] on a built store keeps
    exactly the rows within the default caps, in the order of [rows]. *)
Lemma filter_identity_with (tags_of : RawChar -> list string) (p : Payload)
    (ws : string) (kMin : option R) :
  all_chars is_space ws = true ->
  default Query.default_tagCountMin kMin <= 0 ->
  Query.filter (buildStore_with tags_of p) (open_filter ws kMin)
  = filter within_caps (rows (buildStore_with tags_of p)).
Proof.
  intros Hws Hk. rewrite filter_passes. cbn [open_filter expr tagCountMin
    tagCountMax rarityMin rarityMax default].
  rewrite parse_blank by done.
  apply filter_ext_in. intros r Hr.
  destruct (built_row_metrics tags_of p r Hr) as (_ & _ & Hsig).
  pose proof (pos_INR (tag_count r)).
  unfold passes, within_caps, Query.default_rarityMin. cbn [eval].
  split; [tauto|]. intros [? ?]. split_and!; try done; lra.
Qed.

End FilterIdentity.

Section SmallCorpus.
Local Open Scope R_scope.

Lemma ln_le_pred (x : R) : 0 < x -> ln x <= x - 1.
Proof.
  intros Hx. pose proof (exp_ineq1_le (ln x)) as H.
  rewrite exp_ln in H by done. lra.
Qed.

(** No weight of the table exceeds the number of documents plus one. *)
Lemma idf_weight_le (N df : nat) : idf_weight N df <= INR N + 1.
Proof.
  unfold idf_weight. pose proof (pos_INR N). pose proof (pos_INR df).
  assert (0 < (INR N + 1) / (INR df + 1)) as Hpos
    by (apply Rdiv_lt_0_compat; lra).
  pose proof (ln_le_pred _ Hpos) as Hln.
  assert ((INR N + 1) / (INR df + 1) <= INR N + 1) as Hle.
  { apply (Rmult_le_reg_r (INR df + 1)); [lra|].
    unfold Rdiv. rewrite Rmult_assoc, Rinv_l by lra. nra. }
  lra.
Qed.

(** The rarity sum of a built row is at most its tag count times the number
    of documents plus one. *)
Lemma built_sigma_le (tags_of : RawChar -> list string) (p : Payload)
    (r : Row) :
  let st := buildStore_with tags_of p in
  r ∈ rows st ->
  sigma_idf r <= INR (tag_count r) * (INR (length (rows st)) + 1).
Proof.
  intros st Hr.
  destruct (built_row_metrics tags_of p r Hr) as (-> & -> & _).
  fold st.
  assert (forall t, num_or (idf st !! t) 0 <= INR (length (rows st)) + 1)
    as Hle.
  { intros t. subst st. rewrite idf_built.
    pose proof (pos_INR (length (rows (buildStore_with tags_of p)))).
    destruct (doc_freq t _) as [|n]; simpl; [lra|].
    pose proof (idf_weight_le (length (rows (buildStore_with tags_of p))) (S n)).
    destruct (is_zero _); lra. }
  generalize (tags r). intros l.
  induction l as [|t l IH]; [simpl; lra|].
  cbn [rsum length]. rewrite S_INR. specialize (Hle t). lra.
Qed.

Lemma small_rows_within_caps (tags_of : RawChar -> list string) (p : Payload)
    (r : Row) :
  let st := buildStore_with tags_of p in
  r ∈ rows st ->
  INR (tag_count r) * (INR (length (rows st)) + 1) <= 1000000000 ->
  within_caps r.
Proof.
  intros st Hr Hsmall. pose proof (built_sigma_le tags_of p r Hr) as Hs.
  fold st in Hs. pose proof (pos_INR (tag_count r)).
  pose proof (pos_INR (length (rows st))).
  unfold within_caps, Query.default_tagCountMax, Query.default_rarityMax.
  split; [nra | lra].
Qed.

(** On a corpus of that size the filter without expression and upper bounds
    returns every row. *)
Lemma filter_identity_small (tags_of : RawChar -> list string) (p : Payload)
    (ws : string) (kMin : option R) :
  let st := buildStore_with tags_of p in
  all_chars is_space ws = true ->
  default Query.default_tagCountMin kMin <= 0 ->
  (forall r, r ∈ rows st ->
     INR (tag_count r) * (INR (length (rows st)) + 1) <= 1000000000) ->
  Query.filter st (open_filter ws kMin) = rows st.
Proof.
  intros st Hws Hk Hsmall. subst st.
  rewrite filter_identity_with by done.
  apply filter_all. intros r Hr.
  apply (small_rows_within_caps tags_of p r Hr). by apply Hsmall.
Qed.

End SmallCorpus.

(** ** The claims about the store *)

Section StoreClaims.

(** C6.  A query without tokens returns the set of all ids of the store;
    otherwise an id is returned iff it is in the posting set of every token
    of the query.  So a token without postings empties the result, and so
    do two tokens whose posting sets are disjoint. *)
Theorem search_tokens_semantics (store : Store) (q : string) :
  (tokens_of q = [] ->
     Query.searchTokens store q = JsSet.of_list (map id (rows store))
     /\ forall x, x ∈ Query.searchTokens store q
                  <-> exists r, r ∈ rows store /\ id r = x)
  /\ (tokens_of q <> [] ->
        forall x, x ∈ Query.searchTokens store q
                  <-> forall t, t ∈ tokens_of q ->
                        x ∈ default [] (tokenMap store !! t))
  /\ (forall t, t ∈ tokens_of q -> tokenMap store !! t = None ->
        Query.searchTokens store q = [])
  /\ (forall t1 t2, t1 ∈ tokens_of q -> t2 ∈ tokens_of q ->
        (forall x, x ∈ default [] (tokenMap store !! t1) ->
                   x ∉ default [] (tokenMap store !! t2)) ->
        Query.searchTokens store q = [])
  /\ tokens_of "" = [] /\ tokens_of " -- !" = []
  /\ tokens_of "zzzznotfound" = ["zzzznotfound"]
  /\ tokens_of "Ann-Marie 2" = ["ann"; "marie"; "2"].
Proof.
  split_and!; try done.
  - intros E. unfold Query.searchTokens. rewrite E. split; [done|].
    intros x. rewrite elem_of_of_list, list_elem_of_fmap.
    split; intros (r & ? & ?); by exists r.
  - apply searchTokens_nonempty.
  - intros t Ht Hnone. apply nil_by_members. intros x Hx.
    assert (tokens_of q <> []) as Hne
      by (intros E; rewrite E in Ht; by apply elem_of_nil in Ht).
    pose proof (proj1 (searchTokens_nonempty store q Hne x) Hx t Ht) as Hp.
    unfold posting in Hp. rewrite Hnone in Hp. by apply elem_of_nil in Hp.
  - intros t1 t2 Ht1 Ht2 Hdisj. apply nil_by_members. intros x Hx.
    assert (tokens_of q <> []) as Hne
      by (intros E; rewrite E in Ht1; by apply elem_of_nil in Ht1).
    pose proof (proj1 (searchTokens_nonempty store q Hne x) Hx) as Hall.
    apply (Hdisj x); by apply Hall.
Qed.

Local Open Scope R_scope.

(** C3.  [computeIdf] gives each tag of the table the weight
    [ln((N+1)/(df+1)) + 1]; in a built store (either copy of [buildStore])
    [N] is the number of rows, which have distinct ids, and [df] the number
    of rows that carry the tag; for a fixed [N] the weight falls strictly as
    [df] grows, and at [df = N] it is still positive. *)
Theorem idf_table_weights (p : Payload) (tagToDf : gmap string nat)
    (N df1 df2 : nat) (t : string) :
  (df1 < df2)%nat ->
  computeIdf tagToDf N !! t = idf_weight N <$> tagToDf !! t
  /\ idf (buildStore p) !! t
     = match doc_freq t (rows (buildStore p)) with
       | O => None
       | S n => Some (idf_weight (length (rows (buildStore p))) (S n))
       end
  /\ idf (buildStore_legacy p) !! t
     = match doc_freq t (rows (buildStore_legacy p)) with
       | O => None
       | S n => Some (idf_weight (length (rows (buildStore_legacy p))) (S n))
       end
  /\ NoDup (map id (rows (buildStore p)))
  /\ idf_weight N df2 < idf_weight N df1
  /\ 0 < idf_weight N N.
Proof.
  intros Hlt. split_and!.
  - apply computeIdf_lookup.
  - apply idf_built.
  - apply idf_built.
  - apply ids_unique.
  - by apply idf_weight_decreasing.
  - rewrite idf_weight_full. lra.
Qed.

(** C3 on the scenario of the specification: with three documents, a tag in
    all three weighs less than a tag in two of them. *)
Lemma idf_table_weights_witness :
  (2 < 3)%nat /\ idf_weight 3 3 < idf_weight 3 2.
Proof.
  assert (2 < 3)%nat as H by lia.
  split; [exact H|].
  exact (proj1 (proj2 (proj2 (proj2 (proj2
           (idf_table_weights scenario ∅ 3 2 3 "a" H)))))).
Defined.

Local Close Scope R_scope.

(** The tags of a row of the older copy: not empty, trimmed and lower-cased,
    but possibly repeated. *)
Lemma legacy_tags_normal (c : RawChar) (t : string) :
  t ∈ legacy_tags c -> t <> EmptyString /\ normalizeTag t = t.
Proof.
  unfold legacy_tags. rewrite list_elem_of_In, filter_In, in_map_iff.
  intros [(u & <- & _) Ht]. split; [by apply truthy_true|].
  apply normalizeTag_idem.
Qed.

Lemma legacy_invariant (p : Payload) :
  NoDup (map id (rows (buildStore_legacy p)))
  /\ forall r t, r ∈ rows (buildStore_legacy p) -> t ∈ tags r ->
       t <> EmptyString /\ normalizeTag t = t.
Proof.
  split; [apply ids_unique|].
  intros r t [c E]%rows_tags_of. rewrite E. apply legacy_tags_normal.
Qed.

(** C9.  In the older copy of [buildStore] a tag that is spelled twice in
    the payload stays twice in the row, so the tags of a built row can hold
    a duplicate; the current copy unites them (see [build_invariant]). *)
Theorem legacy_keeps_duplicates :
  map tags (rows (buildStore_legacy dup_payload)) = [["a"; "a"]]
  /\ ~ (forall r, r ∈ rows (buildStore_legacy dup_payload) -> NoDup (tags r))
  /\ map tags (rows (buildStore dup_payload)) = [["a"]].
Proof.
  assert (map tags (rows (buildStore_legacy dup_payload)) = [["a"; "a"]])
    as E.
  { unfold buildStore_legacy.
    rewrite rows_buildStore_with, map_tags_with_metrics. reflexivity. }
  split_and!.
  - done.
  - intros H.
    assert (Forall (fun ts => NoDup ts)
              (map tags (rows (buildStore_legacy dup_payload)))) as HF.
    { apply Forall_fmap, Forall_forall. intros r Hr. by apply H. }
    rewrite E in HF. apply Forall_cons in HF as [Hnd _].
    apply NoDup_cons in Hnd as [Hnd _]. apply Hnd, list_elem_of_here.
  - unfold buildStore.
    rewrite rows_buildStore_with, map_tags_with_metrics. reflexivity.
Qed.

End StoreClaims.

(** ** The scenario of the specification *)

Section Scenario.

(** Three documents tagged [a b], [b c] and [a b c]. *)
Example scenario_rows :
  map (fun r => (id r, tags r, tag_count r)) (rows (buildStore scenario))
  = [("1", ["a"; "b"], 2); ("2", ["b"; "c"], 2); ("3", ["a"; "b"; "c"], 3)].
Proof.
  unfold buildStore. rewrite rows_buildStore_with, map_map. reflexivity.
Qed.

Local Open Scope R_scope.

(** [N = 3], [df(a) = df(c) = 2] and [df(b) = 3], so [idf(b) < idf(a)] and
    [idf(a) = idf(c)]. *)
Example scenario_idf :
  idf (buildStore scenario) !! "a" = Some (idf_weight 3 2)
  /\ idf (buildStore scenario) !! "b" = Some (idf_weight 3 3)
  /\ idf (buildStore scenario) !! "c" = Some (idf_weight 3 2)
  /\ idf_weight 3 3 < idf_weight 3 2.
Proof.
  unfold buildStore. rewrite !idf_built.
  rewrite rows_buildStore_with, !doc_freq_with_metrics, length_map.
  split_and!; [reflexivity.. |]. apply idf_weight_decreasing. lia.
Qed.

(** Jaccard of the first document with the third is [2/3], with the second
    [1/3]. *)
Example scenario_jaccard (store : Store) :
  Query.tagSimilarity store
    (sample_row ["a"; "b"]) (sample_row ["a"; "b"; "c"]) default_sim_opts
  = 2 / 3
  /\ Query.tagSimilarity store
       (sample_row ["a"; "b"]) (sample_row ["b"; "c"]) default_sim_opts
     = 1 / 3.
Proof.
  unfold Query.tagSimilarity, default_sim_opts. cbn [mode]. mode_tests.
  split.
  - change (Query.count_inter _ _) with 2%nat.
    change (JsSet.size _) with 3%nat. simpl. lra.
  - change (Query.count_inter _ _) with 1%nat.
    change (JsSet.size _) with 3%nat. simpl. lra.
Qed.

(** The filter without expression and bounds returns the three documents
    in their order. *)
Example scenario_filter_all :
  Query.filter (buildStore scenario) (open_filter EmptyString None)
  = rows (buildStore scenario).
Proof.
  apply (filter_identity_small (row_tags (tag_map scenario)) scenario).
  - done.
  - cbn. unfold Query.default_tagCountMin. lra.
  - fold (buildStore scenario). intros r Hr.
    assert (length (rows (buildStore scenario)) = 3%nat) as ->
      by (rewrite <- (length_map (fun r => (id r, tags r, tag_count r))),
            scenario_rows; done).
    assert ((id r, tags r, tag_count r)
              ∈ map (fun r => (id r, tags r, tag_count r))
                    (rows (buildStore scenario))) as Hin
      by (apply list_elem_of_In,
            (in_map (fun r => (id r, tags r, tag_count r))), list_elem_of_In, Hr).
    rewrite scenario_rows, !elem_of_cons, elem_of_nil in Hin.
    assert ((tag_count r <= 3)%nat) as Hle
      by (destruct Hin as [E|[E|[E|[]]]]; injection E as _ _ ->; lia).
    apply le_INR in Hle. simpl in Hle |- *. lra.
Qed.

End Scenario.

Section MoreExpressions.
#[local] Arguments String.append !_ _ / : simpl nomatch.

Lemma tokenize_amp (r : string) : tokenize (String "&" r) = TAnd :: tokenize r.
Proof. by rewrite tokenize_cons. Qed.

Lemma tokenize_bar (r : string) : tokenize (String "|" r) = TOr :: tokenize r.
Proof. by rewrite tokenize_cons. Qed.

Lemma tokenize_bang (r : string) : tokenize (String "!" r) = TNot :: tokenize r.
Proof. by rewrite tokenize_cons. Qed.

(** A character whose upper-case form is a letter is a letter: it ends no
    word and opens no quoted phrase. *)
Lemma upper_letter (c : ascii) :
  is_upper (upper_char c) = true -> is_delim c = false /\ is_quote c = false.
Proof.
  destruct c as [[] [] [] [] [] [] [] []]; vm_compute; intros; try done.
Qed.

Lemma all_upper_bare (w : string) :
  w <> EmptyString -> all_chars is_upper (toUpperCase w) = true ->
  bare_word w = true.
Proof.
  intros Hne Hw. unfold bare_word. apply andb_true_iff. split.
  - destruct w as [|c w]; [done|]. simpl in Hw.
    apply andb_true_iff in Hw as [Hc _].
    apply upper_letter in Hc as [_ ->]. done.
  - clear Hne. induction w as [|c w IH]; [done|].
    simpl in Hw |- *. apply andb_true_iff in Hw as [Hc Hw].
    apply upper_letter in Hc as [-> _]. by rewrite IH.
Qed.

Lemma keyword_bare (kw : string) : is_keyword kw = true -> bare_word kw = true.
Proof.
  unfold is_keyword. intros H.
  apply all_upper_bare.
  - by destruct kw.
  - apply orb_true_iff in H as [H|H]; [apply orb_true_iff in H as [H|H]|];
      apply bool_decide_eq_true in H; by rewrite H.
Qed.

Lemma keyword_token (kw : string) :
  is_keyword kw = true -> word_token (toUpperCase kw) = word_token kw.
Proof.
  unfold is_keyword, word_token. intros H.
  apply orb_true_iff in H as [H|H]; [apply orb_true_iff in H as [H|H]|];
    apply bool_decide_eq_true in H; by rewrite H.
Qed.

Lemma keyword_upper (kw : string) :
  is_keyword kw = true -> is_keyword (toUpperCase kw) = true.
Proof.
  unfold is_keyword. intros H.
  apply orb_true_iff in H as [H|H]; [apply orb_true_iff in H as [H|H]|];
    apply bool_decide_eq_true in H; by rewrite H.
Qed.

Lemma parse_binary (a b kw : string) :
  bare_tag a = true -> bare_tag b = true -> bare_word kw = true ->
  parseBoolExpr (a +:+ " " +:+ kw +:+ " " +:+ b)
  = plan_of (shunting_yard
               [TTag (normalizeTag a); word_token kw; TTag (normalizeTag b)]).
Proof.
  intros Ha Hb Hkw.
  pose proof (bare_tag_word _ Ha) as Ha'.
  pose proof (bare_tag_word _ Hb) as Hb'.
  assert (first_solid (a +:+ " " +:+ kw +:+ " ") = true) as Hf
    by by apply first_solid_app, bare_first_solid.
  rewrite parse_plan.
  - change (" " +:+ kw +:+ " " +:+ b) with (String " " (kw +:+ String " " b)).
    by rewrite tokens_binary.
  - replace (a +:+ " " +:+ kw +:+ " " +:+ b)
      with ((a +:+ " " +:+ kw +:+ " ") +:+ b)
      by (by rewrite !append_assoc).
    by apply trim_expr.
  - by apply first_solid_app, bare_first_solid.
Qed.

Lemma parse_symbol (a b : string) (c : ascii) :
  bare_tag a = true -> bare_tag b = true ->
  is_opchar c = true -> is_space c = false ->
  parseBoolExpr (a +:+ String c b)
  = plan_of (shunting_yard
               [TTag (normalizeTag a); opchar_token c; TTag (normalizeTag b)]).
Proof.
  intros Ha Hb Hc Hs.
  pose proof (bare_tag_word _ Ha) as Ha'.
  pose proof (bare_tag_word _ Hb) as Hb'.
  assert (is_delim c = true) as Hd
    by (unfold is_delim; rewrite Hc; by destruct (is_space c), (is_paren c)).
  assert (is_quote c = false /\ is_paren c = false) as [Hq Hp].
  { unfold is_opchar in Hc.
    destruct (decide (c = "!"%char)) as [->|?]; [done|].
    destruct (decide (c = "&"%char)) as [->|?]; [done|].
    destruct (decide (c = "|"%char)) as [->|?]; [done|].
    by rewrite !bool_decide_eq_false_2 in Hc. }
  rewrite parse_plan.
  - rewrite tokenize_word_then by (simpl; done).
    rewrite tokenize_cons, Hs, Hq, Hp, Hc.
    rewrite tokenize_word_last by done.
    by rewrite (word_token_tag a), (word_token_tag b).
  - replace (a +:+ String c b) with ((a +:+ String c "") +:+ b)
      by (by rewrite append_assoc).
    apply trim_expr; [by apply first_solid_app, bare_first_solid | done].
  - by apply first_solid_app, bare_first_solid.
Qed.

(** X1: the symbols [&], [|] and [!] are the operators [AND], [OR] and [NOT],
    with no blank needed around them, and the operator words are recognised
    in any mix of upper and lower case. *)
Theorem symbol_operators (a b kw : string) :
  bare_tag a = true -> bare_tag b = true ->
  parseBoolExpr (a +:+ "&" +:+ b) = parseBoolExpr (a +:+ " AND " +:+ b)
  /\ parseBoolExpr (a +:+ "|" +:+ b) = parseBoolExpr (a +:+ " OR " +:+ b)
  /\ parseBoolExpr ("!" +:+ a) = parseBoolExpr ("NOT " +:+ a)
  /\ (is_keyword kw = true ->
      parseBoolExpr (a +:+ " " +:+ kw +:+ " " +:+ b)
      = parseBoolExpr (a +:+ " " +:+ toUpperCase kw +:+ " " +:+ b)).
Proof.
  intros Ha Hb. split_and!.
  - rewrite (plan_and a b Ha Hb).
    change ("&" +:+ b) with (String "&" b).
    by rewrite (parse_symbol a b "&" Ha Hb).
  - rewrite (plan_or a b Ha Hb).
    change ("|" +:+ b) with (String "|" b).
    by rewrite (parse_symbol a b "|" Ha Hb).
  - rewrite (plan_not a Ha).
    pose proof (bare_tag_word _ Ha) as Ha'.
    rewrite parse_plan.
    + change ("!" +:+ a) with (String "!" a).
      rewrite tokenize_bang, tokenize_word_last by done.
      by rewrite (word_token_tag a).
    + change ("!" +:+ a) with ("!" +:+ a). by apply trim_expr.
    + done.
  - intros Hkw.
    rewrite (parse_binary a b kw Ha Hb (keyword_bare kw Hkw)).
    rewrite (parse_binary a b (toUpperCase kw) Ha Hb
               (keyword_bare _ (keyword_upper kw Hkw))).
    by rewrite keyword_token.
Qed.

Lemma symbol_operators_witness :
  bare_tag "x" = true /\ bare_tag "y" = true /\ is_keyword "aNd" = true
  /\ parseBoolExpr "x&y" = parseBoolExpr "x AND y"
  /\ parseBoolExpr "x aNd y" = parseBoolExpr "x AND y".
Proof.
  assert (bare_tag "x" = true) as Hx by reflexivity.
  assert (bare_tag "y" = true) as Hy by reflexivity.
  assert (is_keyword "aNd" = true) as Hk by reflexivity.
  split_and!; [exact Hx | exact Hy | exact Hk | |].
  - exact (proj1 (symbol_operators "x" "y" "aNd" Hx Hy)).
  - exact (proj2 (proj2 (proj2 (symbol_operators "x" "y" "aNd" Hx Hy))) Hk).
Defined.

(** *** Tags written side by side *)

Lemma sy_tags (l : list string) :
  forall out ops,
    foldl sy_step (out, ops) (map TTag l) = (out ++ map TTag l, ops).
Proof.
  induction l as [|v l IH]; intros out ops; simpl.
  - by rewrite app_nil_r.
  - rewrite IH. by rewrite <- app_assoc.
Qed.

Lemma writable_tags (l : list string) :
  Forall (fun v => bare_tag v = true) l -> writable (map TTag l).
Proof.
  intros H. unfold writable. rewrite Forall_map.
  eapply Forall_impl; [exact H|]. done.
Qed.

Lemma parse_render (ts : list token) :
  ts <> [] -> writable ts ->
  parseBoolExpr (render ts)
  = plan_of (shunting_yard (map (tmap normalizeTag) ts)).
Proof.
  intros Hne Hw. rewrite parse_plan.
  - by rewrite tokenize_render.
  - by apply trim_render.
  - by apply render_first_solid.
Qed.

(** X2: tags written side by side with no operator between them: every tag
    goes to the plan, and the value of the expression is the membership of
    the last one alone. *)
Theorem juxtaposed_tags (ws : list string) (w : string) (tags : list string) :
  Forall (fun v => bare_tag v = true) (ws ++ [w]) ->
  ast (parseBoolExpr (render (map TTag (ws ++ [w]))))
  = Some (map (fun v => TTag (normalizeTag v)) (ws ++ [w]))
  /\ eval (parseBoolExpr (render (map TTag (ws ++ [w])))) tags
     = bool_decide (normalizeTag w ∈ tags).
Proof.
  intros Hb.
  rewrite parse_render; [| by destruct ws | by apply writable_tags].
  rewrite map_map. simpl tmap.
  assert (shunting_yard (map (fun v => TTag (normalizeTag v)) (ws ++ [w]))
          = map (fun v => TTag (normalizeTag v)) (ws ++ [w])) as ->.
  { unfold shunting_yard.
    rewrite <- (map_map normalizeTag TTag), sy_tags. by rewrite app_nil_r. }
  split; [done|].
  unfold plan_of, eval, eval_postfix.
  rewrite map_app, foldl_app. done.
Qed.

Lemma juxtaposed_tags_witness :
  eval (parseBoolExpr "a b") ["a"] = false.
Proof.
  assert (Forall (fun v => bare_tag v = true) (["a"] ++ ["b"])) as H
    by (repeat constructor).
  exact (proj2 (juxtaposed_tags ["a"] "b" ["a"] H)).
Defined.

(** *** Repeated negation *)

Lemma sy_nots (n : nat) :
  forall out,
    foldl sy_step (out, [TNot]) (replicate n TNot)
    = (out ++ replicate n TNot, [TNot]).
Proof.
  induction n as [|n IH]; intros out; simpl.
  - by rewrite app_nil_r.
  - rewrite IH. by rewrite <- app_assoc.
Qed.

(** X3: a [NOT] in front of a [NOT] is popped to the plan before its operand
    arrives, so any run of [NOT]s in front of a tag negates once: two
    negations do not cancel. *)
Theorem repeated_negation (n : nat) (a : string) (tags : list string) :
  bare_tag a = true ->
  ast (parseBoolExpr (render (replicate (S n) TNot ++ [TTag a])))
  = Some (replicate n TNot ++ [TTag (normalizeTag a); TNot])
  /\ eval (parseBoolExpr (render (replicate (S n) TNot ++ [TTag a]))) tags
     = negb (bool_decide (normalizeTag a ∈ tags)).
Proof.
  intros Ha.
  rewrite parse_render; [| done |].
  2:{ unfold writable. apply Forall_app. split.
      - apply Forall_forall. intros t Ht.
        apply elem_of_replicate in Ht as [-> _]. done.
      - by constructor. }
  assert (map (tmap normalizeTag) (replicate (S n) TNot ++ [TTag a])
          = TNot :: replicate n TNot ++ [TTag (normalizeTag a)]) as ->.
  { rewrite map_app. simpl. f_equal. f_equal.
    induction n as [|n IH]; [done|]. simpl. by rewrite IH. }
  assert (shunting_yard (TNot :: replicate n TNot ++ [TTag (normalizeTag a)])
          = replicate n TNot ++ [TTag (normalizeTag a); TNot]) as ->.
  { unfold shunting_yard. simpl foldl at 1.
    rewrite foldl_app, sy_nots. simpl. by rewrite <- app_assoc. }
  split; [done|].
  unfold plan_of, eval, eval_postfix. rewrite foldl_app. done.
Qed.

Lemma repeated_negation_witness :
  eval (parseBoolExpr "NOT NOT a") ["a"] = false.
Proof.
  exact (proj2 (repeated_negation 1 "a" ["a"] eq_refl)).
Defined.

End MoreExpressions.

Section Parentheses.
#[local] Arguments String.append !_ _ / : simpl nomatch.

Lemma pop_to_paren_ops (pd : list token) :
  forall out,
    Forall (fun o => is_operator o = true) pd ->
    pop_to_paren out pd = (out ++ pd, []).
Proof.
  induction pd as [|o pd IH]; intros out Hpd; simpl.
  - by rewrite app_nil_r.
  - apply Forall_cons in Hpd as [Ho Hpd].
    rewrite bool_decide_eq_false_2 by (by intros ->).
    rewrite IH by done. by rewrite <- app_assoc.
Qed.

Lemma den_emap_tokens (e : bexp) (k : nat) :
  map (tmap normalizeTag) (toks k e) = toks k (emap normalizeTag e).
Proof. by rewrite toks_emap. Qed.

(** The state of the conversion after the tokens of a tree, from an empty
    output. *)
Lemma sy_tree (e : bexp) (k : nat) (ops : list token) :
  below k ops ->
  exists em pd,
    foldl sy_step ([], ops) (toks k e) = (em, pd ++ ops)
    /\ em ++ pd = post e
    /\ Forall (fun o => is_operator o = true /\ (k <= prec o)%nat) pd.
Proof.
  intros Hb. destruct (sy_run e k [] ops Hb) as (em & pd & E & P & F).
  exists em, pd. by rewrite E.
Qed.

(** X4: parentheses need not balance.  An opening parenthesis that is never
    closed stays in the plan, where evaluation skips it, so the expression
    reads as if it were closed at the end; a closing parenthesis that was
    never opened flushes the pending operators, so what stands before it is
    read as one parenthesised group. *)
Theorem unbalanced_parentheses (l r : bexp) (tags : list string) :
  Forall (fun v => bare_tag v = true) (etags l) ->
  Forall (fun v => bare_tag v = true) (etags r) ->
  let l' := emap normalizeTag l in
  let r' := emap normalizeTag r in
  ast (parseBoolExpr (render (toks 2 l ++ TAnd :: TLParen :: toks 1 r)))
  = Some (post l' ++ post r' ++ [TLParen; TAnd])
  /\ eval (parseBoolExpr (render (toks 2 l ++ TAnd :: TLParen :: toks 1 r)))
       tags
     = den tags l' && den tags r'
  /\ ast (parseBoolExpr (render (toks 1 l ++ TRParen :: TAnd :: toks 3 r)))
     = Some (post l' ++ post r' ++ [TAnd])
  /\ eval (parseBoolExpr (render (toks 1 l ++ TRParen :: TAnd :: toks 3 r)))
       tags
     = den tags l' && den tags r'.
Proof.
  intros Hl Hr l' r'. subst l' r'.
  assert (forall k, writable (toks k l)) as Wl
    by (intros k; by apply toks_writable).
  assert (forall k, writable (toks k r)) as Wr
    by (intros k; by apply toks_writable).
  assert (forall e1 e2 (tl : list token),
            foldl (eval_step tags) [] (post e1 ++ post e2 ++ tl)
            = foldl (eval_step tags) [den tags e2; den tags e1] tl) as Hev.
  { intros e1 e2 tl. by rewrite !foldl_app, !eval_post. }
  assert (forall l' r',
            shunting_yard (toks 2 l' ++ TAnd :: TLParen :: toks 1 r')
            = post l' ++ post r' ++ [TLParen; TAnd]) as E1.
  { intros l' r'. unfold shunting_yard. rewrite foldl_app.
    destruct (sy_tree l' 2 [] I) as (em & pd & -> & P & F).
    rewrite app_nil_r. cbn [foldl sy_step].
    rewrite <- (app_nil_r pd) at 1.
    rewrite (pop_ops_all TAnd pd em []); [| exact F | exact I].
    rewrite P. cbn [foldl sy_step].
    destruct (sy_run r' 1 (post l') [TLParen; TAnd]) as (em' & pd' & -> & P' & F');
      [by left|].
    rewrite <- P'. by rewrite <- !app_assoc. }
  assert (forall l' r',
            shunting_yard (toks 1 l' ++ TRParen :: TAnd :: toks 3 r')
            = post l' ++ post r' ++ [TAnd]) as E2.
  { intros l' r'. unfold shunting_yard. rewrite foldl_app.
    destruct (sy_tree l' 1 [] I) as (em & pd & -> & P & F).
    rewrite app_nil_r. cbn [foldl sy_step].
    rewrite pop_to_paren_ops
      by (eapply Forall_impl; [exact F|]; by intros ? [? _]).
    rewrite P. cbn [foldl sy_step pop_ops].
    destruct (sy_run r' 3 (post l') [TAnd]) as (em' & pd' & -> & P' & F');
      [right; simpl; lia|].
    rewrite <- P'. by rewrite <- !app_assoc. }
  assert (parseBoolExpr (render (toks 2 l ++ TAnd :: TLParen :: toks 1 r))
          = plan_of (post (emap normalizeTag l) ++ post (emap normalizeTag r)
                     ++ [TLParen; TAnd])) as ->.
  { rewrite parse_render.
    - rewrite map_app. cbn [map tmap].
      by rewrite !den_emap_tokens, E1.
    - intros E. by apply app_eq_nil in E as [_ ?].
    - unfold writable. apply Forall_app. split; [apply Wl|].
      do 2 (apply Forall_cons; split; [done|]). apply Wr. }
  assert (parseBoolExpr (render (toks 1 l ++ TRParen :: TAnd :: toks 3 r))
          = plan_of (post (emap normalizeTag l) ++ post (emap normalizeTag r)
                     ++ [TAnd])) as ->.
  { rewrite parse_render.
    - rewrite map_app. cbn [map tmap].
      by rewrite !den_emap_tokens, E2.
    - intros E. by apply app_eq_nil in E as [_ ?].
    - unfold writable. apply Forall_app. split; [apply Wl|].
      do 2 (apply Forall_cons; split; [done|]). apply Wr. }
  unfold plan_of, eval, ast, eval_postfix. rewrite !Hev.
  split_and!; done.
Qed.

Lemma unbalanced_parentheses_witness :
  eval (parseBoolExpr "a AND ( b OR c") ["a"; "c"] = true
  /\ eval (parseBoolExpr "a OR b ) AND c") ["a"] = false.
Proof.
  assert (Forall (fun v => bare_tag v = true) (etags (ETag "a"))) as Ha
    by (repeat constructor).
  assert (Forall (fun v => bare_tag v = true)
            (etags (EOr (ETag "b") (ETag "c")))) as Hbc
    by (repeat constructor).
  assert (Forall (fun v => bare_tag v = true)
            (etags (EOr (ETag "a") (ETag "b")))) as Hab
    by (repeat constructor).
  assert (Forall (fun v => bare_tag v = true) (etags (ETag "c"))) as Hc
    by (repeat constructor).
  split.
  - exact (proj1 (proj2 (unbalanced_parentheses
                           (ETag "a") (EOr (ETag "b") (ETag "c"))
                           ["a"; "c"] Ha Hbc))).
  - exact (proj2 (proj2 (proj2 (unbalanced_parentheses
                                  (EOr (ETag "a") (ETag "b")) (ETag "c")
                                  ["a"] Hab Hc)))).
Defined.

End Parentheses.

Section Quotes.
#[local] Arguments String.append !_ _ / : simpl nomatch.

Lemma trimEnd_nil_spaces (s : string) :
  trimEnd s = EmptyString -> all_chars is_space s = true.
Proof.
  induction s as [|c s IH]; [done|]. simpl.
  destruct (trimEnd s) eqn:E; [|done].
  destruct (is_space c); [|done]. intros _. by rewrite IH.
Qed.

Lemma trimStart_nil_spaces (s : string) :
  trimStart s = EmptyString -> all_chars is_space s = true.
Proof.
  induction s as [|c s IH]; [done|]. simpl.
  destruct (is_space c); [|done]. intros H. by rewrite IH.
Qed.

Lemma trimStart_all_spaces (s : string) :
  all_chars is_space (trimStart s) = true -> all_chars is_space s = true.
Proof.
  induction s as [|c s IH]; [done|]. simpl.
  destruct (is_space c) eqn:E; [done|]. simpl. by rewrite E.
Qed.

Lemma trim_nil_spaces (s : string) :
  trim s = EmptyString -> all_chars is_space s = true.
Proof.
  unfold trim. intros H. by apply trimStart_all_spaces, trimEnd_nil_spaces.
Qed.

Lemma trimEnd_cons_solid (c : ascii) (s : string) :
  is_space c = false -> trimEnd (String c s) = String c (trimEnd s).
Proof. intros Hc. simpl. rewrite Hc. by destruct (trimEnd s). Qed.

Lemma trimEnd_free (q : ascii) (s : string) :
  free_of q s = true -> free_of q (trimEnd s) = true.
Proof.
  unfold free_of. induction s as [|c s IH]; [done|].
  simpl. intros [Hc Hs]%andb_true_iff.
  specialize (IH Hs).
  destruct (trimEnd s) eqn:E.
  - destruct (is_space c); [done|]. simpl. by rewrite Hc.
  - simpl in *. by rewrite Hc, IH.
Qed.

Lemma trimEnd_trimStart (s : string) :
  trimEnd (trimStart (trimEnd s)) = trimEnd (trimStart s).
Proof.
  induction s as [|c s IH]; [done|].
  cbn [trimEnd]. destruct (trimEnd s) eqn:E.
  - destruct (is_space c) eqn:Ec.
    + cbn [trimStart]. rewrite Ec. simpl in IH. by rewrite <- IH.
    + cbn [trimStart trimEnd]. rewrite Ec. cbn [trimEnd]. by rewrite E, Ec.
  - cbn [trimStart]. destruct (is_space c) eqn:Ec.
    + exact IH.
    + cbn [trimEnd]. rewrite E. cbn [trimEnd].
      assert (trimEnd (String a s0) = String a s0) as E'
        by (rewrite <- E; apply trimEnd_idem).
      cbn [trimEnd] in E'. by rewrite E'.
Qed.

Lemma normalizeTag_trimEnd (s : string) :
  normalizeTag (trimEnd s) = normalizeTag s.
Proof. unfold normalizeTag, trim. by rewrite trimEnd_trimStart. Qed.

Lemma scan_quoted_open (q : ascii) (p : string) :
  forall buf,
    free_of q p = true -> scan_quoted q buf p = (buf +:+ p, EmptyString).
Proof.
  unfold free_of. induction p as [|c p IH]; intros buf Hp.
  - by rewrite append_nil_r.
  - simpl in Hp. apply andb_true_iff in Hp as [Hc Hp].
    apply negb_true_iff in Hc. simpl scan_quoted. rewrite Hc, (IH _ Hp).
    by rewrite append_assoc.
Qed.

(** X5: a phrase between single quotes is one tag literal, whatever else it
    holds (blanks, operators, double quotes); and a quote that is never
    closed takes the rest of the input as its phrase. *)
Theorem quote_forms (q : ascii) (p rest : string) (tags : list string) :
  is_quote q = true -> free_of q p = true ->
  tokenize (String q (p +:+ String q rest))
  = TTag (normalizeTag p) :: tokenize rest
  /\ parseBoolExpr (String q (p +:+ String q EmptyString))
     = plan_of [TTag (normalizeTag p)]
  /\ parseBoolExpr (String q p) = plan_of [TTag (normalizeTag p)]
  /\ eval (parseBoolExpr (String q p)) tags
     = bool_decide (normalizeTag p ∈ tags).
Proof.
  intros Hq Hp.
  assert (is_space q = false) as Hs.
  { unfold is_quote in Hq.
    destruct (decide (q = "034"%char)) as [->|?]; [done|].
    destruct (decide (q = "039"%char)) as [->|?]; [done|].
    by rewrite !bool_decide_eq_false_2 in Hq. }
  assert (forall rest,
            tokenize (String q (p +:+ String q rest))
            = TTag (normalizeTag p) :: tokenize rest) as Htok.
  { intros rest'. rewrite tokenize_cons, Hs, Hq.
    by rewrite (scan_quoted_app q EmptyString p rest' Hp). }
  assert (parseBoolExpr (String q p) = plan_of [TTag (normalizeTag p)]) as Hopen.
  { unfold parseBoolExpr, trim. cbn [trimStart]. rewrite Hs.
    rewrite (trimEnd_cons_solid q p Hs). cbn [truthy negb].
    rewrite tokenize_cons, Hs, Hq.
    rewrite (scan_quoted_open q (trimEnd p) EmptyString (trimEnd_free q p Hp)).
    rewrite append_nil_l, normalizeTag_trimEnd. done. }
  split_and!; [done | | done |].
  - rewrite parse_plan.
    + by rewrite Htok.
    + apply trim_solid_ends; [done | done |]. simpl. by rewrite Hs.
    + simpl. by rewrite Hs.
  - rewrite Hopen. done.
Qed.

Lemma quote_forms_witness :
  is_quote sq = true /\ free_of sq "a & b" = true
  /\ parseBoolExpr "'a & b'" = plan_of [TTag "a & b"]
  /\ parseBoolExpr "'a & b" = plan_of [TTag "a & b"].
Proof.
  assert (is_quote sq = true) as Hq by reflexivity.
  assert (free_of sq "a & b" = true) as Hp by reflexivity.
  split_and!; [exact Hq | exact Hp | |].
  - exact (proj1 (proj2 (quote_forms sq "a & b" "" [] Hq Hp))).
  - exact (proj1 (proj2 (proj2 (quote_forms sq "a & b" "" [] Hq Hp)))).
Defined.

End Quotes.

Section PlanInvariant.

Lemma notin_middle {A : Type} (x t : A) (out ops : list A) :
  x <> t -> x ∉ out ++ ops <-> x ∉ out ++ t :: ops.
Proof. intros Hne. rewrite !elem_of_app, elem_of_cons. tauto. Qed.

Lemma pop_ops_concat (t : token) (ops : list token) :
  forall out,
    (pop_ops t out ops).1 ++ (pop_ops t out ops).2 = out ++ ops.
Proof.
  induction ops as [|top ops IH]; intros out; simpl; [done|].
  destruct (is_operator top && (prec t <=? prec top)%nat); [|done].
  rewrite IH. by rewrite <- app_assoc.
Qed.

Lemma pop_ops_tags (t : token) (ops : list token) :
  forall out,
    List.filter is_tag ops = [] ->
    List.filter is_tag (pop_ops t out ops).1 = List.filter is_tag out
    /\ List.filter is_tag (pop_ops t out ops).2 = [].
Proof.
  induction ops as [|top ops IH]; intros out Hops; simpl; [done|].
  simpl in Hops. destruct (is_tag top) eqn:Et; [done|].
  destruct (is_operator top && (prec t <=? prec top)%nat).
  - destruct (IH (out ++ [top]) Hops) as [-> ->].
    rewrite List.filter_app. simpl. rewrite Et. by rewrite app_nil_r.
  - simpl. by rewrite Et.
Qed.

Lemma pop_to_paren_concat (ops : list token) :
  forall out,
    (pop_to_paren out ops).1 ++ (pop_to_paren out ops).2 = out ++ ops.
Proof.
  induction ops as [|top ops IH]; intros out; simpl; [done|].
  destruct (bool_decide (top = TLParen)); [done|].
  rewrite IH. by rewrite <- app_assoc.
Qed.

Lemma pop_to_paren_tags (ops : list token) :
  forall out,
    List.filter is_tag ops = [] ->
    List.filter is_tag (pop_to_paren out ops).1 = List.filter is_tag out
    /\ List.filter is_tag (pop_to_paren out ops).2 = [].
Proof.
  induction ops as [|top ops IH]; intros out Hops; simpl; [done|].
  simpl in Hops. destruct (is_tag top) eqn:Et; [done|].
  destruct (bool_decide (top = TLParen)).
  - simpl. by rewrite Et.
  - destruct (IH (out ++ [top]) Hops) as [-> ->].
    rewrite List.filter_app. simpl. rewrite Et. by rewrite app_nil_r.
Qed.

(** What one step of the conversion keeps: the tag literals go to the output
    in the order they arrive and nowhere else, the operators are all kept,
    and no closing parenthesis is stored. *)
Lemma sy_step_inv (out ops : list token) (t : token) :
  List.filter is_tag ops = [] ->
  let st := sy_step (out, ops) t in
  List.filter is_tag st.1 = List.filter is_tag (out ++ [t])
  /\ List.filter is_tag st.2 = []
  /\ List.filter is_operator (st.1 ++ st.2)
     ≡ₚ List.filter is_operator (out ++ ops ++ [t])
  /\ (TRParen ∉ out ++ ops -> TRParen ∉ st.1 ++ st.2).
Proof.
  intros Hops.
  assert (is_operator t = true ->
          let st := pop_ops t out ops in
          List.filter is_tag st.1 = List.filter is_tag (out ++ [t])
          /\ List.filter is_tag (t :: st.2) = []
          /\ List.filter is_operator (st.1 ++ t :: st.2)
             ≡ₚ List.filter is_operator (out ++ ops ++ [t])
          /\ (TRParen ∉ out ++ ops -> TRParen ∉ st.1 ++ t :: st.2)) as Hop.
  { intros Ht.
    pose proof (pop_ops_concat t ops out) as Hc.
    pose proof (pop_ops_tags t ops out Hops) as [Ht1 Ht2].
    destruct (pop_ops t out ops) as [out' ops']. cbn [fst snd] in *.
    assert (is_tag t = false) as Hn by (by destruct t).
    split_and!.
    - rewrite Ht1, List.filter_app. simpl. by rewrite Hn, app_nil_r.
    - simpl. by rewrite Hn.
    - rewrite (app_assoc out ops), <- Hc, !List.filter_app. simpl.
      rewrite Ht, <- !app_assoc. apply Permutation_app_head.
      apply Permutation_cons_append.
    - intros H. rewrite <- Hc in H.
      apply notin_middle; [by destruct t | done]. }
  destruct t; cbn [sy_step].
  - cbn [fst snd]. split_and!; [done | done | |].
    + rewrite !List.filter_app. simpl. by rewrite !app_nil_r.
    + rewrite <- app_assoc. by apply notin_middle.
  - specialize (Hop eq_refl). cbn zeta in Hop.
    by destruct (pop_ops TNot out ops).
  - specialize (Hop eq_refl). cbn zeta in Hop.
    by destruct (pop_ops TAnd out ops).
  - specialize (Hop eq_refl). cbn zeta in Hop.
    by destruct (pop_ops TOr out ops).
  - cbn [fst snd]. split_and!; [| done | |].
    + rewrite List.filter_app. simpl. by rewrite app_nil_r.
    + rewrite !List.filter_app. simpl. by rewrite app_nil_r.
    + by apply notin_middle.
  - clear Hop.
    pose proof (pop_to_paren_concat ops out) as Hc.
    pose proof (pop_to_paren_tags ops out Hops) as [Ht1 Ht2].
    destruct (pop_to_paren out ops) as [out' ops']. cbn [fst snd] in *.
    assert (List.filter is_tag (out ++ [TRParen]) = List.filter is_tag out)
      as -> by (rewrite List.filter_app; simpl; by rewrite app_nil_r).
    assert (List.filter is_operator (out ++ ops ++ [TRParen])
            = List.filter is_operator (out' ++ ops')) as ->.
    { rewrite Hc, (app_assoc out ops), List.filter_app. simpl.
      by rewrite app_nil_r. }
    rewrite <- Hc.
    assert (forall ops'',
              ops' = TLParen :: ops'' ->
              List.filter is_tag ops'' = []
              /\ List.filter is_operator (out' ++ ops'')
                 ≡ₚ List.filter is_operator (out' ++ ops')
              /\ (TRParen ∉ out' ++ ops' -> TRParen ∉ out' ++ ops'')) as Hl.
    { intros ops'' ->. split_and!; [done | |].
      - by rewrite !List.filter_app.
      - by apply notin_middle. }
    destruct ops' as [|[] ops'']; cbn [fst snd]; try done.
    by destruct (Hl ops'' eq_refl) as (? & ? & ?).
Qed.

Lemma sy_fold_inv (ts : list token) :
  forall out ops,
    List.filter is_tag ops = [] ->
    let st := foldl sy_step (out, ops) ts in
    List.filter is_tag st.1 = List.filter is_tag (out ++ ts)
    /\ List.filter is_tag st.2 = []
    /\ List.filter is_operator (st.1 ++ st.2)
       ≡ₚ List.filter is_operator (out ++ ops ++ ts)
    /\ (TRParen ∉ out ++ ops -> TRParen ∉ st.1 ++ st.2).
Proof.
  induction ts as [|t ts IH]; intros out ops Hops.
  - cbn [foldl fst snd]. rewrite !app_nil_r. done.
  - cbn [foldl].
    pose proof (sy_step_inv out ops t Hops) as (H1 & H2 & H3 & H4).
    destruct (sy_step (out, ops) t) as [out' ops'] eqn:E. cbn [fst snd] in *.
    specialize (IH out' ops' H2). cbn zeta in IH.
    destruct IH as (I1 & I2 & I3 & I4).
    split_and!.
    + rewrite I1, List.filter_app, H1, <- List.filter_app, <- app_assoc.
      done.
    + done.
    + rewrite I3. rewrite (app_assoc out' ops'), List.filter_app, H3.
      rewrite <- List.filter_app, <- !app_assoc. done.
    + intros H. by apply I4, H4.
Qed.

(** X6: what the plan of any input holds, well formed or not: the tag
    literals of the input in their order, every operator of the input, and
    no closing parenthesis; and there is no plan at all exactly when the
    input is blank. *)
Theorem plan_keeps_tokens (input : string) :
  let tokens := tokenize (trim input) in
  (ast (parseBoolExpr input) = None <-> all_chars is_space input = true)
  /\ forall out, ast (parseBoolExpr input) = Some out ->
       out = shunting_yard tokens
       /\ List.filter is_tag out = List.filter is_tag tokens
       /\ List.filter is_operator out ≡ₚ List.filter is_operator tokens
       /\ TRParen ∉ out.
Proof.
  intros tokens. split.
  - split.
    + unfold parseBoolExpr. destruct (trim input) eqn:E; [|done].
      intros _. by apply trim_nil_spaces.
    + intros H. by rewrite parse_blank.
  - intros out. unfold parseBoolExpr.
    destruct (negb (truthy (trim input))); [done|].
    cbn [ast]. intros [= <-]. fold tokens.
    pose proof (sy_fold_inv tokens [] [] eq_refl) as (H1 & H2 & H3 & H4).
    cbn zeta in *.
    unfold shunting_yard.
    destruct (foldl sy_step ([], []) tokens) as [out ops] eqn:E.
    cbn [fst snd app] in *.
    assert (List.filter is_tag (out ++ ops) = List.filter is_tag tokens) as Ht
      by (by rewrite List.filter_app, H1, H2, app_nil_r).
    assert (TRParen ∉ out ++ ops) as Hr by (apply H4, not_elem_of_nil).
    split_and!; done.
Qed.


End PlanInvariant.

Section FilterSelection.
Local Open Scope R_scope.

Lemma filter_member (store : Store) (o : FilterOpts) (r : Row) :
  r ∈ Query.filter store o
  <-> r ∈ rows store
      /\ eval (parseBoolExpr (expr o)) (tags r) = true /\ in_bounds o r.
Proof.
  rewrite filter_passes, list_elem_of_filter.
  unfold passes, in_bounds, bounds_of. tauto.
Qed.

(** X7: [filter] returns the rows that satisfy the expression and lie inside
    the four bounds, and only those, in the order of [store.rows]; bounds
    that cross each other leave nothing. *)
Theorem filter_selects (store : Store) (o : FilterOpts) :
  sublist (Query.filter store o) (rows store)
  /\ (forall r, r ∈ Query.filter store o
                <-> r ∈ rows store
                    /\ eval (parseBoolExpr (expr o)) (tags r) = true
                    /\ in_bounds o r)
  /\ (default Query.default_tagCountMax (tagCountMax o)
      < default Query.default_tagCountMin (tagCountMin o) ->
      Query.filter store o = [])
  /\ (default Query.default_rarityMax (rarityMax o)
      < default Query.default_rarityMin (rarityMin o) ->
      Query.filter store o = []).
Proof.
  split_and!.
  - rewrite filter_passes. apply sublist_filter.
  - apply filter_member.
  - intros H. apply nil_by_members. intros r Hr.
    apply filter_member in Hr as (_ & _ & Hb).
    unfold in_bounds, bounds_of in Hb. lra.
  - intros H. apply nil_by_members. intros r Hr.
    apply filter_member in Hr as (_ & _ & Hb).
    unfold in_bounds, bounds_of in Hb. lra.
Qed.

Lemma eval_write (e : bexp) (ts : list string) :
  Forall (fun v => bare_tag v = true) (etags e) ->
  eval (parseBoolExpr (write e)) ts = den ts (emap normalizeTag e).
Proof. intros H. unfold write. by apply parse_tree. Qed.

(** X8: with the bounds held fixed, [filter] on a conjunction gives the rows
    common to the filters on its two sides, on a disjunction the rows of
    either, and on a negation the rows inside the bounds that the filter on
    the negated expression leaves out. *)
Theorem filter_connectives (store : Store) (o : FilterOpts) (l r : bexp)
    (x : Row) :
  Forall (fun v => bare_tag v = true) (etags l) ->
  Forall (fun v => bare_tag v = true) (etags r) ->
  (x ∈ Query.filter store (with_expr o (write (EAnd l r)))
   <-> x ∈ Query.filter store (with_expr o (write l))
       /\ x ∈ Query.filter store (with_expr o (write r)))
  /\ (x ∈ Query.filter store (with_expr o (write (EOr l r)))
      <-> x ∈ Query.filter store (with_expr o (write l))
          \/ x ∈ Query.filter store (with_expr o (write r)))
  /\ (x ∈ Query.filter store (with_expr o (write (ENot l)))
      <-> x ∈ Query.filter store (with_expr o EmptyString)
          /\ x ∉ Query.filter store (with_expr o (write l))).
Proof.
  intros Hl Hr.
  assert (Forall (fun v => bare_tag v = true) (etags (EAnd l r))) as Hand
    by (simpl; by apply Forall_app).
  assert (Forall (fun v => bare_tag v = true) (etags (EOr l r))) as Hor
    by (simpl; by apply Forall_app).
  assert (Forall (fun v => bare_tag v = true) (etags (ENot l))) as Hnot
    by done.
  rewrite !filter_member. cbn [expr with_expr].
  rewrite !eval_write by done.
  assert (parseBoolExpr EmptyString = BoolExpr.mk None (fun _ => true)) as ->
    by done.
  cbn [eval emap den].
  change (in_bounds (with_expr o _) x) with (in_bounds o x).
  rewrite andb_true_iff, orb_true_iff, negb_true_iff.
  destruct (den (tags x) (emap normalizeTag l)),
           (den (tags x) (emap normalizeTag r)); split_and!; try tauto;
    intuition congruence.
Qed.

Lemma filter_connectives_witness :
  Forall (fun v => bare_tag v = true) (etags (ETag "a"))
  /\ Forall (fun v => bare_tag v = true) (etags (ETag "b"))
  /\ (sample_row ["a"; "b"]
        ∈ Query.filter (buildStore scenario)
            (with_expr (open_filter EmptyString None)
               (write (EAnd (ETag "a") (ETag "b"))))
      <-> sample_row ["a"; "b"]
            ∈ Query.filter (buildStore scenario)
                (with_expr (open_filter EmptyString None) (write (ETag "a")))
          /\ sample_row ["a"; "b"]
               ∈ Query.filter (buildStore scenario)
                   (with_expr (open_filter EmptyString None)
                      (write (ETag "b")))).
Proof.
  assert (Forall (fun v => bare_tag v = true) (etags (ETag "a"))) as Ha
    by (repeat constructor).
  assert (Forall (fun v => bare_tag v = true) (etags (ETag "b"))) as Hb
    by (repeat constructor).
  split_and!; [exact Ha | exact Hb |].
  exact (proj1 (filter_connectives (buildStore scenario)
                  (open_filter EmptyString None)
                  (ETag "a") (ETag "b") (sample_row ["a"; "b"]) Ha Hb)).
Defined.

End FilterSelection.

Section SimilarityRange.
Local Open Scope R_scope.

Lemma frac_bounds (x d : R) : 0 <= x <= d -> 0 < d -> 0 <= x / d <= 1.
Proof.
  intros [H0 H1] Hd. unfold Rdiv.
  pose proof (Rinv_0_lt_compat d Hd) as Hi.
  assert (d * / d = 1) as Hone by (field; lra).
  split; nra.
Qed.

Lemma rsum_bounds {A : Type} (f : A -> R) (l : list A) :
  (forall x, x ∈ l -> 0 <= f x <= 1) -> 0 <= rsum f l <= INR (length l).
Proof.
  induction l as [|x l IH]; intros H.
  - simpl. lra.
  - cbn [rsum length]. rewrite S_INR.
    pose proof (H x ltac:(left)) as Hx.
    assert (0 <= rsum f l <= INR (length l)) as Hl
      by (apply IH; intros y Hy; apply H; by right).
    lra.
Qed.

Lemma differ_01 (A B : list string) (t : string) : 0 <= differ A B t <= 1.
Proof. unfold differ. destruct (Bool.eqb _ _); lra. Qed.

Section Sets.
Variables A B : list string.
Hypothesis HA : NoDup A.
Hypothesis HB : NoDup B.

Lemma inter_le_left : (Query.count_inter A B <= length A)%nat.
Proof. rewrite count_inter_filter. apply length_filter. Qed.

Lemma inter_le_right : (Query.count_inter A B <= length B)%nat.
Proof.
  rewrite count_inter_filter. apply submseteq_length, NoDup_submseteq.
  - by apply NoDup_filter.
  - intros x Hx. by apply list_elem_of_filter in Hx as [? _].
Qed.

Lemma left_le_union : (length A <= JsSet.size (JsSet.of_list (A ++ B)))%nat.
Proof.
  apply submseteq_length, NoDup_submseteq; [done|].
  intros x Hx. apply elem_of_of_list, elem_of_app. by left.
Qed.

Lemma right_le_union : (length B <= JsSet.size (JsSet.of_list (A ++ B)))%nat.
Proof.
  apply submseteq_length, NoDup_submseteq; [done|].
  intros x Hx. apply elem_of_of_list, elem_of_app. by right.
Qed.

Lemma inter_le_union :
  (Query.count_inter A B <= JsSet.size (JsSet.of_list (A ++ B)))%nat.
Proof. pose proof inter_le_left. pose proof left_le_union. lia. Qed.

(** The tags of the union that the two sets share are the shared tags of the
    first. *)
Lemma union_shared :
  filter (fun t => t ∈ A /\ t ∈ B) (JsSet.of_list (A ++ B))
  ≡ₚ filter (fun t => t ∈ B) A.
Proof.
  apply NoDup_Permutation.
  - apply NoDup_filter, NoDup_of_list.
  - by apply NoDup_filter.
  - intros x. rewrite !list_elem_of_filter, elem_of_of_list, elem_of_app.
    tauto.
Qed.

(** On the union, the two sets differ at every tag but the shared ones. *)
Lemma differ_union :
  rsum (differ A B) (JsSet.of_list (A ++ B))
  = INR (JsSet.size (JsSet.of_list (A ++ B))) - INR (Query.count_inter A B).
Proof.
  rewrite count_inter_filter, <- (Permutation_length union_shared).
  rewrite <- (rsum_const_1 (filter _ _)).
  rewrite <- (rsum_filter (fun _ => 1) (fun t => t ∈ A /\ t ∈ B)).
  unfold JsSet.size. rewrite <- (rsum_const_1 (JsSet.of_list (A ++ B))).
  assert (forall l : list string,
            (forall t, t ∈ l -> t ∈ A \/ t ∈ B) ->
            rsum (differ A B) l
            = rsum (fun _ => 1) l
              - rsum (fun t => if decide (t ∈ A /\ t ∈ B) then 1 else 0) l)
    as Hl.
  { induction l as [|t l IH]; intros Hm.
    - simpl. lra.
    - cbn [rsum]. rewrite IH by (intros y Hy; apply Hm; by right).
      assert (differ A B t = 1 - (if decide (t ∈ A /\ t ∈ B) then 1 else 0))
        as ->; [|lra].
      unfold differ, JsSet.has.
      pose proof (Hm t ltac:(left)) as Ht.
      destruct (decide (t ∈ A /\ t ∈ B)) as [[? ?]|Hn].
      + rewrite !bool_decide_eq_true_2 by done. simpl. lra.
      + destruct (decide (t ∈ A)), (decide (t ∈ B)); try tauto.
        * rewrite bool_decide_eq_true_2, bool_decide_eq_false_2 by done.
          simpl. lra.
        * rewrite bool_decide_eq_false_2, bool_decide_eq_true_2 by done.
          simpl. lra. }
  apply Hl. intros t Ht. by apply elem_of_of_list, elem_of_app in Ht.
Qed.

End Sets.

Lemma sqrt_le_sqrt (x y : R) : 0 <= x <= y -> sqrt x <= sqrt y.
Proof. intros [? ?]. by apply sqrt_le_1; lra. Qed.

Lemma le_sqrt_prod (x a b : R) :
  0 <= x -> x <= a -> x <= b -> x <= sqrt (a * b).
Proof.
  intros H0 Ha Hb. rewrite <- (sqrt_square x) by done.
  apply sqrt_le_1; nra.
Qed.

Ltac on_mode o m :=
  let E := fresh "Em" in
  destruct (bool_decide (mode o = m)) eqn:E;
  [ apply bool_decide_eq_true in E | apply bool_decide_eq_false in E ];
  cbv iota.

(** X9: the ten modes of [tagSimilarity] that are computed from counts
    (none, jaccard, dice, tanimoto, ochiai, simpson, braun-blanquet,
    hamming, manhattan, euclidean) give a value between [0] and [1], on any
    store and any two rows.  [overlap] is a count or a sum of weights with
    no upper bound, and the cosine is left out because its rounded sums can
    bring it above [1]. *)
Theorem tag_similarity_range (store : Store) (a b : Row) (o : SimOpts) :
  mode o ∈ handled_modes -> mode o <> "overlap" ->
  0 <= Query.tagSimilarity store a b o <= 1.
Proof.
  intros Hin Hm. unfold Query.tagSimilarity.
  set (A := JsSet.of_list (tags a)). set (B := JsSet.of_list (tags b)).
  assert (NoDup A) as HA by apply NoDup_of_list.
  assert (NoDup B) as HB by apply NoDup_of_list.
  pose proof (inter_le_left A B) as Hil.
  pose proof (inter_le_right A B HA) as Hir.
  pose proof (left_le_union A B HA) as Hlu.
  pose proof (right_le_union A B HB) as Hru.
  apply le_INR in Hil, Hir, Hlu, Hru.
  pose proof (pos_INR (Query.count_inter A B)) as Hi0.
  assert (forall n : nat, (n =? 0)%nat = false -> 0 < INR n) as Hpos.
  { intros n Hn. apply Nat.eqb_neq in Hn. apply lt_0_INR. lia. }
  assert (0 <= rsum (differ A B) (JsSet.of_list (A ++ B))
          <= INR (JsSet.size (JsSet.of_list (A ++ B)))) as Hd
    by (apply rsum_bounds; intros; apply differ_01).
  unfold JsSet.size in *.
  assert (forall d n : R, 0 <= d <= n -> 0 < n -> 0 <= 1 - d / n <= 1) as Hone.
  { intros d n Hdn Hn. pose proof (frac_bounds d n Hdn Hn). lra. }
  on_mode o "none"; [lra|].
  on_mode o "overlap"; [done|].
  on_mode o "jaccard".
  { destruct (_ =? 0)%nat eqn:E; [lra|].
    apply frac_bounds; [lra | by apply Hpos]. }
  on_mode o "dice".
  { destruct (_ =? 0)%nat eqn:E; [lra|].
    apply Hpos in E. unfold JsSet.size in *. rewrite plus_INR in *.
    apply frac_bounds; lra. }
  on_mode o "tanimoto".
  { destruct (_ =? 0)%nat eqn:E; [lra|].
    apply frac_bounds; [lra | by apply Hpos]. }
  on_mode o "ochiai".
  { destruct (is_zero _) eqn:E; [lra|].
    apply is_zero_false in E.
    pose proof (sqrt_pos (INR (length A * length B))).
    apply frac_bounds; [|lra]. split; [done|].
    rewrite mult_INR. by apply le_sqrt_prod. }
  on_mode o "simpson".
  { destruct (_ =? 0)%nat eqn:E; [lra|].
    apply frac_bounds; [|by apply Hpos]. split; [done|].
    unfold JsSet.size. destruct (Nat.min_spec (length A) (length B))
      as [[_ ->]|[_ ->]]; done. }
  on_mode o "braun-blanquet".
  { destruct (_ =? 0)%nat eqn:E; [lra|].
    apply frac_bounds; [|by apply Hpos]. split; [done|].
    unfold JsSet.size. destruct (Nat.max_spec (length A) (length B))
      as [[_ ->]|[_ ->]]; done. }
  on_mode o "hamming".
  { destruct (_ =? 0)%nat eqn:E; [lra|].
    rewrite hamming_diff_sum. apply Hone; [done | by apply Hpos]. }
  on_mode o "manhattan".
  { destruct (_ =? 0)%nat eqn:E; [lra|].
    rewrite manhattan_sum. apply Hone; [done | by apply Hpos]. }
  on_mode o "euclidean".
  { destruct (is_zero _) eqn:E; [lra|].
    apply is_zero_false in E. rewrite euclidean_sum.
    pose proof (sqrt_pos (INR (length (JsSet.of_list (A ++ B))))).
    apply Hone; [|lra]. split; [apply sqrt_pos|].
    by apply sqrt_le_sqrt. }
  exfalso. unfold handled_modes in Hin.
  rewrite !elem_of_cons, elem_of_nil in Hin.
  repeat (destruct Hin as [?|Hin]; [done|]). done.
Qed.

Lemma tag_similarity_range_witness :
  "euclidean" ∈ handled_modes
  /\ "euclidean" <> "overlap"
  /\ 0 <= Query.tagSimilarity sample_store
            (sample_row ["x"; "y"]) (sample_row ["y"]) (sim_mode "euclidean")
     <= 1.
Proof.
  assert ("euclidean" ∈ handled_modes) as H0
    by (unfold handled_modes; rewrite !elem_of_cons; auto 12).
  assert ("euclidean" <> "overlap") as H by done.
  split; [exact H0 | split; [exact H |]].
  exact (tag_similarity_range sample_store
           (sample_row ["x"; "y"]) (sample_row ["y"]) (sim_mode "euclidean")
           H0 H).
Defined.

(** The two sets share all the tags of the union exactly when they hold the
    same tags, and none exactly when no tag of one is in the other. *)
Lemma inter_full_iff (A B : list string) :
  NoDup A -> NoDup B ->
  Query.count_inter A B = length (JsSet.of_list (A ++ B))
  <-> forall t, t ∈ A <-> t ∈ B.
Proof.
  intros HA HB.
  pose proof (inter_le_left A B) as Hil.
  pose proof (inter_le_right A B HA) as Hir.
  pose proof (left_le_union A B HA) as Hlu.
  pose proof (right_le_union A B HB) as Hru.
  unfold JsSet.size in *. split.
  - intros Heq t. split; intros Ht.
    + destruct (decide (t ∈ B)) as [|Hn]; [done|].
      pose proof (length_filter_lt (fun t => t ∈ B) A t Ht Hn) as Hlt.
      rewrite <- count_inter_filter in Hlt. lia.
    + destruct (decide (t ∈ A)) as [|Hn]; [done|].
      pose proof (length_filter_lt (fun t => t ∈ A) B t Ht Hn) as Hlt.
      rewrite <- count_inter_filter, (count_inter_comm B A HB HA) in Hlt.
      lia.
  - intros Hs.
    assert (JsSet.of_list (A ++ B) = A) as ->.
    { unfold JsSet.of_list. rewrite foldl_app.
      fold (JsSet.of_list A). rewrite (of_list_NoDup A HA).
      apply foldl_add_present. intros t Ht. by apply Hs. }
    rewrite count_inter_filter.
    by rewrite (filter_all (fun t => t ∈ B) A) by (intros t Ht; by apply Hs).
Qed.

Lemma inter_zero_iff (A B : list string) :
  Query.count_inter A B = 0%nat <-> forall t, t ∈ A -> t ∉ B.
Proof.
  rewrite count_inter_filter, length_zero_iff_nil. split.
  - intros Hnil t Ha Hb.
    assert (t ∈ filter (fun t => t ∈ B) A) as Hin
      by (by apply list_elem_of_filter).
    rewrite Hnil in Hin. by apply elem_of_nil in Hin.
  - intros Hd. apply nil_by_members. intros t [Hb Ha]%list_elem_of_filter.
    by apply (Hd t).
Qed.

(** X10: [hamming] is [1] exactly on two rows with the same set of tags, two
    rows without tags included, where [jaccard] gives [0]; it is [0]
    exactly on two rows of which one has a tag and which share none.  In
    between [hamming] is [1 - diff / n] where [jaccard] is [inter / n], and
    on binary64 numbers the two differ: the tags [x y z] and [z x] give
    [0.6666666666666667] under [hamming] and [0.6666666666666666] under
    [jaccard]. *)
Theorem hamming_extremes (store : Store) (a b : Row) (o : SimOpts)
    (idf64 : gmap string float) (w : bool) (mul : float) :
  mode o = "hamming" ->
  (Query.tagSimilarity store a b o = 1
   <-> forall t, t ∈ tags a <-> t ∈ tags b)
  /\ (Query.tagSimilarity store a b o = 0
      <-> (tags a <> [] \/ tags b <> [])
          /\ forall t, t ∈ tags a -> t ∉ tags b)
  /\ Binary64.tagSimilarity idf64 ["x"; "y"; "z"] ["z"; "x"] "hamming" w mul
     = 0x1.5555555555556p-1%float
  /\ Binary64.tagSimilarity idf64 ["x"; "y"; "z"] ["z"; "x"] "jaccard" w mul
     = 0x1.5555555555555p-1%float.
Proof.
  intros Hm.
  assert (forall P Q R S : Prop, P /\ Q -> R -> S -> P /\ Q /\ R /\ S) as Hs
    by tauto.
  apply Hs; [|vm_compute; reflexivity..]. clear Hs.
  unfold Query.tagSimilarity. rewrite Hm.
  simpl bool_decide. cbv iota.
  set (A := JsSet.of_list (tags a)). set (B := JsSet.of_list (tags b)).
  assert (NoDup A) as HA by apply NoDup_of_list.
  assert (NoDup B) as HB by apply NoDup_of_list.
  assert (forall t, t ∈ A <-> t ∈ tags a) as HAm
    by (intros t; apply elem_of_of_list).
  assert (forall t, t ∈ B <-> t ∈ tags b) as HBm
    by (intros t; apply elem_of_of_list).
  pose proof (inter_le_union A B HA) as Hiu.
  pose proof (inter_full_iff A B HA HB) as Hfull.
  pose proof (inter_zero_iff A B) as Hzero.
  unfold JsSet.size in *.
  destruct (length (JsSet.of_list (A ++ B)) =? 0)%nat eqn:E.
  - apply Nat.eqb_eq in E.
    apply length_zero_iff_nil, of_list_nil_inv, app_eq_nil in E as [EA EB].
    assert (tags a = []) as Ea by (by apply of_list_nil_inv).
    assert (tags b = []) as Eb by (by apply of_list_nil_inv).
    split.
    + split; [|done]. intros _ t. by rewrite Ea, Eb.
    + split; [lra|]. intros [[?|?] _]; done.
  - apply Nat.eqb_neq in E.
    assert (0 < INR (length (JsSet.of_list (A ++ B)))) as HU
      by (apply lt_0_INR; lia).
    rewrite hamming_diff_sum, (differ_union A B HA).
    unfold JsSet.size.
    set (U := length (JsSet.of_list (A ++ B))) in *.
    set (I := Query.count_inter A B) in *.
    assert (1 - (INR U - INR I) / INR U = INR I / INR U) as -> by (field; lra).
    assert (tags a <> [] \/ tags b <> []) as Hne.
    { destruct (decide (tags a = [])) as [Ea|]; [|by left].
      right. intros Eb. apply E. unfold U, A, B. by rewrite Ea, Eb. }
    split.
    + assert ((forall t, t ∈ tags a <-> t ∈ tags b) <-> I = U) as ->.
      { rewrite Hfull. split; intros H t; specialize (H t).
        - by rewrite HAm, HBm.
        - by rewrite <- HAm, <- HBm. }
      split.
      * intros H1. apply INR_eq.
        apply (Rmult_eq_reg_r (/ INR U)); [|apply Rinv_neq_0_compat; lra].
        unfold Rdiv in H1. rewrite H1. field. lra.
      * intros ->. field. lra.
    + assert ((forall t, t ∈ tags a -> t ∉ tags b) <-> I = 0%nat) as ->.
      { rewrite Hzero. split; intros H t; specialize (H t).
        - by rewrite HAm, HBm.
        - by rewrite <- HAm, <- HBm. }
      assert (INR I / INR U = 0 <-> I = 0%nat) as ->; [|tauto].
      split.
      * intros H0. apply INR_eq. unfold Rdiv in H0.
        apply Rmult_integral in H0 as [?|Hinv]; [done|].
        apply Rinv_neq_0_compat in Hinv; [done | lra].
      * intros ->. unfold Rdiv. simpl. lra.
Qed.

Lemma hamming_extremes_witness :
  Query.tagSimilarity sample_store (sample_row ["x"; "y"])
    (sample_row ["y"; "x"]) (sim_mode "hamming") = 1.
Proof.
  apply (proj1 (hamming_extremes sample_store (sample_row ["x"; "y"])
                  (sample_row ["y"; "x"]) (sim_mode "hamming") ∅ true 1%float
                  eq_refl)).
  intros t. simpl. rewrite !elem_of_cons. tauto.
Defined.

(** X11: [overlap] adds [1 + idf * (idfMul - 1)] for every distinct tag the two
    rows share; without tag weights, or with the multiplier at [1], that is
    the number of shared tags, which no upper bound of the metric limits. *)
Theorem overlap_counts_shared (store : Store) (a b : Row) (o : SimOpts) :
  mode o = "overlap" ->
  Query.tagSimilarity store a b o
  = rsum (overlap_weight store o) (shared_tags a b)
  /\ (weightTags o = false \/ idfMul o = 1 ->
      Query.tagSimilarity store a b o = INR (length (shared_tags a b))).
Proof.
  intros Hm.
  assert (Query.tagSimilarity store a b o
          = rsum (overlap_weight store o) (shared_tags a b)) as E.
  { unfold Query.tagSimilarity. rewrite Hm.
    simpl bool_decide. cbv iota. by rewrite overlap_sum. }
  split; [done|].
  intros Hw. rewrite E, <- rsum_const_1. apply rsum_ext.
  intros t _. unfold overlap_weight.
  destruct Hw as [-> | ->]; [done|]. destruct (weightTags o); lra.
Qed.

Lemma overlap_counts_shared_witness :
  Query.tagSimilarity sample_store
    (sample_row ["x"; "y"; "z"]) (sample_row ["z"; "x"]) (sim_mode "overlap")
  = 2.
Proof.
  rewrite (proj2 (overlap_counts_shared sample_store
                    (sample_row ["x"; "y"; "z"]) (sample_row ["z"; "x"])
                    (sim_mode "overlap") eq_refl) (or_intror eq_refl)).
  vm_compute. lra.
Defined.

(** X12: [jaccard] is [1] exactly on two rows with the same tags, tags there
    being, and [0] exactly on two rows that share no tag. *)
Theorem jaccard_extremes (store : Store) (a b : Row) (o : SimOpts) :
  mode o = "jaccard" ->
  (Query.tagSimilarity store a b o = 1
   <-> tags a <> [] /\ forall t, t ∈ tags a <-> t ∈ tags b)
  /\ (Query.tagSimilarity store a b o = 0
      <-> forall t, t ∈ tags a -> t ∉ tags b).
Proof.
  intros Hm. unfold Query.tagSimilarity. rewrite Hm.
  simpl bool_decide. cbv iota.
  set (A := JsSet.of_list (tags a)). set (B := JsSet.of_list (tags b)).
  assert (NoDup A) as HA by apply NoDup_of_list.
  assert (NoDup B) as HB by apply NoDup_of_list.
  assert (forall t, t ∈ A <-> t ∈ tags a) as HAm
    by (intros t; apply elem_of_of_list).
  assert (forall t, t ∈ B <-> t ∈ tags b) as HBm
    by (intros t; apply elem_of_of_list).
  pose proof (inter_le_left A B) as Hil.
  pose proof (inter_le_right A B HA) as Hir.
  pose proof (left_le_union A B HA) as Hlu.
  pose proof (right_le_union A B HB) as Hru.
  unfold JsSet.size in *.
  destruct (length (JsSet.of_list (A ++ B)) =? 0)%nat eqn:E.
  - apply Nat.eqb_eq in E.
    apply length_zero_iff_nil, of_list_nil_inv, app_eq_nil in E as [EA EB].
    assert (tags a = []) as Ea by (by apply of_list_nil_inv).
    split.
    + split; [lra | tauto].
    + split; [|done]. intros _ t Ht. rewrite Ea in Ht. by apply elem_of_nil in Ht.
  - apply Nat.eqb_neq in E.
    assert (0 < INR (length (JsSet.of_list (A ++ B))))
      by (apply lt_0_INR; lia).
    split.
    + split.
      * intros H1.
        assert (INR (Query.count_inter A B)
                = INR (length (JsSet.of_list (A ++ B)))) as Heq.
        { apply (Rmult_eq_reg_r (/ INR (length (JsSet.of_list (A ++ B)))));
            [|apply Rinv_neq_0_compat; lra].
          unfold Rdiv in H1. rewrite H1. field. lra. }
        apply INR_eq in Heq.
        assert (forall t, t ∈ A -> t ∈ B) as HAB.
        { intros t Ht. destruct (decide (t ∈ B)) as [|Hn]; [done|].
          pose proof (length_filter_lt (fun t => t ∈ B) A t Ht Hn) as Hlt.
          rewrite <- count_inter_filter in Hlt. lia. }
        assert (forall t, t ∈ B -> t ∈ A) as HBA.
        { intros t Ht. destruct (decide (t ∈ A)) as [|Hn]; [done|].
          pose proof (length_filter_lt (fun t => t ∈ A) B t Ht Hn) as Hlt.
          rewrite <- count_inter_filter, (count_inter_comm B A HB HA) in Hlt.
          lia. }
        split.
        -- intros Ea. assert (A = []) as EA by (subst A; by rewrite Ea).
           assert (B = []) as EB.
           { apply nil_by_members. intros t Ht. apply HBA in Ht.
             rewrite EA in Ht. by apply elem_of_nil in Ht. }
           rewrite EA, EB in E. done.
        -- intros t. rewrite <- HAm, <- HBm. split; auto.
      * intros [Hne Hsame].
        assert (forall t, t ∈ A <-> t ∈ B) as Hs
          by (intros t; rewrite HAm, HBm; apply Hsame).
        assert (JsSet.of_list (A ++ B) = A) as EU.
        { unfold JsSet.of_list. rewrite foldl_app.
          fold (JsSet.of_list A). rewrite (of_list_NoDup A HA).
          apply foldl_add_present. intros t Ht. by apply Hs. }
        rewrite EU in *. rewrite count_inter_filter.
        rewrite (filter_all (fun t => t ∈ B) A) by (intros t Ht; by apply Hs).
        field. lra.
    + split.
      * intros H0 t Ht Hb.
        assert (INR (Query.count_inter A B) = 0) as Hz.
        { unfold Rdiv in H0.
          apply Rmult_integral in H0 as [?|Hinv]; [done|].
          apply Rinv_neq_0_compat in Hinv; [done | lra]. }
        rewrite count_inter_filter in Hz.
        assert (filter (fun t => t ∈ B) A = []) as Hnil.
        { apply length_zero_iff_nil, INR_eq. by rewrite Hz. }
        assert (t ∈ filter (fun t => t ∈ B) A) as Hin
          by (apply list_elem_of_filter; split; [by apply HBm | by apply HAm]).
        rewrite Hnil in Hin. by apply elem_of_nil in Hin.
      * intros Hdis.
        assert (filter (fun t => t ∈ B) A = []) as Hnil.
        { apply nil_by_members. intros t [Hb Ha]%list_elem_of_filter.
          apply (Hdis t); [by apply HAm | by apply HBm]. }
        rewrite count_inter_filter, Hnil. unfold Rdiv. simpl. lra.
Qed.

Lemma jaccard_extremes_witness :
  Query.tagSimilarity sample_store (sample_row ["x"; "y"]) (sample_row ["y"; "x"])
    (sim_mode "jaccard") = 1.
Proof.
  apply (proj1 (jaccard_extremes sample_store (sample_row ["x"; "y"])
                  (sample_row ["y"; "x"]) (sim_mode "jaccard") eq_refl)).
  split; [done|].
  intros t. simpl. rewrite !elem_of_cons. tauto.
Defined.

End SimilarityRange.

Section Deduplication.
Variable tags_of : RawChar -> list string.

Lemma add_character_step (b : gmap string Row) (r : list Row) (c : RawChar) :
  add_character tags_of (b, r) c
  = if bool_decide (is_Some (b !! deriveId c)) then (b, r)
    else (<[deriveId c := new_row c (tags_of c)]> b,
          r ++ [new_row c (tags_of c)]).
Proof. done. Qed.

Lemma add_characters_ids (cs : list RawChar) :
  forall (b0 : gmap string Row) (r0 : list Row),
    (forall i, is_Some (b0 !! i) <-> i ∈ map id r0) ->
    let st := foldl (add_character tags_of) (b0, r0) cs in
    map id st.2 = foldl JsSet.add (map id r0) (map deriveId cs)
    /\ (forall i, is_Some (st.1 !! i) <-> i ∈ map id st.2)
    /\ exists more, st.2 = r0 ++ more.
Proof.
  induction cs as [|c cs IH]; intros b0 r0 Hb.
  - cbn. split_and!; [done | done |]. exists []. by rewrite app_nil_r.
  - cbn [foldl map]. rewrite add_character_step. unfold JsSet.add at 2.
    unfold JsSet.has.
    destruct (decide (is_Some (b0 !! deriveId c))) as [Hin|Hout].
    + rewrite bool_decide_eq_true_2 by done.
      rewrite bool_decide_eq_true_2 by (by apply Hb).
      by apply IH.
    + rewrite bool_decide_eq_false_2 by done.
      rewrite bool_decide_eq_false_2 by (by rewrite <- Hb).
      specialize (IH (<[deriveId c := new_row c (tags_of c)]> b0)
                     (r0 ++ [new_row c (tags_of c)])).
      cbn zeta in IH. rewrite map_app in IH. cbn [map id new_row] in IH.
      destruct IH as (I1 & I2 & more & I3).
      * intros i. rewrite elem_of_app, list_elem_of_singleton, <- Hb.
        destruct (decide (deriveId c = i)) as [->|Hne].
        -- rewrite lookup_insert_eq. split; [by right | by eexists].
        -- rewrite lookup_insert_ne by done. split; [by left|].
           intros [?|?]; [done | congruence].
      * split_and!; [done | done |].
        exists (new_row c (tags_of c) :: more). by rewrite I3, <- app_assoc.
Qed.


Lemma norm_rows_first (p : Payload) (pre post : list RawChar) (c : RawChar) :
  characters p = pre ++ c :: post ->
  deriveId c ∉ map deriveId pre ->
  new_row c (tags_of c) ∈ norm_rows tags_of p.
Proof.
  intros Hc Hfirst. unfold norm_rows. rewrite Hc, foldl_app. cbn [foldl].
  pose proof (add_characters_ids pre ∅ []) as (H1 & H2 & _).
  { intros i. rewrite lookup_empty.
    split; [by intros [? ?] | by intros ?%elem_of_nil]. }
  destruct (foldl (add_character tags_of) (∅, []) pre) as [b1 r1].
  cbn [fst snd] in *.
  assert (~ is_Some (b1 !! deriveId c)) as Hout.
  { rewrite H2, H1. intros Hx. apply Hfirst.
    by apply (elem_of_of_list (map deriveId pre)). }
  rewrite add_character_step, bool_decide_eq_false_2 by done.
  pose proof (add_characters_ids post
                (<[deriveId c := new_row c (tags_of c)]> b1)
                (r1 ++ [new_row c (tags_of c)])) as (_ & _ & more & ->).
  { intros i. rewrite map_app, elem_of_app. cbn [map id new_row].
    rewrite list_elem_of_singleton, <- H2.
    destruct (decide (deriveId c = i)) as [->|Hne].
    - rewrite lookup_insert_eq. split; [by right | by eexists].
    - rewrite lookup_insert_ne by done. split; [by left|].
      intros [?|?]; [done | congruence]. }
  rewrite !elem_of_app, list_elem_of_singleton. left. by right.
Qed.


End Deduplication.

Section Characters.


Lemma first_row_kept (p : Payload) (pre post : list RawChar) (c : RawChar) :
  characters p = pre ++ c :: post ->
  deriveId c ∉ map deriveId pre ->
  row_of p c ∈ rows (buildStore p).
Proof.
  intros Hc Hfirst.
  unfold row_of, buildStore at 2. rewrite rows_buildStore_with.
  apply (list_elem_of_fmap_2 (with_metrics _)).
  by apply (norm_rows_first _ p pre post c).
Qed.


End Characters.

Section Postings.

(** The inner loop of the tag index on the inverted index: each tag of the
    row that was not seen before gets the id of the row. *)
Lemma index_tags_ids (rid : string) (l : list string) :
  forall (seen : list string) (ids : gmap string (list string))
         (df : gmap string nat) (t : string),
    (foldl (index_tag rid) (seen, ids, df) l).1.2 !! t
    = if decide (t ∈ l /\ t ∉ seen)
      then Some (JsSet.add (default [] (ids !! t)) rid) else ids !! t.
Proof.
  induction l as [|x l IH]; intros seen ids df t.
  - simpl. destruct (decide (t ∈ [] /\ t ∉ seen)) as [[Ht _]|_];
      [by apply elem_of_nil in Ht | done].
  - cbn [foldl]. unfold index_tag at 2.
    destruct (JsSet.has seen x) eqn:Hx.
    + apply has_true in Hx. rewrite IH.
      destruct (decide (t ∈ l /\ t ∉ seen)) as [[H1 H2]|Hn].
      * rewrite decide_True; [done|]. split; [by apply list_elem_of_further | done].
      * rewrite decide_False; [done|].
        intros [[->|H1]%elem_of_cons H2]; [done | by apply Hn].
    + apply has_false in Hx. rewrite IH.
      destruct (decide (t = x)) as [->|Hne].
      * rewrite decide_False.
        2:{ intros [_ H2]. apply H2, elem_of_add. by right. }
        rewrite lookup_insert_eq.
        rewrite decide_True; [done|]. split; [apply list_elem_of_here | done].
      * rewrite lookup_insert_ne by done.
        destruct (decide (t ∈ l /\ t ∉ seen)) as [[H1 H2]|Hn].
        -- rewrite decide_True.
           2:{ split; [done|]. rewrite elem_of_add. intros [?|?]; done. }
           rewrite decide_True; [done|]. split; [by apply list_elem_of_further | done].
        -- rewrite decide_False.
           2:{ intros [H1 H2]. apply Hn. split; [done|].
               intros Hs. apply H2, elem_of_add. by left. }
           rewrite decide_False; [done|].
           intros [[->|H1]%elem_of_cons H2]; [done | by apply Hn].
Qed.

Lemma index_row_ids (ids : gmap string (list string)) (df : gmap string nat)
    (r : Row) (t : string) :
  (index_row (ids, df) r).1 !! t
  = if decide (t ∈ tags r)
    then Some (JsSet.add (default [] (ids !! t)) (id r)) else ids !! t.
Proof.
  unfold index_row.
  pose proof (index_tags_ids (id r) (tags r) [] ids df t) as H.
  destruct (foldl (index_tag (id r)) ([], ids, df) (tags r)) as [[seen ids'] df'].
  simpl in *. rewrite H.
  destruct (decide (t ∈ tags r)) as [Ht|Ht].
  - rewrite decide_True; [done|]. split; [done | apply not_elem_of_nil].
  - rewrite decide_False; [done|]. by intros [? _].
Qed.

Lemma index_rows_ids (rs : list Row) (t : string) :
  forall (ids : gmap string (list string)) (df : gmap string nat),
    (foldl index_row (ids, df) rs).1 !! t
    = match carriers t rs with
      | [] => ids !! t
      | cs => Some (foldl JsSet.add (default [] (ids !! t)) (map id cs))
      end.
Proof.
  unfold carriers.
  induction rs as [|r rs IH]; intros ids df; [done|].
  cbn [foldl].
  destruct (index_row (ids, df) r) as [ids' df'] eqn:E.
  rewrite IH. pose proof (index_row_ids ids df r t) as H.
  rewrite E in H. cbn [fst] in H. rewrite H, filter_cons.
  destruct (decide (t ∈ tags r)); [|done].
  by destruct (filter _ rs).
Qed.

Lemma carriers_with_metrics (i : gmap string R) (rs : list Row) (t : string) :
  map id (carriers t (map (with_metrics i) rs)) = map id (carriers t rs).
Proof.
  unfold carriers. induction rs as [|r rs IH]; [done|].
  cbn [map]. rewrite !filter_cons. cbn [tags with_metrics].
  destruct (decide (t ∈ tags r)); cbn [map id with_metrics]; by rewrite IH.
Qed.

Lemma tagToIds_buildStore_with (tags_of : RawChar -> list string)
    (p : Payload) :
  tagToIds (buildStore_with tags_of p)
  = (foldl index_row (∅, ∅) (norm_rows tags_of p)).1.
Proof.
  unfold buildStore_with, norm_rows.
  destruct (foldl (add_character tags_of) _ _) as [b0 rows0].
  cbn [fst snd]. by destruct (foldl index_row _ rows0).
Qed.

Lemma postings_built (tags_of : RawChar -> list string) (p : Payload)
    (t : string) :
  let st := buildStore_with tags_of p in
  tagToIds st !! t
  = match carriers t (rows st) with
    | [] => None
    | cs => Some (map id cs)
    end.
Proof.
  intros st. subst st.
  rewrite tagToIds_buildStore_with, index_rows_ids, lookup_empty.
  pose proof (carriers_with_metrics (idf (buildStore_with tags_of p))
                (norm_rows tags_of p) t) as Hc.
  rewrite <- rows_buildStore_with in Hc.
  assert (NoDup (map id (carriers t (norm_rows tags_of p)))) as Hnd.
  { pose proof (norm_rows_inv tags_of p) as [Hn _].
    eapply sublist_NoDup; [exact Hn|].
    unfold carriers. apply (fmap_sublist id), sublist_filter. }
  destruct (carriers t (norm_rows tags_of p)) as [|c cs] eqn:E1;
    destruct (carriers t (rows (buildStore_with tags_of p))) as [|c' cs'] eqn:E2;
    try done.
  f_equal. rewrite Hc. cbn [default].
  change (foldl JsSet.add [] ?l) with (JsSet.of_list l).
  by apply of_list_NoDup.
Qed.

(** X15: the inverted index [tagToIds] holds, for every tag that some row
    carries, the ids of the rows that carry it, each once and in the order
    of the rows; a tag that no row carries has no entry; and the entries are
    as long as the document frequencies behind the IDF table. *)
Theorem tag_postings (p : Payload) (t : string) :
  let st := buildStore p in
  tagToIds st !! t
  = match carriers t (rows st) with
    | [] => None
    | cs => Some (map id cs)
    end
  /\ (forall i, i ∈ default [] (tagToIds st !! t)
                <-> exists r, r ∈ rows st /\ id r = i /\ t ∈ tags r)
  /\ NoDup (default [] (tagToIds st !! t))
  /\ length (default [] (tagToIds st !! t)) = doc_freq t (rows st)
  /\ (is_Some (tagToIds st !! t) <-> is_Some (idf st !! t)).
Proof.
  intros st.
  pose proof (postings_built (row_tags (tag_map p)) p t) as H.
  fold (buildStore p) in H. cbn zeta in H. fold st in H.
  assert (default [] (tagToIds st !! t) = map id (carriers t (rows st))) as Hd.
  { rewrite H. by destruct (carriers t (rows st)). }
  split_and!.
  - done.
  - intros i. rewrite Hd. unfold carriers. split.
    + intros (r & -> & [Ht Hr]%list_elem_of_filter)%list_elem_of_fmap.
      by exists r.
    + intros (r & Hr & <- & Ht).
      apply (list_elem_of_fmap_2 id), list_elem_of_filter. done.
  - rewrite Hd. eapply sublist_NoDup; [apply (ids_unique (row_tags (tag_map p)) p)|].
    unfold carriers. apply (fmap_sublist id), sublist_filter.
  - rewrite Hd, length_map. done.
  - rewrite H.
    pose proof (idf_built (row_tags (tag_map p)) p t) as Hi.
    fold (buildStore p) in Hi. cbn zeta in Hi. fold st in Hi. rewrite Hi.
    unfold doc_freq, carriers.
    destruct (filter _ (rows st)); cbn [length]; split; intros [? ?];
      first [done | by eexists].
Qed.

End Postings.

Section Rarity.
Local Open Scope R_scope.

Lemma rsum_le {A : Type} (f g : A -> R) (l : list A) :
  (forall x, x ∈ l -> f x <= g x) -> rsum f l <= rsum g l.
Proof.
  induction l as [|x l IH]; intros H; [simpl; lra|].
  cbn [rsum]. pose proof (H x ltac:(left)).
  assert (rsum f l <= rsum g l) by (apply IH; intros y Hy; apply H; by right).
  lra.
Qed.

Lemma built_weight_ge_1 (tags_of : RawChar -> list string) (p : Payload)
    (r : Row) (t : string) :
  let st := buildStore_with tags_of p in
  r ∈ rows st -> t ∈ tags r ->
  exists w, idf st !! t = Some w /\ 1 <= w.
Proof.
  intros st Hr Ht. subst st. rewrite idf_built.
  pose proof (doc_freq_le (rows (buildStore_with tags_of p)) t) as Hle.
  destruct (doc_freq t (rows (buildStore_with tags_of p))) as [|n] eqn:E.
  - exfalso. unfold doc_freq in E.
    apply length_zero_iff_nil in E.
    assert (r ∈ filter (fun r => t ∈ tags r) (rows (buildStore_with tags_of p)))
      as Hin by (by apply list_elem_of_filter).
    rewrite E in Hin. by apply elem_of_nil in Hin.
  - eexists. split; [done|]. by apply idf_weight_ge_1.
Qed.

Lemma built_sigma_ge (tags_of : RawChar -> list string) (p : Payload)
    (r : Row) :
  let st := buildStore_with tags_of p in
  r ∈ rows st -> INR (tag_count r) <= sigma_idf r.
Proof.
  intros st Hr.
  destruct (built_row_metrics tags_of p r Hr) as (-> & -> & _).
  rewrite <- rsum_const_1. apply rsum_le. intros t Ht.
  destruct (built_weight_ge_1 tags_of p r t Hr Ht) as (w & -> & Hw).
  cbn [num_or]. destruct (is_zero w) eqn:E; [|done].
  apply is_zero_true in E. lra.
Qed.

(** X16: in a built store every tag of a row has an IDF weight, of at least
    [1]; so the rarity [sigma_idf] of a row is at least its [tag_count],
    which is the length of its tag list, and at most [tag_count] times the
    number of rows plus one.  It holds in both copies of the backend. *)
Theorem rarity_bounds (p : Payload) (r : Row) :
  (r ∈ rows (buildStore p) ->
     tag_count r = length (tags r)
     /\ (forall t, t ∈ tags r ->
           exists w, idf (buildStore p) !! t = Some w /\ 1 <= w)
     /\ INR (tag_count r) <= sigma_idf r
     /\ sigma_idf r
        <= INR (tag_count r) * (INR (length (rows (buildStore p))) + 1))
  /\ (r ∈ rows (buildStore_legacy p) ->
      tag_count r = length (tags r)
      /\ INR (tag_count r) <= sigma_idf r
      /\ sigma_idf r
         <= INR (tag_count r)
            * (INR (length (rows (buildStore_legacy p))) + 1)).
Proof.
  split.
  - intros Hr. split_and!.
    + by destruct (built_row_metrics (row_tags (tag_map p)) p r Hr) as (-> & _).
    + intros t Ht. by apply (built_weight_ge_1 (row_tags (tag_map p)) p r t).
    + by apply (built_sigma_ge (row_tags (tag_map p)) p r).
    + by apply (built_sigma_le (row_tags (tag_map p)) p r).
  - intros Hr. split_and!.
    + by destruct (built_row_metrics legacy_tags p r Hr) as (-> & _).
    + by apply (built_sigma_ge legacy_tags p r).
    + by apply (built_sigma_le legacy_tags p r).
Qed.

End Rarity.

Section DerivedIds.
Local Open Scope Z_scope.

Lemma digit36_spec (d : Z) :
  0 <= d < 36 ->
  digit_value (Hash.digit36 d) = d /\ is_lower_alnum (Hash.digit36 d) = true.
Proof.
  intros Hd.
  assert (exists k : nat, (k < 36)%nat /\ d = Z.of_nat k) as (k & Hk & ->).
  { exists (Z.to_nat d). lia. }
  clear Hd.
  do 36 (destruct k as [|k]; [by vm_compute|]). lia.
Qed.

Lemma string_length_app (s1 s2 : string) :
  String.length (s1 +:+ s2) = (String.length s1 + String.length s2)%nat.
Proof.
  induction s1 as [|c s1 IH]; [done|].
  rewrite append_cons. cbn [String.length]. by rewrite IH.
Qed.

Lemma base36_value_app (s1 s2 : string) :
  forall acc,
    base36_value acc (s1 +:+ s2) = base36_value (base36_value acc s1) s2.
Proof.
  induction s1 as [|c s1 IH]; intros acc; [done|].
  rewrite append_cons. cbn [base36_value]. apply IH.
Qed.

(** [toString(36)] writes the digits of its argument, highest first, and no
    more digits than the fuel of the model allows. *)
Lemma to_base36_digits (fuel : nat) :
  forall (n : Z) (acc : string),
    (0 < fuel)%nat -> 0 <= n < 36 ^ Z.of_nat fuel ->
    exists ds,
      Hash.to_base36 fuel n acc = ds +:+ acc
      /\ base36_value 0 ds = n
      /\ (1 <= String.length ds <= fuel)%nat
      /\ all_chars is_lower_alnum ds = true.
Proof.
  induction fuel as [|fuel IH]; intros n acc Hf Hn; [lia|].
  cbn [Hash.to_base36].
  assert (0 <= n mod 36 < 36) as Hm by (apply Z.mod_pos_bound; lia).
  destruct (digit36_spec _ Hm) as [Hv Ha].
  destruct (n / 36 =? 0) eqn:E.
  - apply Z.eqb_eq in E.
    exists (String (Hash.digit36 (n mod 36)) EmptyString).
    refine (conj _ (conj _ (conj _ _)));
      [done | | simpl; lia | by (cbn [all_chars]; rewrite Ha)].
    cbn [base36_value]. rewrite Hv.
    pose proof (Z.div_mod n 36 ltac:(lia)). lia.
  - apply Z.eqb_neq in E.
    assert (0 < n / 36) as Hq.
    { assert (0 <= n / 36) by (apply Z.div_pos; lia). lia. }
    assert (n / 36 < 36 ^ Z.of_nat fuel) as Hlt.
    { apply Z.div_lt_upper_bound; [lia|].
      rewrite Nat2Z.inj_succ, Z.pow_succ_r in Hn by lia. lia. }
    assert (0 < fuel)%nat as Hf'.
    { destruct fuel; [|lia]. simpl in Hlt. lia. }
    destruct (IH (n / 36) (String (Hash.digit36 (n mod 36)) acc) Hf')
      as (ds & -> & Hds & Hlen & Hall); [lia|].
    exists (ds +:+ String (Hash.digit36 (n mod 36)) EmptyString).
    refine (conj _ (conj _ (conj _ _))).
    + by rewrite append_assoc.
    + rewrite base36_value_app, Hds. cbn [base36_value]. rewrite Hv.
      pose proof (Z.div_mod n 36 ltac:(lia)). lia.
    + rewrite string_length_app. simpl. lia.
    + rewrite all_chars_app, Hall. cbn [all_chars]. by rewrite Ha.
Qed.

Lemma hashString_digits (s : string) :
  exists ds,
    Hash.hashString s = ds
    /\ base36_value 0 ds = hash_value s
    /\ (1 <= String.length ds <= 7)%nat
    /\ all_chars is_lower_alnum ds = true.
Proof.
  unfold Hash.hashString. fold (hash_value s).
  assert (0 <= hash_value s < 36 ^ Z.of_nat 7) as Hr.
  { unfold hash_value, Hash.to_uint32.
    pose proof (Z.mod_pos_bound
                  (foldl Hash.hash_round 5381 (list_ascii_of_string s))
                  (2 ^ 32) ltac:(lia)) as Hb.
    change (36 ^ Z.of_nat 7) with 78364164096.
    change (2 ^ 32) with 4294967296 in *. lia. }
  destruct (to_base36_digits 7 (hash_value s) EmptyString ltac:(lia) Hr)
    as (ds & E & Hv & Hl & Ha).
  exists ds. rewrite E, append_nil_r. done.
Qed.

(** X17: [hashString] writes a 32-bit value in base 36: its result has one to
    seven characters, all digits or lower-case letters, and read back as a
    base-36 numeral it is the value of the hash, which is below [2^32]. *)
Theorem hash_string_digits (s : string) :
  base36_value 0 (Hash.hashString s) = hash_value s
  /\ 0 <= hash_value s < 2 ^ 32
  /\ (1 <= String.length (Hash.hashString s) <= 7)%nat
  /\ all_chars is_lower_alnum (Hash.hashString s) = true
  /\ Hash.hashString EmptyString = "45h".
Proof.
  destruct (hashString_digits s) as (ds & -> & Hv & Hl & Ha).
  refine (conj Hv (conj _ (conj Hl (conj Ha _)))); [|by vm_compute].
  unfold hash_value, Hash.to_uint32. apply Z.mod_pos_bound. lia.
Qed.

End DerivedIds.

Section DerivedIdShape.

Lemma truthy_split (s : string) : truthy s = true \/ s = EmptyString.
Proof. destruct s; [by right | by left]. Qed.



End DerivedIdShape.

Section EscapeHTML.
#[local] Arguments String.append !_ _ / : simpl nomatch.

Lemma replace_char_app (c : ascii) (by_ x y : string) :
  replace_char c by_ (x +:+ y) = replace_char c by_ x +:+ replace_char c by_ y.
Proof.
  induction x as [|ch x IH]; [done|].
  rewrite append_cons. cbn [replace_char]. by rewrite IH, append_assoc.
Qed.

Lemma escape_entity (c : ascii) :
  escapeHTML (String c EmptyString) = html_entity c.
Proof.
  unfold html_entity.
  destruct (decide (c = "&"%char)) as [->|H1]; [done|].
  destruct (decide (c = "<"%char)) as [->|H2]; [done|].
  destruct (decide (c = ">"%char)) as [->|H3]; [done|].
  destruct (decide (c = dq)) as [->|H4]; [done|].
  destruct (decide (c = "'"%char)) as [->|H5]; [done|].
  rewrite !bool_decide_eq_false_2 by done.
  unfold escapeHTML. cbn [replace_char].
  rewrite (bool_decide_eq_false_2 (c = "&"%char)) by done. cbn.
  rewrite (bool_decide_eq_false_2 (c = "<"%char)) by done. cbn.
  rewrite (bool_decide_eq_false_2 (c = ">"%char)) by done. cbn.
  rewrite (bool_decide_eq_false_2 (c = dq)) by done. cbn.
  by rewrite (bool_decide_eq_false_2 (c = "'"%char)) by done.
Qed.

Lemma escapeHTML_app (x y : string) :
  escapeHTML (x +:+ y) = escapeHTML x +:+ escapeHTML y.
Proof. unfold escapeHTML. by rewrite !replace_char_app. Qed.

Lemma escapeHTML_each (s : string) : escapeHTML s = escape_each s.
Proof.
  induction s as [|c s IH]; [done|].
  change (String c s) with (String c EmptyString +:+ s).
  rewrite escapeHTML_app, escape_entity, IH. done.
Qed.

Lemma entity_safe (c : ascii) :
  all_chars (fun x => negb (html_special x) || bool_decide (x = "&"%char))
    (html_entity c) = true
  /\ html_entity c <> EmptyString.
Proof.
  unfold html_entity.
  destruct (decide (c = "&"%char)) as [->|H1]; [done|].
  destruct (decide (c = "<"%char)) as [->|H2]; [done|].
  destruct (decide (c = ">"%char)) as [->|H3]; [done|].
  destruct (decide (c = dq)) as [->|H4]; [done|].
  destruct (decide (c = "'"%char)) as [->|H5]; [done|].
  rewrite !bool_decide_eq_false_2 by done. split; [|done].
  cbn [all_chars]. unfold html_special.
  by rewrite !bool_decide_eq_false_2 by done.
Qed.

Lemma decode_entity (c : ascii) (r : string) :
  decode_entities (html_entity c +:+ r) = String c (decode_entities r).
Proof.
  unfold html_entity.
  destruct (decide (c = "&"%char)) as [->|H1]; [done|].
  destruct (decide (c = "<"%char)) as [->|H2]; [done|].
  destruct (decide (c = ">"%char)) as [->|H3]; [done|].
  destruct (decide (c = dq)) as [->|H4]; [done|].
  destruct (decide (c = "'"%char)) as [->|H5]; [done|].
  rewrite !bool_decide_eq_false_2 by done.
  rewrite append_cons, append_nil_l. cbn [decode_entities].
  by rewrite bool_decide_eq_false_2.
Qed.

Lemma entity_length (c : ascii) :
  (if html_special c then 4 <= String.length (html_entity c)
   else html_entity c = String c EmptyString)%nat.
Proof.
  unfold html_entity, html_special.
  destruct (decide (c = "&"%char)) as [->|H1]; [simpl; lia|].
  destruct (decide (c = "<"%char)) as [->|H2]; [simpl; lia|].
  destruct (decide (c = ">"%char)) as [->|H3]; [simpl; lia|].
  destruct (decide (c = dq)) as [->|H4]; [simpl; lia|].
  destruct (decide (c = "'"%char)) as [->|H5]; [simpl; lia|].
  by rewrite !bool_decide_eq_false_2 by done.
Qed.

(** X19: the five passes of [escapeHTML] come to one pass that writes each of
    [& < > " '] as its entity and copies every other character: the
    ampersands of the entities written by the later passes are not escaped
    again.  So the result holds none of [< > " '], escaping goes through
    concatenation, and a text is left as it is exactly when it has none of
    the five characters. *)
Theorem escape_html_output (s t : string) :
  escapeHTML s = escape_each s
  /\ all_chars (fun x => negb (html_special x) || bool_decide (x = "&"%char))
       (escapeHTML s) = true
  /\ escapeHTML (s +:+ t) = escapeHTML s +:+ escapeHTML t
  /\ String.length s <= String.length (escapeHTML s)
  /\ (escapeHTML s = s <-> all_chars (fun x => negb (html_special x)) s = true)
  /\ sanitizeToText None = EmptyString
  /\ sanitizeToText (Some s) = escapeHTML s.
Proof.
  split_and!; [apply escapeHTML_each | | apply escapeHTML_app | | | done | done].
  - rewrite escapeHTML_each. induction s as [|c s IH]; [done|].
    cbn [escape_each]. rewrite all_chars_app, IH.
    by rewrite (proj1 (entity_safe c)).
  - rewrite escapeHTML_each. induction s as [|c s IH]; [done|].
    cbn [escape_each]. rewrite string_length_app. cbn [String.length].
    pose proof (entity_length c) as Hc.
    destruct (html_special c); [lia|]. rewrite Hc. simpl. lia.
  - rewrite escapeHTML_each.
    assert (forall u, String.length u <= String.length (escape_each u)) as Hlen.
    { induction u as [|c u IH]; [done|].
      cbn [escape_each]. rewrite string_length_app. cbn [String.length].
      pose proof (entity_length c) as Hc.
      destruct (html_special c); [lia|]. rewrite Hc. simpl. lia. }
    induction s as [|c s IH]; [done|].
    cbn [escape_each all_chars].
    pose proof (entity_length c) as Hc.
    destruct (html_special c) eqn:E; cbn [negb andb].
    + split; [|done]. intros H.
      apply (f_equal String.length) in H.
      rewrite string_length_app in H. cbn [String.length] in H.
      specialize (Hlen s). lia.
    + rewrite Hc, append_cons, append_nil_l. rewrite <- IH.
      split; [by intros [= ->] | by intros ->].
Qed.

(** X20: [escapeHTML] loses nothing: reading the five entities back gives the
    text that was escaped, so two different texts are never escaped to the
    same one. *)
Theorem escape_html_injective (s1 s2 : string) :
  decode_entities (escapeHTML s1) = s1
  /\ (escapeHTML s1 = escapeHTML s2 -> s1 = s2).
Proof.
  assert (forall s, decode_entities (escapeHTML s) = s) as Hd.
  { intros s. rewrite escapeHTML_each.
    induction s as [|c s IH]; [done|].
    cbn [escape_each]. by rewrite decode_entity, IH. }
  split; [apply Hd|].
  intros H. by rewrite <- (Hd s1), <- (Hd s2), H.
Qed.

End EscapeHTML.

Section Progress.
Local Open Scope R_scope.

Lemma clamp01_range (x : R) : 0 <= clamp01 x <= 1.
Proof.
  unfold clamp01.
  destruct (Rltb x 0) eqn:E1; [lra|]. apply Rltb_false in E1.
  destruct (Rltb 1 x) eqn:E2; [lra|]. apply Rltb_false in E2. lra.
Qed.

Lemma Int_part_bounds (x : R) : IZR (Int_part x) <= x < IZR (Int_part x) + 1.
Proof.
  unfold Int_part. destruct (archimed x) as [H1 H2].
  rewrite minus_IZR. lra.
Qed.

End Progress.

Section Loops.

(** The invariant rule of a counting loop. *)
Lemma foldl_seq_inv {S : Type} (f : S -> nat -> S) (I : nat -> S -> Prop)
    (len : nat) :
  forall (start : nat) (s : S),
    I start s ->
    (forall k s, start <= k < start + len -> I k s -> I (Datatypes.S k) (f s k)) ->
    I (start + len) (foldl f s (seq start len)).
Proof.
  induction len as [|len IH]; intros start s H0 Hstep.
  - by rewrite Nat.add_0_r.
  - rewrite seq_S, foldl_app. cbn [foldl].
    rewrite Nat.add_succ_r. apply Hstep; [lia|].
    apply IH; [done|]. intros k s' Hk. apply Hstep. lia.
Qed.

Lemma dims_replicate (rows cols : nat) :
  dims (replicate rows (replicate cols 0)) rows cols.
Proof.
  split; [apply length_replicate|].
  apply Forall_forall. intros r [-> _]%elem_of_replicate.
  apply length_replicate.
Qed.

Lemma get_replicate (rows cols j i : nat) :
  matrix_get (replicate rows (replicate cols 0)) j i = 0.
Proof.
  unfold matrix_get.
  destruct (replicate rows (replicate cols 0) !! j) as [r|] eqn:E; [|done].
  apply lookup_replicate in E as [-> _]. cbn.
  destruct (replicate cols 0 !! i) as [v|] eqn:E'; [|done].
  by apply lookup_replicate in E' as [-> _].
Qed.

Lemma dims_set (m : list (list nat)) (rows cols j i v : nat) :
  dims m rows cols -> dims (matrix_set m j i v) rows cols.
Proof.
  intros [Hl Hr]. unfold matrix_set. split; [by rewrite length_alter|].
  apply Forall_forall. intros r Hin.
  apply list_elem_of_lookup in Hin as [k Hk].
  rewrite Forall_forall in Hr.
  destruct (decide (j = k)) as [->|Hne].
  - rewrite list_lookup_alter_eq in Hk.
    destruct (m !! k) as [r0|] eqn:E; [|done]. injection Hk as <-.
    rewrite length_insert. apply Hr. by eapply list_elem_of_lookup_2.
  - rewrite list_lookup_alter_ne in Hk by done.
    apply Hr. by eapply list_elem_of_lookup_2.
Qed.

Lemma get_set (m : list (list nat)) (rows cols j i v j' i' : nat) :
  dims m rows cols -> j < rows -> i < cols ->
  matrix_get (matrix_set m j i v) j' i'
  = if decide (j' = j /\ i' = i) then v else matrix_get m j' i'.
Proof.
  intros [Hl Hr] Hj Hi. unfold matrix_get, matrix_set.
  rewrite Forall_forall in Hr.
  destruct (decide (j' = j)) as [->|Hne].
  - rewrite list_lookup_alter_eq.
    destruct (m !! j) as [r|] eqn:E.
    2:{ apply lookup_ge_None in E. lia. }
    cbn. assert (length r = cols) as Hlr
      by (apply Hr; by eapply list_elem_of_lookup_2).
    destruct (decide (i' = i)) as [->|Hni].
    + rewrite decide_True by done.
      by rewrite list_lookup_insert_eq by lia.
    + rewrite decide_False by tauto.
      by rewrite list_lookup_insert_ne by done.
  - rewrite list_lookup_alter_ne by done.
    by rewrite decide_False by tauto.
Qed.

End Loops.

Section EditDistance.

Lemma edit_nil_l (t : list ascii) : edit [] t = length t.
Proof. by destruct t. Qed.

Lemma edit_nil_r (s : list ascii) : edit s [] = length s.
Proof. by destruct s. Qed.

Lemma edit_cons (x y : ascii) (s t : list ascii) :
  edit (x :: s) (y :: t)
  = Nat.min (Nat.min (edit s (y :: t) + 1) (edit (x :: s) t + 1))
            (edit s t + (if bool_decide (x = y) then 0 else 1)).
Proof. done. Qed.

#[local] Opaque edit.

Lemma edit_sym (s : list ascii) : forall t, edit s t = edit t s.
Proof.
  induction s as [|x s IHs]; intros t.
  - by rewrite edit_nil_l, edit_nil_r.
  - induction t as [|y t IHt].
    + by rewrite edit_nil_l, edit_nil_r.
    + rewrite !edit_cons, IHt, (IHs (y :: t)), (IHs t).
      rewrite (Nat.min_comm (edit (y :: t) s + 1)).
      do 2 f_equal. destruct (decide (x = y)) as [->|Hne].
      * by rewrite !bool_decide_eq_true_2.
      * by rewrite !bool_decide_eq_false_2 by congruence.
Qed.

Lemma edit_refl (s : list ascii) : edit s s = 0.
Proof.
  induction s as [|x s IH]; [done|].
  rewrite edit_cons, IH, bool_decide_eq_true_2 by done. lia.
Qed.

Lemma edit_zero (s : list ascii) : forall t, edit s t = 0 -> s = t.
Proof.
  induction s as [|x s IHs]; intros t.
  - rewrite edit_nil_l. by intros ->%length_zero_iff_nil.
  - destruct t as [|y t].
    + rewrite edit_nil_r. done.
    + rewrite edit_cons. intros H.
      destruct (decide (x = y)) as [->|Hne].
      * rewrite bool_decide_eq_true_2 in H by done.
        f_equal. apply IHs. lia.
      * rewrite bool_decide_eq_false_2 in H by done. lia.
Qed.

Lemma edit_bounds (s : list ascii) :
  forall t,
    edit s t <= Nat.max (length s) (length t)
    /\ length s - length t <= edit s t
    /\ length t - length s <= edit s t.
Proof.
  induction s as [|x s IHs]; intros t.
  - rewrite edit_nil_l. simpl. lia.
  - induction t as [|y t IHt].
    + rewrite edit_nil_r. simpl. lia.
    + rewrite edit_cons.
      pose proof (IHs (y :: t)) as H1. pose proof (IHs t) as H2.
      cbn [length] in *.
      destruct (bool_decide (x = y)); lia.
Qed.

#[local] Transparent edit.

(** The cell of the matrix for the first [i] characters of [a] and the first
    [j] of [b]. *)
Lemma prefix_step {A : Type} (l : list A) (i : nat) :
  1 <= i <= length l ->
  exists x, l !! (i - 1) = Some x
            /\ reverse (take i l) = x :: reverse (take (i - 1) l).
Proof.
  intros Hi. destruct (lookup_lt_is_Some_2 l (i - 1) ltac:(lia)) as [x Hx].
  exists x. split; [done|].
  replace i with (S (i - 1)) at 1 by lia.
  by rewrite (take_S_r _ _ _ Hx), reverse_snoc.
Qed.

Lemma chars_length (s : string) : length (chars s) = String.length s.
Proof. unfold chars. induction s as [|c s IH]; [done|]. simpl. by rewrite IH. Qed.

Lemma chars_inj (s t : string) : chars s = chars t -> s = t.
Proof.
  unfold chars. intros H.
  by rewrite <- (string_of_list_ascii_of_string s),
             <- (string_of_list_ascii_of_string t), H.
Qed.

Lemma edit_prefix_step (ca cb : list ascii) (i j : nat) :
  1 <= i <= length ca -> 1 <= j <= length cb ->
  edit (reverse (take i ca)) (reverse (take j cb))
  = Nat.min
      (Nat.min (edit (reverse (take (i - 1) ca)) (reverse (take j cb)) + 1)
               (edit (reverse (take i ca)) (reverse (take (j - 1) cb)) + 1))
      (edit (reverse (take (i - 1) ca)) (reverse (take (j - 1) cb))
       + (if bool_decide (ca !! (i - 1) = cb !! (j - 1)) then 0 else 1)).
Proof.
  intros Hi Hj.
  destruct (prefix_step ca i Hi) as (x & Hx & Ex).
  destruct (prefix_step cb j Hj) as (y & Hy & Ey).
  rewrite Ex, Ey, edit_cons, Hx, Hy.
  do 2 f_equal. destruct (decide (x = y)) as [->|Hne].
  - by rewrite !bool_decide_eq_true_2.
  - by rewrite !bool_decide_eq_false_2 by congruence.
Qed.

(** The matrix of [levenshteinDistance] holds, in the end, the edit distance
    of the two strings read from their ends. *)
Lemma levenshtein_edit (a b : string) :
  levenshteinDistance a b = edit (reverse (chars a)) (reverse (chars b)).
Proof.
  unfold levenshteinDistance.
  set (ca := chars a). set (cb := chars b).
  rewrite <- (chars_length a), <- (chars_length b). fold ca cb.
  set (la := length ca). set (lb := length cb).
  set (D := fun i j => edit (reverse (take i ca)) (reverse (take j cb))).
  assert (forall i, D i 0 = Nat.min i la) as D0.
  { intros i. unfold D. rewrite take_0. cbn [reverse]. rewrite edit_nil_r.
    by rewrite length_reverse, length_take. }
  assert (forall j, D 0 j = Nat.min j lb) as D0'.
  { intros j. unfold D. rewrite take_0. cbn [reverse]. rewrite edit_nil_l.
    by rewrite length_reverse, length_take. }
  assert (forall i j, 1 <= i <= la -> 1 <= j <= lb ->
            D i j
            = Nat.min (Nat.min (D (i - 1) j + 1) (D i (j - 1) + 1))
                      (D (i - 1) (j - 1)
                       + (if bool_decide (ca !! (i - 1) = cb !! (j - 1))
                          then 0 else 1))) as Dstep
    by (intros i j Hi Hj; unfold D; by apply edit_prefix_step).
  (* the first row *)
  set (m1 := foldl (fun m i => matrix_set m 0 i i) _ (seq 0 (la + 1))).
  assert (dims m1 (lb + 1) (la + 1)
          /\ forall i, i < la + 1 -> matrix_get m1 0 i = i) as [Hd1 H1].
  { subst m1.
    apply (foldl_seq_inv (fun m i => matrix_set m 0 i i)
             (fun k m => dims m (lb + 1) (la + 1)
                         /\ forall i, i < k -> matrix_get m 0 i = i)
             (la + 1) 0).
    - split; [apply dims_replicate | lia].
    - intros k m Hk [Hd Hm]. split; [by apply dims_set|].
      intros i Hi. rewrite (get_set m (lb + 1) (la + 1)) by (done || lia).
      destruct (decide (0 = 0 /\ i = k)) as [[_ ->]|Hn]; [done|].
      apply Hm. lia. }
  (* the first column *)
  set (m2 := foldl (fun m j => matrix_set m j 0 j) m1 (seq 0 (lb + 1))).
  assert (dims m2 (lb + 1) (la + 1)
          /\ (forall i, i < la + 1 -> matrix_get m2 0 i = i)
          /\ forall j, j < lb + 1 -> matrix_get m2 j 0 = j) as (Hd2 & H2r & H2c).
  { subst m2.
    apply (foldl_seq_inv (fun m j => matrix_set m j 0 j)
             (fun k m => dims m (lb + 1) (la + 1)
                         /\ (forall i, i < la + 1 -> matrix_get m 0 i = i)
                         /\ forall j, j < k -> matrix_get m j 0 = j)
             (lb + 1) 0).
    - split_and!; [done | done | lia].
    - intros k m Hk (Hd & Hr & Hc). split_and!; [by apply dims_set | |].
      + intros i Hi. rewrite (get_set m (lb + 1) (la + 1)) by (done || lia).
        destruct (decide (0 = k /\ i = 0)) as [[<- ->]|Hn]; [done|].
        by apply Hr.
      + intros j Hj. rewrite (get_set m (lb + 1) (la + 1)) by (done || lia).
        destruct (decide (j = k /\ 0 = 0)) as [[-> _]|Hn]; [done|].
        apply Hc. lia. }
  (* the other rows *)
  set (step := fun (j : nat) (m : list (list nat)) (i : nat) =>
                 matrix_set m j i
                   (Nat.min
                      (Nat.min (matrix_get m j (i - 1) + 1)
                               (matrix_get m (j - 1) i + 1))
                      (matrix_get m (j - 1) (i - 1)
                       + (if bool_decide (ca !! (i - 1) = cb !! (j - 1))
                          then 0 else 1)))).
  set (m3 := foldl _ m2 (seq 1 lb)).
  assert (dims m3 (lb + 1) (la + 1)
          /\ (forall j i, j < 1 + lb -> i < la + 1 -> matrix_get m3 j i = D i j)
          /\ forall j, j < lb + 1 -> matrix_get m3 j 0 = D 0 j) as (_ & H3 & _).
  { subst m3.
    apply (foldl_seq_inv (fun m j => foldl (step j) m (seq 1 la))
             (fun k m => dims m (lb + 1) (la + 1)
                         /\ (forall j i, j < k -> i < la + 1 ->
                               matrix_get m j i = D i j)
                         /\ forall j, j < lb + 1 -> matrix_get m j 0 = D 0 j)
             lb 1).
    - split_and!; [done | |].
      + intros j i Hj Hi. assert (j = 0) as -> by lia.
        rewrite D0. rewrite H2r by done. lia.
      + intros j Hj. rewrite D0'. rewrite H2c by done. lia.
    - intros j m Hj (Hd & Hrows & Hcol).
      assert (dims (foldl (step j) m (seq 1 la)) (lb + 1) (la + 1)
              /\ (forall j' i, j' < j -> i < la + 1 ->
                    matrix_get (foldl (step j) m (seq 1 la)) j' i = D i j')
              /\ (forall j', j' < lb + 1 ->
                    matrix_get (foldl (step j) m (seq 1 la)) j' 0 = D 0 j')
              /\ forall i, i < 1 + la ->
                   matrix_get (foldl (step j) m (seq 1 la)) j i = D i j)
        as (Hd' & Hrows' & Hcol' & Hrow').
      { apply (foldl_seq_inv (step j)
                 (fun k m => dims m (lb + 1) (la + 1)
                             /\ (forall j' i, j' < j -> i < la + 1 ->
                                   matrix_get m j' i = D i j')
                             /\ (forall j', j' < lb + 1 ->
                                   matrix_get m j' 0 = D 0 j')
                             /\ forall i, i < k -> matrix_get m j i = D i j)
                 la 1).
        - split_and!; [done | done | done |].
          intros i Hi. assert (i = 0) as -> by lia. apply Hcol. lia.
        - intros i m' Hi (Hd' & Hrows' & Hcol' & Hrow').
          unfold step at 1 2 3 4.
          rewrite (Hrow' (i - 1)) by lia.
          rewrite (Hrows' (j - 1) i) by lia.
          rewrite (Hrows' (j - 1) (i - 1)) by lia.
          rewrite <- (Dstep i j) by lia.
          split_and!; [by apply dims_set | | |].
          + intros j' i' Hj' Hi'.
            rewrite (get_set m' (lb + 1) (la + 1)) by (done || lia).
            rewrite decide_False by lia. by apply Hrows'.
          + intros j' Hj'.
            rewrite (get_set m' (lb + 1) (la + 1)) by (done || lia).
            rewrite decide_False by lia. by apply Hcol'.
          + intros i' Hi'.
            rewrite (get_set m' (lb + 1) (la + 1)) by (done || lia).
            destruct (decide (j = j /\ i' = i)) as [[_ ->]|Hn]; [done|].
            apply Hrow'. lia. }
      split_and!; [done | | done].
      intros j' i Hj' Hi.
      destruct (decide (j' = j)) as [->|Hne]; [apply Hrow'; lia|].
      apply Hrows'; lia. }
  rewrite H3 by lia. unfold D, la, lb. by rewrite !firstn_all.
Qed.

(** X22: [levenshteinDistance] is a distance between strings: it is [0]
    exactly on equal strings, does not depend on the order of its
    arguments, is the length of the other string when one is empty, and lies
    between the difference of the two lengths and the longer of them. *)
Theorem levenshtein_distance_metric (a b : string) :
  (levenshteinDistance a b = 0 <-> a = b)
  /\ levenshteinDistance a b = levenshteinDistance b a
  /\ levenshteinDistance a EmptyString = String.length a
  /\ levenshteinDistance a b <= Nat.max (String.length a) (String.length b)
  /\ String.length a - String.length b <= levenshteinDistance a b
  /\ String.length b - String.length a <= levenshteinDistance a b.
Proof.
  rewrite !levenshtein_edit.
  pose proof (edit_bounds (reverse (chars a)) (reverse (chars b))) as Hb.
  rewrite !length_reverse, !chars_length in Hb.
  refine (conj _ (conj _ (conj _ Hb))).
  - split.
    + intros H. apply edit_zero in H.
      apply (inj reverse) in H. by apply chars_inj.
    + intros ->. apply edit_refl.
  - apply edit_sym.
  - change (chars EmptyString) with (@nil ascii). cbn [reverse].
    by rewrite edit_nil_r, length_reverse, chars_length.
Qed.

End EditDistance.

Section EditSimilarity.
Local Open Scope R_scope.

(** X23: [levenshteinSimilarity] lies between [0] and [1], is [1] exactly on
    equal strings, and does not depend on the order of its arguments. *)
Theorem levenshtein_similarity_range (a b : string) :
  0 <= levenshteinSimilarity a b <= 1
  /\ (levenshteinSimilarity a b = 1 <-> a = b)
  /\ levenshteinSimilarity a b = levenshteinSimilarity b a.
Proof.
  assert (levenshteinDistance a b = 0%nat <-> a = b) as Hz.
  { rewrite levenshtein_edit. split.
    - intros H. apply edit_zero in H.
      apply (inj reverse) in H. by apply chars_inj.
    - intros ->. apply edit_refl. }
  assert (levenshteinDistance b a = levenshteinDistance a b) as Hs
    by (rewrite !levenshtein_edit; apply edit_sym).
  assert ((levenshteinDistance a b
           <= Nat.max (String.length a) (String.length b))%nat) as Hub.
  { rewrite levenshtein_edit.
    pose proof (edit_bounds (reverse (chars a)) (reverse (chars b))) as [Hb _].
    by rewrite !length_reverse, !chars_length in Hb. }
  unfold levenshteinSimilarity. rewrite Hs, (Nat.max_comm (String.length b)).
  destruct (Nat.max (String.length a) (String.length b) =? 0)%nat eqn:E.
  - apply Nat.eqb_eq in E. split_and!; [lra | lra | | done].
    split; [|done]. intros _.
    assert (String.length a = 0%nat /\ String.length b = 0%nat) as [Ha Hb]
      by lia.
    destruct a, b; done.
  - apply Nat.eqb_neq in E.
    assert (0 < INR (Nat.max (String.length a) (String.length b)))
      by (apply lt_0_INR; lia).
    apply le_INR in Hub.
    pose proof (pos_INR (levenshteinDistance a b)) as H0.
    pose proof (frac_bounds _ _ (conj H0 Hub) H) as Hf.
    split_and!; [lra | lra | | done].
    rewrite <- Hz. split.
    + intros H1.
      assert (INR (levenshteinDistance a b) = 0) as Hd.
      { unfold Rdiv in H1.
        assert (INR (levenshteinDistance a b)
                * / INR (Nat.max (String.length a) (String.length b)) = 0)
          as Hm by lra.
        apply Rmult_integral in Hm as [?|Hinv]; [done|].
        apply Rinv_neq_0_compat in Hinv; [done | lra]. }
      by apply INR_eq.
    + intros ->. unfold Rdiv. simpl. lra.
Qed.

End EditSimilarity.

Section CommonSubsequence.

Lemma lcs_nil_l (t : list ascii) : lcs_length [] t = 0.
Proof. by destruct t. Qed.

Lemma lcs_nil_r (s : list ascii) : lcs_length s [] = 0.
Proof. by destruct s. Qed.

Lemma lcs_cons (x y : ascii) (s t : list ascii) :
  lcs_length (x :: s) (y :: t)
  = if bool_decide (x = y) then lcs_length s t + 1
    else Nat.max (lcs_length s (y :: t)) (lcs_length (x :: s) t).
Proof. done. Qed.

#[local] Opaque lcs_length.

(** There is a common subsequence as long as the recurrence says. *)
Lemma lcs_attained (s : list ascii) :
  forall t, exists w,
    w `sublist_of` s /\ w `sublist_of` t /\ length w = lcs_length s t.
Proof.
  induction s as [|x s IHs]; intros t.
  - exists []. rewrite lcs_nil_l. split_and!; [done | apply sublist_nil_l | done].
  - induction t as [|y t IHt].
    + exists []. rewrite lcs_nil_r. split_and!; [apply sublist_nil_l | done | done].
    + rewrite lcs_cons. destruct (decide (x = y)) as [->|Hne].
      * rewrite bool_decide_eq_true_2 by done.
        destruct (IHs t) as (w & H1 & H2 & H3).
        exists (y :: w). split_and!; [by apply sublist_skip | by apply sublist_skip|].
        simpl. lia.
      * rewrite bool_decide_eq_false_2 by done.
        destruct (Nat.max_spec (lcs_length s (y :: t)) (lcs_length (x :: s) t))
          as [[_ ->]|[_ ->]].
        -- destruct IHt as (w & H1 & H2 & H3).
           exists w. split_and!; [done | by apply sublist_cons | done].
        -- destruct (IHs (y :: t)) as (w & H1 & H2 & H3).
           exists w. split_and!; [by apply sublist_cons | done | done].
Qed.

(** No common subsequence is longer. *)
Lemma lcs_longest (s : list ascii) :
  forall t w,
    w `sublist_of` s -> w `sublist_of` t -> length w <= lcs_length s t.
Proof.
  induction s as [|x s IHs]; intros t w Hs Ht.
  - apply sublist_nil_r in Hs as ->. simpl. lia.
  - revert w Hs Ht. induction t as [|y t IHt]; intros w Hs Ht.
    + apply sublist_nil_r in Ht as ->. simpl. lia.
    + rewrite lcs_cons.
      apply sublist_cons_r in Hs as [Hs|(w1 & -> & Hs)].
      * (* the first character of [s] is not used *)
        pose proof (IHs (y :: t) w Hs Ht) as H.
        destruct (decide (x = y)) as [->|Hne].
        -- rewrite bool_decide_eq_true_2 by done.
           apply sublist_cons_r in Ht as [Ht|(w2 & -> & Ht)].
           ++ pose proof (IHs t w Hs Ht). lia.
           ++ assert (w2 `sublist_of` s) as Hs2
                by (etrans; [apply sublist_cons, reflexivity | exact Hs]).
              pose proof (IHs t w2 Hs2 Ht). simpl. lia.
        -- rewrite bool_decide_eq_false_2 by done. lia.
      * apply sublist_cons_r in Ht as [Ht|(w2 & [= -> ->] & Ht)].
        -- (* the first character of [t] is not used *)
           assert (x :: w1 `sublist_of` x :: s) as Hs' by (by apply sublist_skip).
           pose proof (IHt (x :: w1) Hs' Ht) as H.
           destruct (decide (x = y)) as [->|Hne].
           ++ rewrite bool_decide_eq_true_2 by done.
              assert (w1 `sublist_of` t) as Ht1
                by (etrans; [apply sublist_cons, reflexivity | exact Ht]).
              pose proof (IHs t w1 Hs Ht1). simpl. lia.
           ++ rewrite bool_decide_eq_false_2 by done. lia.
        -- rewrite bool_decide_eq_true_2 by done.
           pose proof (IHs t w2 Hs Ht). simpl. lia.
Qed.

#[local] Transparent lcs_length.

Lemma lcs_prefix_step (ca cb : list ascii) (i j : nat) :
  1 <= i <= length ca -> 1 <= j <= length cb ->
  lcs_length (reverse (take i ca)) (reverse (take j cb))
  = if bool_decide (ca !! (i - 1) = cb !! (j - 1))
    then lcs_length (reverse (take (i - 1) ca)) (reverse (take (j - 1) cb)) + 1
    else Nat.max
           (lcs_length (reverse (take (i - 1) ca)) (reverse (take j cb)))
           (lcs_length (reverse (take i ca)) (reverse (take (j - 1) cb))).
Proof.
  intros Hi Hj.
  destruct (prefix_step ca i Hi) as (x & Hx & Ex).
  destruct (prefix_step cb j Hj) as (y & Hy & Ey).
  rewrite Ex, Ey, lcs_cons, Hx, Hy.
  destruct (decide (x = y)) as [->|Hne].
  - by rewrite !bool_decide_eq_true_2.
  - by rewrite !bool_decide_eq_false_2 by congruence.
Qed.

(** The matrix of [longestCommonSubsequence] holds, in the end, the value of
    the recurrence on the two strings read from their ends. *)
Lemma lcs_matrix (a b : string) :
  longestCommonSubsequence a b
  = lcs_length (reverse (chars a)) (reverse (chars b)).
Proof.
  unfold longestCommonSubsequence.
  set (ca := chars a). set (cb := chars b).
  rewrite <- (chars_length a), <- (chars_length b). fold ca cb.
  set (la := length ca). set (lb := length cb).
  set (E := fun i j => lcs_length (reverse (take i ca)) (reverse (take j cb))).
  assert (forall i, E i 0 = 0) as E0
    by (intros i; unfold E; rewrite take_0; apply lcs_nil_r).
  assert (forall j, E 0 j = 0) as E0'
    by (intros j; unfold E; rewrite take_0; apply lcs_nil_l).
  assert (forall i j, 1 <= i <= la -> 1 <= j <= lb ->
            E i j
            = if bool_decide (ca !! (i - 1) = cb !! (j - 1))
              then E (i - 1) (j - 1) + 1
              else Nat.max (E (i - 1) j) (E i (j - 1))) as Estep
    by (intros i j Hi Hj; unfold E; by apply lcs_prefix_step).
  set (step := fun (i : nat) (dp : list (list nat)) (j : nat) =>
                 if bool_decide (ca !! (i - 1) = cb !! (j - 1))
                 then matrix_set dp i j (matrix_get dp (i - 1) (j - 1) + 1)
                 else matrix_set dp i j
                        (Nat.max (matrix_get dp (i - 1) j)
                                 (matrix_get dp i (j - 1)))).
  set (dp := foldl _ _ (seq 1 la)).
  assert (dims dp (la + 1) (lb + 1)
          /\ (forall i j, i < 1 + la -> j < lb + 1 -> matrix_get dp i j = E i j)
          /\ forall i, i < la + 1 -> matrix_get dp i 0 = 0) as (_ & H & _).
  { subst dp.
    apply (foldl_seq_inv (fun dp i => foldl (step i) dp (seq 1 lb))
             (fun k dp => dims dp (la + 1) (lb + 1)
                          /\ (forall i j, i < k -> j < lb + 1 ->
                                matrix_get dp i j = E i j)
                          /\ forall i, i < la + 1 -> matrix_get dp i 0 = 0)
             la 1).
    - split_and!; [apply dims_replicate | |].
      + intros i j Hi Hj. assert (i = 0) as -> by lia.
        by rewrite get_replicate, E0'.
      + intros i Hi. apply get_replicate.
    - intros i dp Hi (Hd & Hrows & Hcol).
      assert (dims (foldl (step i) dp (seq 1 lb)) (la + 1) (lb + 1)
              /\ (forall i' j, i' < i -> j < lb + 1 ->
                    matrix_get (foldl (step i) dp (seq 1 lb)) i' j = E i' j)
              /\ (forall i', i' < la + 1 ->
                    matrix_get (foldl (step i) dp (seq 1 lb)) i' 0 = 0)
              /\ forall j, j < 1 + lb ->
                   matrix_get (foldl (step i) dp (seq 1 lb)) i j = E i j)
        as (Hd' & Hrows' & Hcol' & Hrow').
      { apply (foldl_seq_inv (step i)
                 (fun k dp => dims dp (la + 1) (lb + 1)
                              /\ (forall i' j, i' < i -> j < lb + 1 ->
                                    matrix_get dp i' j = E i' j)
                              /\ (forall i', i' < la + 1 ->
                                    matrix_get dp i' 0 = 0)
                              /\ forall j, j < k -> matrix_get dp i j = E i j)
                 lb 1).
        - split_and!; [done | done | done |].
          intros j Hj. assert (j = 0) as -> by lia.
          rewrite E0. apply Hcol. lia.
        - intros j dp' Hj (Hd' & Hrows' & Hcol' & Hrow').
          assert (step i dp' j = matrix_set dp' i j (E i j)) as ->.
          { unfold step. rewrite (Estep i j) by lia.
            rewrite (Hrow' (j - 1)) by lia.
            rewrite (Hrows' (i - 1) j) by lia.
            rewrite (Hrows' (i - 1) (j - 1)) by lia.
            by destruct (bool_decide _). }
          split_and!; [by apply dims_set | | |].
          + intros i' j' Hi' Hj'.
            rewrite (get_set dp' (la + 1) (lb + 1)) by (done || lia).
            rewrite decide_False by lia. by apply Hrows'.
          + intros i' Hi'.
            rewrite (get_set dp' (la + 1) (lb + 1)) by (done || lia).
            rewrite decide_False by lia. by apply Hcol'.
          + intros j' Hj'.
            rewrite (get_set dp' (la + 1) (lb + 1)) by (done || lia).
            destruct (decide (i = i /\ j' = j)) as [[_ ->]|Hn]; [done|].
            apply Hrow'. lia. }
      split_and!; [done | | done].
      intros i' j Hi' Hj.
      destruct (decide (i' = i)) as [->|Hne]; [apply Hrow'; lia|].
      apply Hrows'; lia. }
  rewrite H by lia. unfold E, la, lb. by rewrite !firstn_all.
Qed.

Lemma sublist_reverse {A : Type} (l k : list A) :
  l `sublist_of` k -> reverse l `sublist_of` reverse k.
Proof.
  induction 1 as [|x l k _ IH|x l k _ IH].
  - done.
  - rewrite !reverse_cons. by apply sublist_app.
  - rewrite reverse_cons. by apply sublist_inserts_r.
Qed.

Lemma lcs_exists (a b : string) :
  exists w, w `sublist_of` chars a /\ w `sublist_of` chars b
            /\ length w = longestCommonSubsequence a b.
Proof.
  rewrite lcs_matrix.
  destruct (lcs_attained (reverse (chars a)) (reverse (chars b)))
    as (w & H1 & H2 & H3).
  exists (reverse w). rewrite length_reverse.
  apply sublist_reverse in H1, H2. rewrite reverse_involutive in H1, H2.
  done.
Qed.

Lemma lcs_upper (a b : string) (w : list ascii) :
  w `sublist_of` chars a -> w `sublist_of` chars b ->
  length w <= longestCommonSubsequence a b.
Proof.
  intros H1 H2. rewrite lcs_matrix, <- (length_reverse w).
  apply lcs_longest; by apply sublist_reverse.
Qed.

(** X24: [longestCommonSubsequence] gives the length of a longest common
    subsequence of the two strings: some sequence of characters that can be
    read in both, in order, has that length, and none that can is longer. *)
Theorem longest_common_subsequence (a b : string) :
  (exists w, w `sublist_of` chars a /\ w `sublist_of` chars b
             /\ length w = longestCommonSubsequence a b)
  /\ (forall w, w `sublist_of` chars a -> w `sublist_of` chars b ->
                length w <= longestCommonSubsequence a b)
  /\ longestCommonSubsequence a b = longestCommonSubsequence b a
  /\ longestCommonSubsequence a a = String.length a
  /\ longestCommonSubsequence a b
     <= Nat.min (String.length a) (String.length b).
Proof.
  split_and!.
  - apply lcs_exists.
  - apply lcs_upper.
  - destruct (lcs_exists a b) as (w & H1 & H2 & H3).
    destruct (lcs_exists b a) as (w' & H1' & H2' & H3').
    pose proof (lcs_upper b a w H2 H1). pose proof (lcs_upper a b w' H2' H1').
    lia.
  - destruct (lcs_exists a a) as (w & H1 & _ & H3).
    apply sublist_length in H1. rewrite chars_length in H1.
    pose proof (lcs_upper a a (chars a) ltac:(done) ltac:(done)) as H.
    rewrite chars_length in H. lia.
  - destruct (lcs_exists a b) as (w & H1 & H2 & H3).
    apply sublist_length in H1, H2. rewrite chars_length in H1, H2. lia.
Qed.

End CommonSubsequence.

Section CommonSimilarity.
Local Open Scope R_scope.

(** X25: [lcsSimilarity] lies between [0] and [1], is [1] on equal strings,
    and does not depend on the order of its arguments. *)
Theorem lcs_similarity_range (a b : string) :
  0 <= lcsSimilarity a b <= 1
  /\ lcsSimilarity a a = 1
  /\ lcsSimilarity a b = lcsSimilarity b a.
Proof.
  assert (longestCommonSubsequence b a = longestCommonSubsequence a b) as Hs.
  { destruct (lcs_exists a b) as (w & H1 & H2 & H3).
    destruct (lcs_exists b a) as (w' & H1' & H2' & H3').
    pose proof (lcs_upper b a w H2 H1). pose proof (lcs_upper a b w' H2' H1').
    lia. }
  assert (longestCommonSubsequence a a = String.length a) as Hr.
  { destruct (lcs_exists a a) as (w & H1 & _ & H3).
    apply sublist_length in H1. rewrite chars_length in H1.
    pose proof (lcs_upper a a (chars a) ltac:(done) ltac:(done)) as H.
    rewrite chars_length in H. lia. }
  assert ((longestCommonSubsequence a b
           <= Nat.min (String.length a) (String.length b))%nat) as Hle.
  { destruct (lcs_exists a b) as (w & H1 & H2 & H3).
    apply sublist_length in H1, H2. rewrite chars_length in H1, H2. lia. }
  unfold lcsSimilarity. rewrite Hr, Hs, (Nat.max_comm (String.length b)).
  rewrite Nat.max_id.
  refine (conj _ (conj _ eq_refl)).
  - destruct (Nat.max (String.length a) (String.length b) =? 0)%nat eqn:E;
      [lra|].
    apply Nat.eqb_neq in E.
    apply frac_bounds; [|apply lt_0_INR; lia].
    split; [apply pos_INR|]. apply le_INR. lia.
  - destruct (String.length a =? 0)%nat eqn:E; [done|].
    apply Nat.eqb_neq in E. field. apply not_0_INR. lia.
Qed.

End CommonSimilarity.

Section TextTokens.
#[local] Arguments String.append !_ _ / : simpl nomatch.

Lemma ngrams_length (n : nat) (toks : list string) :
  length (ngrams n toks) = length toks + 1 - n.
Proof. unfold ngrams. by rewrite length_map, length_seq. Qed.

Lemma ngrams_1 (toks : list string) : ngrams 1 toks = toks.
Proof.
  unfold ngrams. replace (length toks + 1 - 1) with (length toks) by lia.
  induction toks as [|t toks IH]; [done|].
  cbn [length seq map]. f_equal.
  rewrite <- seq_shift, map_map. rewrite <- IH at 2.
  apply map_ext. intros i. done.
Qed.

(** X26: [tokenizeText] lists the n-grams of the words of the text for each
    [n] from [minN] to [maxN] in turn, [length + 1 - n] of them for each
    [n]; with both bounds at [1] it gives the words themselves, and with the
    bounds crossed it gives nothing. *)
Theorem tokenize_text_ngrams (s : string) (minN maxN : nat) :
  tokenizeText s 1 1 = words s
  /\ tokenizeText s 1 3
     = words s ++ ngrams 2 (words s) ++ ngrams 3 (words s)
  /\ length (tokenizeText s minN maxN)
     = sum_list_with (fun n => length (words s) + 1 - n)
         (seq minN (maxN + 1 - minN))
  /\ (maxN < minN -> tokenizeText s minN maxN = [])
  /\ (forall n t, 1 <= n -> t ∈ ngrams n (words s) -> t <> EmptyString).
Proof.
  split_and!.
  - unfold tokenizeText. cbn [seq flat_map Nat.sub Nat.add].
    by rewrite ngrams_1, app_nil_r.
  - unfold tokenizeText. cbn [seq flat_map Nat.sub Nat.add].
    by rewrite ngrams_1, app_nil_r.
  - unfold tokenizeText.
    induction (seq minN (maxN + 1 - minN)) as [|n l IH]; [done|].
    cbn [flat_map sum_list_with]. by rewrite length_app, IH, ngrams_length.
  - intros H. unfold tokenizeText.
    by replace (maxN + 1 - minN) with 0 by lia.
  - intros n t Hn Ht. unfold ngrams in Ht.
    apply list_elem_of_fmap in Ht as (i & -> & Hi).
    apply elem_of_seq in Hi.
    assert (exists w rest, take n (drop i (words s)) = w :: rest
                           /\ w ∈ words s) as (w & rest & E & Hw).
    { destruct (drop i (words s)) as [|w rest] eqn:Ed.
      - apply (f_equal length) in Ed. rewrite length_drop in Ed.
        simpl in Ed. lia.
      - destruct n as [|n]; [lia|]. exists w, (take n rest). split; [done|].
        apply (list_elem_of_lookup_2 _ i).
        rewrite <- (Nat.add_0_r i), <- lookup_drop, Ed. done. }
    rewrite E.
    assert (w <> EmptyString) as Hne.
    { unfold words, tokens_of in Hw. clear -Hw.
      assert (forall u cur, w ∈ alnum_runs cur u -> w <> EmptyString) as H.
      { induction u as [|c u IH]; intros cur; cbn [alnum_runs].
        - destruct cur; cbn [truthy]; [by intros ?%elem_of_nil|].
          by intros ->%list_elem_of_singleton.
        - destruct (is_lower_alnum c); [apply IH|].
          intros [H|H]%elem_of_app; [|by eapply IH].
          destruct cur; cbn [truthy] in H; [by apply elem_of_nil in H|].
          by apply list_elem_of_singleton in H as ->. }
      by eapply H. }
    destruct rest; cbn [join_space]; [done|].
    destruct w; [done|]. by rewrite append_cons.
Qed.

Lemma words_solid (s : string) (w : string) :
  w ∈ words s -> all_chars (fun c => negb (is_space c)) w = true.
Proof.
  unfold words, tokens_of.
  assert (forall u cur,
            all_chars (fun c => negb (is_space c)) cur = true ->
            w ∈ alnum_runs cur u ->
            all_chars (fun c => negb (is_space c)) w = true) as H.
  { induction u as [|c u IH]; intros cur Hcur; cbn [alnum_runs].
    - destruct cur; cbn [truthy]; [by intros ?%elem_of_nil|].
      by intros ->%list_elem_of_singleton.
    - destruct (is_lower_alnum c) eqn:Ec.
      + apply IH. rewrite all_chars_app, Hcur. cbn [all_chars].
        assert (is_space c = false) as ->; [|done].
        revert Ec. destruct c as [[] [] [] [] [] [] [] []]; by vm_compute.
      + intros [H|H]%elem_of_app; [|by eapply (IH EmptyString)].
        destruct cur; cbn [truthy] in H; [by apply elem_of_nil in H|].
        by apply list_elem_of_singleton in H as ->. }
  by apply (H _ EmptyString).
Qed.

Lemma stopwords_solid :
  Forall (fun w => all_chars (fun c => negb (is_space c)) w = true) STOPWORDS.
Proof. by repeat constructor. Qed.

Lemma bigram_not_solid (w1 w2 : string) :
  all_chars (fun c => negb (is_space c)) (w1 +:+ " " +:+ w2) = false.
Proof.
  rewrite all_chars_app. cbn [String.append all_chars is_space].
  by rewrite andb_false_r.
Qed.

Lemma index_grams_spec (raw : list string) (t : string) :
  t ∈ index_grams raw
  <-> (t ∈ raw /\ (t ∉ STOPWORDS))
      \/ exists pre w1 w2 post,
           raw = pre ++ w1 :: w2 :: post
           /\ (w1 ∉ STOPWORDS) /\ (w2 ∉ STOPWORDS) /\ t = w1 +:+ " " +:+ w2.
Proof.
  induction raw as [|w1 rest IH].
  - cbn [index_grams]. split; [by intros ?%elem_of_nil|].
    intros [[H _]|(pre & w1 & w2 & post & E & _)];
      [by apply elem_of_nil in H | by destruct pre].
  - cbn [index_grams]. rewrite !elem_of_app, IH. unfold JsSet.has.
    split.
    + intros [H|[H|H]].
      * case_bool_decide; [by apply elem_of_nil in H|].
        apply list_elem_of_singleton in H as ->. left. split; [by left | done].
      * destruct rest as [|w2 rest']; [by apply elem_of_nil in H|].
        do 2 case_bool_decide; cbn [negb andb] in H;
          try (by apply elem_of_nil in H).
        apply list_elem_of_singleton in H as ->.
        right. by exists [], w1, w2, rest'.
      * destruct H as [[H1 H2]|(pre & a & b & post & -> & Ha & Hb & ->)].
        -- left. split; [by right | done].
        -- right. by exists (w1 :: pre), a, b, post.
    + intros [[H1 H2]|(pre & a & b & post & E & Ha & Hb & ->)].
      * apply elem_of_cons in H1 as [->|H1].
        -- left. rewrite bool_decide_eq_false_2 by done.
           by apply list_elem_of_singleton.
        -- right. right. by left.
      * destruct pre as [|x pre]; cbn [app] in E; injection E as -> ->.
        -- right. left. rewrite !bool_decide_eq_false_2 by done.
           by apply list_elem_of_singleton.
        -- right. right. right. by exists pre, a, b, post.
Qed.

Lemma index_grams_length (raw : list string) :
  length (index_grams raw) <= 2 * length raw.
Proof.
  induction raw as [|w1 rest IH]; [done|].
  cbn [index_grams]. rewrite !length_app. cbn [length].
  assert (length (if JsSet.has STOPWORDS w1 then [] else [w1]) <= 1)
    by (destruct (JsSet.has STOPWORDS w1); simpl; lia).
  assert (length match rest with
                 | w2 :: _ =>
                     if negb (JsSet.has STOPWORDS w1)
                        && negb (JsSet.has STOPWORDS w2)
                     then [w1 +:+ " " +:+ w2] else []
                 | [] => []
                 end <= 1).
  { destruct rest; [simpl; lia|]. destruct (_ && _); simpl; lia. }
  lia.
Qed.

(** X27: [tokenizeForIndex] gives, of the words of the text, those that are
    no stop words, and the pairs of neighbouring words of which neither is a
    stop word, joined by a blank; so no stop word is ever a token of the
    index, and there are at most two tokens for each word. *)
Theorem index_tokens_shape (text : string) (t : string) :
  (t ∈ tokenizeForIndex text
   <-> (t ∈ words text /\ (t ∉ STOPWORDS))
       \/ exists pre w1 w2 post,
            words text = pre ++ w1 :: w2 :: post
            /\ (w1 ∉ STOPWORDS) /\ (w2 ∉ STOPWORDS) /\ t = w1 +:+ " " +:+ w2)
  /\ (t ∈ STOPWORDS -> t ∉ tokenizeForIndex text)
  /\ length (tokenizeForIndex text) <= 2 * length (words text).
Proof.
  unfold tokenizeForIndex. split_and!.
  - apply index_grams_spec.
  - intros Hs Hin. apply index_grams_spec in Hin
      as [[_ Hn]|(pre & w1 & w2 & post & _ & _ & _ & ->)]; [done|].
    pose proof stopwords_solid as Hsolid. rewrite Forall_forall in Hsolid.
    specialize (Hsolid _ Hs). by rewrite bigram_not_solid in Hsolid.
  - apply index_grams_length.
Qed.

End TextTokens.

Section TextIndexFacts.
Local Open Scope R_scope.

(** The invariant rule of a loop over a list. *)
Lemma foldl_invariant {S A : Type} (P : S -> Prop) (f : S -> A -> S)
    (l : list A) :
  forall s, P s -> (forall s x, x ∈ l -> P s -> P (f s x)) -> P (foldl f s l).
Proof.
  induction l as [|x l IH]; intros s Hs Hstep; [done|].
  cbn [foldl]. apply IH.
  - apply Hstep; [by left | done].
  - intros s' y Hy. apply Hstep. by right.
Qed.

Lemma elem_of_set {V : Type} (m : list (string * V)) (k k' : string) (v v' : V) :
  (k', v') ∈ JsMap.set m k v -> (k' = k /\ v' = v) \/ (k', v') ∈ m.
Proof.
  induction m as [|[k0 v0] m IH]; cbn [JsMap.set].
  - intros [= -> ->]%list_elem_of_singleton. by left.
  - case_bool_decide as E.
    + intros [[= -> ->]|H]%elem_of_cons; [by left | right; by right].
    + intros [[= -> ->]|H]%elem_of_cons; [right; by left|].
      destruct (IH H) as [?|?]; [by left | right; by right].
Qed.

Lemma get_Some_elem {V : Type} (m : list (string * V)) (k : string) (v : V) :
  JsMap.get m k = Some v -> (k, v) ∈ m.
Proof.
  induction m as [|[k0 v0] m IH]; cbn [JsMap.get]; [done|].
  case_bool_decide as E; [intros [= ->]; subst; by left|].
  intros H. right. by apply IH.
Qed.

Lemma count_terms_positive (toks : list string) :
  Forall (fun kv => (1 <= kv.2)%nat) (count_terms toks).
Proof.
  unfold count_terms.
  apply (foldl_invariant (Forall (fun kv : string * nat => (1 <= kv.2)%nat))).
  - constructor.
  - intros tf t _ Htf. apply Forall_forall. intros [k v] Hkv.
    apply elem_of_set in Hkv as [[-> ->]|Hkv]; [cbn; lia|].
    rewrite Forall_forall in Htf. by apply (Htf (k, v)).
Qed.

Lemma scan_rows_docs (rows : list TextRow) :
  forall df docs total,
    Forall (fun d => Forall (fun kv => (1 <= kv.2)%nat) (doc_tf d)) docs ->
    let st := foldl scan_row (df, docs, total) rows in
    length st.1.2 = (length docs + length rows)%nat
    /\ Forall (fun d => Forall (fun kv => (1 <= kv.2)%nat) (doc_tf d)) st.1.2.
Proof.
  induction rows as [|r rows IH]; intros df docs total Hd.
  - cbn. split; [lia | done].
  - cbn [foldl]. unfold scan_row at 2 4.
    destruct (foldl bump_df _ _) as [seen df'].
    specialize (IH df'
                  (docs ++ [{| doc_id := t_id r;
                               doc_tf := count_terms
                                           (tokenizeForIndex
                                              (trim (creator_notes r +:+ " "
                                                     +:+ creator_notes r +:+ " "
                                                     +:+ description r +:+ " "
                                                     +:+ description r)));
                               doc_len := length
                                            (tokenizeForIndex
                                               (trim (creator_notes r +:+ " "
                                                      +:+ creator_notes r +:+ " "
                                                      +:+ description r +:+ " "
                                                      +:+ description r))) |}])
                  (total + length
                             (tokenizeForIndex
                                (trim (creator_notes r +:+ " "
                                       +:+ creator_notes r +:+ " "
                                       +:+ description r +:+ " "
                                       +:+ description r))))%nat).
    cbn zeta in IH. destruct IH as [IH1 IH2].
    + apply Forall_app. split; [done|]. constructor; [|constructor].
      apply count_terms_positive.
    + split; [|done]. rewrite IH1, length_app. cbn [length]. lia.
Qed.

Lemma text_idf_entries (N : nat) (df : list (string * nat)) (t : string)
    (v : R) :
  (t, v) ∈ text_idf N df ->
  exists dfi : nat,
    (2 <= dfi)%nat /\ INR dfi / INR N <= 1 / 100
    /\ v = ln (1 + (INR N - INR dfi + 1 / 2) / (INR dfi + 1 / 2)).
Proof.
  unfold text_idf. revert t v.
  apply (foldl_invariant
           (fun idf : list (string * R) =>
              forall t v, (t, v) ∈ idf ->
                exists dfi : nat,
                  (2 <= dfi)%nat /\ INR dfi / INR N <= 1 / 100
                  /\ v = ln (1 + (INR N - INR dfi + 1 / 2) / (INR dfi + 1 / 2)))).
  - intros t v H. by apply elem_of_nil in H.
  - intros idf [k dfi] _ Hidf t v. cbv beta iota.
    destruct (dfi <=? 1)%nat eqn:E1; [exact (Hidf t v)|].
    destruct (Rltb _ _) eqn:E2; [exact (Hidf t v)|].
    intros [[-> ->]|H]%elem_of_set; [|exact (Hidf t v H)].
    exists dfi. apply Nat.leb_gt in E1. apply Rltb_false in E2.
    split_and!; [lia | done | done].
Qed.

Lemma cutoff_size (N dfi : nat) :
  (1 <= N)%nat -> (2 <= dfi)%nat -> INR dfi / INR N <= 1 / 100 ->
  (200 <= N)%nat /\ 100 * INR dfi <= INR N.
Proof.
  intros HN Hd Hc.
  assert (0 < INR N) as HN' by (apply lt_0_INR; lia).
  assert (100 * INR dfi <= INR N) as H100.
  { apply (Rmult_le_compat_r (INR N)) in Hc; [|lra].
    unfold Rdiv in Hc. rewrite Rmult_assoc, Rinv_l in Hc by lra. lra. }
  split; [|done].
  apply le_INR in Hd. replace (INR 2) with 2 in Hd by (simpl; lra).
  apply INR_le. replace (INR 200) with 200; [lra|].
  change 200%nat with (Z.to_nat 200). rewrite INR_IZR_INZ.
  by rewrite Z2Nat.id by lia.
Qed.

Lemma text_idf_positive (N : nat) (df : list (string * nat)) (t : string)
    (v : R) :
  (1 <= N)%nat -> (t, v) ∈ text_idf N df -> 0 < v.
Proof.
  intros HN (dfi & Hd & Hc & ->)%text_idf_entries.
  destruct (cutoff_size N dfi HN Hd Hc) as [_ H100].
  pose proof (pos_INR dfi) as H0.
  assert (0 < (INR N - INR dfi + 1 / 2) / (INR dfi + 1 / 2)) as Hx.
  { apply Rdiv_lt_0_compat; lra. }
  rewrite <- ln_1. apply ln_increasing; lra.
Qed.

Lemma bm25_entries (idf : list (string * R)) (avgdl : R) (d : TextDoc)
    (t : string) (w : R) :
  (forall t v, (t, v) ∈ idf -> 0 < v) ->
  Forall (fun kv => (1 <= kv.2)%nat) (doc_tf d) ->
  0 <= avgdl ->
  (t, w) ∈ bm25_vector idf avgdl d -> 0 < w.
Proof.
  intros Hidf Htf Havg. unfold bm25_vector. revert t w.
  apply (foldl_invariant
           (fun m : list (string * R) => forall t w, (t, w) ∈ m -> 0 < w)).
  - intros t w H. by apply elem_of_nil in H.
  - intros m [k f] Hkf Hm t w. cbv beta iota zeta.
    destruct (JsMap.get idf k) as [itf|] eqn:G; [|exact (Hm t w)].
    destruct (is_zero itf); [exact (Hm t w)|].
    intros [[-> ->]|H]%elem_of_set; [|exact (Hm t w H)].
    apply get_Some_elem, Hidf in G.
    rewrite Forall_forall in Htf. specialize (Htf _ Hkf). cbn [snd] in Htf.
    apply le_INR in Htf. replace (INR 1) with 1 in Htf by done.
    assert (0 <= INR (doc_len d) / avgdl) as Hr.
    { pose proof (pos_INR (doc_len d)).
      destruct (Req_dec avgdl 0) as [->|Hne].
      - unfold Rdiv. rewrite Rinv_0. lra.
      - apply Rmult_le_pos; [done|].
        apply Rlt_le, Rinv_0_lt_compat. lra. }
    apply Rdiv_lt_0_compat; nra.
Qed.

Lemma vecs_entries (idf : list (string * R)) (avgdl : R) (docs : list TextDoc)
    (i : string) (vec : list (string * R)) :
  (i, vec)
    ∈ foldl (fun vecs d => JsMap.set vecs (doc_id d) (bm25_vector idf avgdl d))
        [] docs ->
  exists d, d ∈ docs /\ vec = bm25_vector idf avgdl d.
Proof.
  revert i vec.
  apply (foldl_invariant
           (fun vecs : list (string * list (string * R)) =>
              forall i vec, (i, vec) ∈ vecs ->
                exists d, d ∈ docs /\ vec = bm25_vector idf avgdl d)).
  - intros i vec H. by apply elem_of_nil in H.
  - intros vecs d Hd Hv i vec.
    intros [[-> ->]|H]%elem_of_set; [by exists d | exact (Hv i vec H)].
Qed.

Lemma fresh_index_parts (rows : list TextRow) :
  exists df docs total,
    foldl scan_row ([], [], 0%nat) rows = (df, docs, total)
    /\ length docs = length rows
    /\ Forall (fun d => Forall (fun kv => (1 <= kv.2)%nat) (doc_tf d)) docs
    /\ fresh_text_index rows
       = let N := Nat.max 1 (length docs) in
         let idf := text_idf N df in
         let avgdl := INR total / INR N in
         {| ti_idf := idf;
            ti_vecs :=
              foldl (fun vecs d =>
                       JsMap.set vecs (doc_id d) (bm25_vector idf avgdl d))
                    [] docs;
            ti_built := true; ti_docs := N;
            ti_vocabSize := JsMap.size idf |}.
Proof.
  pose proof (scan_rows_docs rows [] [] 0%nat ltac:(constructor)) as [H1 H2].
  unfold fresh_text_index.
  destruct (foldl scan_row ([], [], 0%nat) rows) as [[df docs] total].
  exists df, docs, total. cbn [fst snd length] in *. done.
Qed.

End TextIndexFacts.

(** ** Binary64 arithmetic *)

Section Binary64Facts.

Lemma SFcompare_refl (s : spec_float) :
  s <> S754_nan -> SFcompare s s = Some Eq.
Proof.
  destruct s as [b|b| |b m e]; intros H; try done.
  - by destruct b.
  - cbn [SFcompare]. rewrite Z.compare_refl.
    change (Pcompare m m Eq) with (m ?= m)%positive.
    rewrite Pos.compare_refl. by destruct b.
Qed.

Lemma is_nan_spec (x : float) : is_nan x = true <-> Prim2SF x = S754_nan.
Proof.
  unfold is_nan. rewrite FloatAxioms.eqb_spec, negb_true_iff. unfold SFeqb. split.
  - intros H. destruct (Prim2SF x) as [b|b| |b m e] eqn:E; try done;
      rewrite SFcompare_refl in H; done.
  - by intros ->.
Qed.

Lemma is_nan_eq (x : float) : is_nan x = true -> x = nan.
Proof.
  intros H%is_nan_spec. apply Prim2SF_inj. by rewrite H.
Qed.

Lemma not_nan_spec (x : float) : is_nan x = false <-> Prim2SF x <> S754_nan.
Proof.
  rewrite <- is_nan_spec. by destruct (is_nan x).
Qed.

Lemma SFcompare_antisym (x y : spec_float) :
  SFcompare y x = option_map CompOpp (SFcompare x y).
Proof.
  destruct x as [a|a| |a m e], y as [b|b| |b n f]; try done;
    try (by destruct a); try (by destruct b); try (by destruct a, b).
  cbn [SFcompare option_map]. f_equal.
  rewrite (Z.compare_antisym e f).
  change (Pcompare n m Eq) with (n ?= m)%positive.
  change (Pcompare m n Eq) with (m ?= n)%positive.
  rewrite (Pos.compare_antisym m n).
  by destruct a, b, (e ?= f)%Z, (m ?= n)%positive.
Qed.

(** Of two numbers that are not NaN, one is below the other or the other is
    at most the one. *)
Lemma not_ltb_leb (x y : float) :
  is_nan x = false -> is_nan y = false ->
  (x <? y)%float = false -> (y <=? x)%float = true.
Proof.
  rewrite !not_nan_spec, FloatAxioms.ltb_spec, FloatAxioms.leb_spec. unfold SFltb, SFleb.
  rewrite (SFcompare_antisym (Prim2SF x) (Prim2SF y)).
  intros Hx Hy.
  destruct (Prim2SF x) as [a|a| |a m e], (Prim2SF y) as [b|b| |b n f];
    try done; cbn [option_map];
    match goal with |- context [SFcompare ?u ?v] =>
      destruct (SFcompare u v) as [[]|] eqn:E end; try done;
    cbn [SFcompare] in E; try (destruct a); try (destruct b); done.
Qed.

Lemma leb_not_ltb (x y : float) :
  (x <=? y)%float = true -> (y <? x)%float = false.
Proof.
  rewrite FloatAxioms.ltb_spec, FloatAxioms.leb_spec. unfold SFltb, SFleb.
  rewrite (SFcompare_antisym (Prim2SF x) (Prim2SF y)).
  by destruct (SFcompare (Prim2SF x) (Prim2SF y)) as [[]|].
Qed.

Lemma mul_comm64 (x y : float) : (x * y)%float = (y * x)%float.
Proof.
  apply Prim2SF_inj. rewrite !FloatAxioms.mul_spec. unfold SF64mul, SFmul.
  destruct (Prim2SF x) as [a|a| |a m e], (Prim2SF y) as [b|b| |b n f];
    try done; rewrite ?(xorb_comm b a); try done.
  by rewrite (Pos.mul_comm n m), (Z.add_comm f e).
Qed.

End Binary64Facts.

(** ** The progress bar on binary64 numbers *)

Section Clamp.

Lemma clamp01_range64 (x : float) :
  is_nan x = false ->
  (0 <=? Binary64.clamp01 x)%float = true
  /\ (Binary64.clamp01 x <=? 1)%float = true.
Proof.
  intros Hx. unfold Binary64.clamp01.
  destruct (x <? 0)%float eqn:E0; [done|].
  destruct (1 <? x)%float eqn:E1; [done|].
  split; by apply not_ltb_leb.
Qed.

Lemma clamp01_idem64 (x : float) :
  Binary64.clamp01 (Binary64.clamp01 x) = Binary64.clamp01 x.
Proof.
  unfold Binary64.clamp01.
  destruct (x <? 0)%float eqn:E0; [done|].
  destruct (1 <? x)%float eqn:E1; [done|].
  by rewrite E0, E1.
Qed.

Lemma clamp01_fixed64 (x : float) :
  (0 <=? x)%float = true -> (x <=? 1)%float = true ->
  Binary64.clamp01 x = x.
Proof.
  intros H0%leb_not_ltb H1%leb_not_ltb. unfold Binary64.clamp01.
  by rewrite H0, H1.
Qed.

End Clamp.

(** ** Symmetry of the metrics on binary64 numbers *)

Section Symmetry64.
Variable idf : gmap string float.

Local Abbreviation ones n := (Nat.iter n (fun s => (s + 1 * 1)%float) 0%float).
Local Abbreviation units n := (Nat.iter n (fun s => (s + 1)%float) 0%float).

Lemma overlap_unweighted (A B : list string) :
  foldl (fun s t => if negb (JsSet.has B t) then s else (s + 1)%float)
        0%float A
  = units (Query.count_inter A B).
Proof.
  unfold Query.count_inter.
  enough (forall n,
    foldl (fun s t => if negb (JsSet.has B t) then s else (s + 1)%float)
          (units n) A
    = units (foldl (fun inter t => if JsSet.has B t then S inter else inter)
                   n A)) as H by apply (H 0%nat).
  induction A as [|t A IH]; intros n; [done|].
  cbn [foldl]. destruct (JsSet.has B t); cbn [negb]; [|apply IH].
  by rewrite <- IH.
Qed.

Lemma hamming_diff_comm (A B : list string) :
  foldl (fun diff t =>
           if negb (Bool.eqb (JsSet.has A t) (JsSet.has B t))
           then S diff else diff) 0%nat (JsSet.of_list (A ++ B))
  = foldl (fun diff t =>
             if negb (Bool.eqb (JsSet.has B t) (JsSet.has A t))
             then S diff else diff) 0%nat (JsSet.of_list (B ++ A)).
Proof. apply INR_eq. rewrite !hamming_diff_sum. apply rsum_differ_comm. Qed.

Lemma manhattan_dist_sum (A B U : list string) :
  IZR (foldl (fun dist t =>
                (dist + Z.abs (Binary64.indicator A t
                               - Binary64.indicator B t))%Z) 0%Z U)
  = rsum (differ A B) U.
Proof.
  enough (forall z,
    IZR (foldl (fun dist t =>
                  (dist + Z.abs (Binary64.indicator A t
                                 - Binary64.indicator B t))%Z) z U)
    = (IZR z + rsum (differ A B) U)%R) as H by (rewrite H; simpl; lra).
  induction U as [|t U IH]; intros z; [simpl; lra|].
  cbn [foldl rsum]. rewrite IH, plus_IZR. unfold differ, Binary64.indicator.
  destruct (JsSet.has A t), (JsSet.has B t); cbn [Bool.eqb];
    [ change (Z.abs (1 - 1)) with 0%Z | change (Z.abs (1 - 0)) with 1%Z
    | change (Z.abs (0 - 1)) with 1%Z | change (Z.abs (0 - 0)) with 0%Z ];
    lra.
Qed.

Lemma euclidean_dist_sum (A B U : list string) :
  IZR (foldl (fun dist t =>
                (dist + (Binary64.indicator A t
                         - Binary64.indicator B t) ^ 2)%Z) 0%Z U)
  = rsum (differ A B) U.
Proof.
  enough (forall z,
    IZR (foldl (fun dist t =>
                  (dist + (Binary64.indicator A t
                           - Binary64.indicator B t) ^ 2)%Z) z U)
    = (IZR z + rsum (differ A B) U)%R) as H by (rewrite H; simpl; lra).
  induction U as [|t U IH]; intros z; [simpl; lra|].
  cbn [foldl rsum]. rewrite IH, plus_IZR. unfold differ, Binary64.indicator.
  destruct (JsSet.has A t), (JsSet.has B t); cbn [Bool.eqb];
    [ change ((1 - 1) ^ 2)%Z with 0%Z | change ((1 - 0) ^ 2)%Z with 1%Z
    | change ((0 - 1) ^ 2)%Z with 1%Z | change ((0 - 0) ^ 2)%Z with 0%Z ];
    lra.
Qed.

Lemma unit_vector (A : list string) :
  NoDup A ->
  Binary64.tag_vector idf false A = map (fun t => (t, 1%float)) A.
Proof.
  intros HA. unfold Binary64.tag_vector.
  by rewrite foldl_set_fresh by done.
Qed.

Lemma unit_norm (A : list string) :
  foldl (fun na v => (na + v * v)%float) 0%float
        (JsMap.values (map (fun t => (t, 1%float)) A))
  = ones (length A).
Proof.
  enough (forall s,
    foldl (fun na v => (na + v * v)%float) s
          (JsMap.values (map (fun t : string => (t, 1%float)) A))
    = Nat.iter (length A) (fun s => (s + 1 * 1)%float) s) as H by apply H.
  induction A as [|t A IH]; intros s; [done|].
  cbn [map JsMap.values snd foldl length]. fold (JsMap.values (V := float)).
  rewrite Nat.iter_succ_r. apply IH.
Qed.

Lemma unit_dot (A B : list string) :
  foldl (fun dot '(k, va) =>
           match JsMap.get (map (fun t => (t, 1%float)) B) k with
           | Some vb =>
               if Binary64.falsy vb then dot else (dot + va * vb)%float
           | None => dot
           end) 0%float (map (fun t => (t, 1%float)) A)
  = ones (Query.count_inter A B).
Proof.
  rewrite count_inter_filter.
  enough (forall s,
    foldl (fun dot '(k, va) =>
             match JsMap.get (map (fun t : string => (t, 1%float)) B) k with
             | Some vb =>
                 if Binary64.falsy vb then dot else (dot + va * vb)%float
             | None => dot
             end) s (map (fun t : string => (t, 1%float)) A)
    = Nat.iter (length (filter (fun t => t ∈ B) A))
               (fun s => (s + 1 * 1)%float) s) as H by apply H.
  induction A as [|t A IH]; intros s; [done|].
  cbn [map foldl]. rewrite get_map_keys, filter_cons.
  destruct (decide (t ∈ B)); [|apply IH].
  change (Binary64.falsy 1) with false. cbv iota.
  cbn [length]. rewrite Nat.iter_succ_r. apply IH.
Qed.

Lemma unit_cosine_comm (A B : list string) :
  NoDup A -> NoDup B ->
  Binary64.cosineSimSparse (Some (map (fun t => (t, 1%float)) A))
                           (Some (map (fun t => (t, 1%float)) B))
  = Binary64.cosineSimSparse (Some (map (fun t => (t, 1%float)) B))
                             (Some (map (fun t => (t, 1%float)) A)).
Proof.
  intros HA HB. unfold Binary64.cosineSimSparse.
  rewrite !unit_norm. unfold JsMap.size. rewrite !length_map.
  rewrite (mul_comm64 (ones (length B)) (ones (length A))).
  destruct (length A <? length B)%nat eqn:E1,
           (length B <? length A)%nat eqn:E2;
    rewrite !unit_dot, ?(count_inter_comm B A HB HA);
    try (by destruct (Binary64.falsy _), (Binary64.falsy _),
                     (Binary64.falsy _)).
Qed.

Lemma tagSimilarity64_comm (ta tb : list string) (m : string) (w : bool)
    (mul : float) :
  (m ∈ handled_modes /\ m <> "overlap") \/ w = false ->
  Binary64.tagSimilarity idf ta tb m w mul
  = Binary64.tagSimilarity idf tb ta m w mul.
Proof.
  intros Hm. unfold Binary64.tagSimilarity.
  pose proof (NoDup_of_list ta) as HA.
  pose proof (NoDup_of_list tb) as HB.
  set (A := JsSet.of_list ta) in *.
  set (B := JsSet.of_list tb) in *.
  repeat case_bool_decide.
  - done.
  - destruct Hm as [[_ ?]| ->]; [done|]. cbv iota.
    by rewrite !overlap_unweighted, count_inter_comm.
  - by rewrite union_size_comm, count_inter_comm.
  - by rewrite count_inter_comm, Nat.add_comm.
  - by rewrite union_size_comm, count_inter_comm.
  - by rewrite count_inter_comm, Nat.mul_comm.
  - by rewrite count_inter_comm, Nat.min_comm.
  - by rewrite count_inter_comm, Nat.max_comm.
  - by rewrite hamming_diff_comm, union_size_comm.
  - rewrite union_size_comm.
    assert (foldl (fun dist t =>
                     (dist + Z.abs (Binary64.indicator A t
                                    - Binary64.indicator B t))%Z) 0%Z
                  (JsSet.of_list (A ++ B))
            = foldl (fun dist t =>
                       (dist + Z.abs (Binary64.indicator B t
                                      - Binary64.indicator A t))%Z) 0%Z
                    (JsSet.of_list (B ++ A))) as ->; [|done].
    apply eq_IZR. rewrite !manhattan_dist_sum. apply rsum_differ_comm.
  - rewrite union_size_comm.
    assert (foldl (fun dist t =>
                     (dist + (Binary64.indicator A t
                              - Binary64.indicator B t) ^ 2)%Z) 0%Z
                  (JsSet.of_list (A ++ B))
            = foldl (fun dist t =>
                       (dist + (Binary64.indicator B t
                                - Binary64.indicator A t) ^ 2)%Z) 0%Z
                    (JsSet.of_list (B ++ A))) as ->; [|done].
    apply eq_IZR. rewrite !euclidean_dist_sum. apply rsum_differ_comm.
  - destruct Hm as [[Hin _]| ->].
    + unfold handled_modes in Hin. rewrite !elem_of_cons, elem_of_nil in Hin.
      repeat (destruct Hin as [?|Hin]; [done|]). done.
    + rewrite !unit_vector by done. by apply unit_cosine_comm.
Qed.

End Symmetry64.

(** ** Symmetry and self-similarity on the numbers of the code *)

Section SymmetryClaim.
Local Open Scope R_scope.

(** The corpus of the examples: the first two rows carry the same four tags
    in two orders, and the IDF table holds [Math.log(4) + 1] for [x] and
    [Math.log(2) + 1] for the three others. *)
Lemma rounding_corpus_built :
  take 2 (map (fun r => (id r, tags r)) (rows (buildStore rounding_corpus)))
  = [("1", rounding_tags_1); ("2", rounding_tags_2)]
  /\ length (rows (buildStore rounding_corpus)) = 11%nat
  /\ map_to_list rounding_idf
     = [("y", 0x1.b17217f7d1cf8p+0%float); ("z", 0x1.b17217f7d1cf8p+0%float);
        ("t", 0x1.b17217f7d1cf8p+0%float); ("x", 0x1.317217f7d1cf8p+1%float)].
Proof.
  split_and!.
  - unfold buildStore. rewrite rows_buildStore_with, map_map. reflexivity.
  - unfold buildStore. rewrite rows_buildStore_with, length_map. reflexivity.
  - vm_compute. reflexivity.
Qed.

(** C4, as the code has it.  On binary64 numbers [tagSimilarity(a, b)]
    equals [tagSimilarity(b, a)] under the ten modes that are computed from
    counts (none, jaccard, dice, tanimoto, ochiai, simpson, braun-blanquet,
    hamming, manhattan, euclidean) and, when [weightTags] is off, under
    [overlap] and the cosine.  With IDF weights [overlap] and the cosine sum
    rounded weights in the order of the tags of one argument: the two
    values are equal in exact arithmetic.  A document with at least one tag
    is at similarity [1] from itself under jaccard, dice, cosine, ochiai,
    simpson, braun-blanquet and tanimoto. *)
Theorem tag_similarity_symmetric (store : Store) (idf64 : gmap string float)
    (a b : Row) (o : SimOpts) (mul : float) :
  ((mode o ∈ handled_modes /\ mode o <> "overlap") \/ weightTags o = false ->
   Binary64.tagSimilarity idf64 (tags a) (tags b) (mode o) (weightTags o) mul
   = Binary64.tagSimilarity idf64 (tags b) (tags a) (mode o) (weightTags o)
       mul)
  /\ Query.tagSimilarity store a b o = Query.tagSimilarity store b a o
  /\ (tags a <> [] -> mode o ∈ bounded_modes ->
      Query.tagSimilarity store a a o = 1).
Proof.
  split_and!.
  - apply tagSimilarity64_comm.
  - apply tagSimilarity_comm.
  - apply tagSimilarity_self.
Qed.

(** C4 at the two documents of the corpus, under [hamming] on binary64
    numbers. *)
Lemma tag_similarity_symmetric_witness :
  (("hamming" ∈ handled_modes /\ "hamming" <> "overlap") \/ true = false)
  /\ Binary64.tagSimilarity rounding_idf rounding_tags_1 rounding_tags_2
       "hamming" true 1
     = Binary64.tagSimilarity rounding_idf rounding_tags_2 rounding_tags_1
         "hamming" true 1.
Proof.
  assert (("hamming" ∈ handled_modes /\ "hamming" <> "overlap")
          \/ true = false) as H.
  { left. split; [|done]. unfold handled_modes. rewrite !elem_of_cons. auto 12. }
  split; [exact H|].
  exact (proj1 (tag_similarity_symmetric sample_store rounding_idf
                  (sample_row rounding_tags_1) (sample_row rounding_tags_2)
                  {| mode := "hamming"; weightTags := true; idfMul := 1 |}
                  1%float) H).
Defined.

(** C4 as stated fails on the numbers of the code.  The first two documents
    of [rounding_corpus] carry the same tags in two orders; their
    IDF-weighted cosine is [1.0000000000000002] one way round and
    [0.9999999999999999] the other, and their [overlap] with [idfMul = 4]
    is [26.39720770839918] and [26.397207708399183]. *)
Lemma tag_similarity_asymmetric :
  Binary64.tagSimilarity rounding_idf rounding_tags_1 rounding_tags_2
    "cosine" true 1
  <> Binary64.tagSimilarity rounding_idf rounding_tags_2 rounding_tags_1
       "cosine" true 1
  /\ Binary64.tagSimilarity rounding_idf rounding_tags_1 rounding_tags_2
       "cosine" true 1 = 0x1.0000000000001p+0%float
  /\ Binary64.tagSimilarity rounding_idf rounding_tags_2 rounding_tags_1
       "cosine" true 1 = 0x1.fffffffffffffp-1%float
  /\ Binary64.tagSimilarity rounding_idf rounding_tags_1 rounding_tags_2
       "overlap" true 4 = 0x1.a65af67854b28p+4%float
  /\ Binary64.tagSimilarity rounding_idf rounding_tags_2 rounding_tags_1
       "overlap" true 4 = 0x1.a65af67854b29p+4%float.
Proof.
  assert (Binary64.tagSimilarity rounding_idf rounding_tags_1 rounding_tags_2
            "cosine" true 1 = 0x1.0000000000001p+0%float) as E1
    by (vm_compute; reflexivity).
  assert (Binary64.tagSimilarity rounding_idf rounding_tags_2 rounding_tags_1
            "cosine" true 1 = 0x1.fffffffffffffp-1%float) as E2
    by (vm_compute; reflexivity).
  split_and!; [|done|done|vm_compute; reflexivity..].
  rewrite E1, E2. intros E.
  assert ((0x1.0000000000001p+0 =? 0x1.fffffffffffffp-1)%float = true) as F
    by (rewrite <- E; reflexivity).
  discriminate F.
Qed.

End SymmetryClaim.

(** ** The sparse cosine on binary64 numbers *)

Section SparseCosine64.

Lemma get_absent {V : Type} (m : list (string * V)) (k : string) :
  k ∉ m.*1 -> JsMap.get m k = None.
Proof.
  induction m as [|[k' v] m IH]; [done|].
  rewrite fmap_cons, not_elem_of_cons. intros [Hne Hk].
  cbn [JsMap.get]. rewrite bool_decide_eq_false_2 by done. by apply IH.
Qed.

Lemma dot_disjoint (small big : list (string * float)) :
  (forall k, k ∈ small.*1 -> k ∉ big.*1) ->
  foldl (fun dot '(k, va) =>
           match JsMap.get big k with
           | Some vb =>
               if Binary64.falsy vb then dot else (dot + va * vb)%float
           | None => dot
           end) 0%float small
  = 0%float.
Proof.
  generalize 0%float.
  induction small as [|[k va] small IH]; intros s Hd; [done|].
  cbn [foldl]. rewrite get_absent by (apply Hd; rewrite fmap_cons; by left).
  apply IH. intros k' Hk'. apply Hd. rewrite fmap_cons. by right.
Qed.

Lemma cosine64_disjoint (ma mb : list (string * float)) :
  (forall k, k ∈ ma.*1 -> k ∉ mb.*1) ->
  Binary64.cosineSimSparse (Some ma) (Some mb) = 0%float.
Proof.
  intros Hd. unfold Binary64.cosineSimSparse.
  destruct (JsMap.size ma <? JsMap.size mb)%nat.
  - by rewrite dot_disjoint.
  - rewrite dot_disjoint; [done|].
    intros k Hb Ha. by apply (Hd k).
Qed.

(** The tag vectors of the first two documents of [rounding_corpus]. *)
Lemma rounding_vectors :
  rounding_vector_1
  = [("x", 0x1.317217f7d1cf8p+1%float); ("y", 0x1.b17217f7d1cf8p+0%float);
     ("z", 0x1.b17217f7d1cf8p+0%float); ("t", 0x1.b17217f7d1cf8p+0%float)]
  /\ rounding_vector_2
     = [("y", 0x1.b17217f7d1cf8p+0%float); ("z", 0x1.b17217f7d1cf8p+0%float);
        ("t", 0x1.b17217f7d1cf8p+0%float); ("x", 0x1.317217f7d1cf8p+1%float)].
Proof. split; vm_compute; reflexivity. Qed.

(** X13: on the numbers of the code [cosineSimSparse] is [0] when an
    argument is missing and when the two vectors have no key in common.
    Its sums are rounded in the order of the entries, so it depends on the
    order of its arguments and can exceed [1]: two vectors with the same
    four entries in two orders give [1.0000000000000002] one way round and
    [0.9999999999999999] the other.  When the squares overflow it returns
    NaN. *)
Theorem cosine_sparse_bounds (ma mb : list (string * float)) :
  Binary64.cosineSimSparse None (Some mb) = 0%float
  /\ Binary64.cosineSimSparse (Some ma) None = 0%float
  /\ ((forall k, k ∈ ma.*1 -> k ∉ mb.*1) ->
      Binary64.cosineSimSparse (Some ma) (Some mb) = 0%float)
  /\ Binary64.cosineSimSparse (Some rounding_vector_1) (Some rounding_vector_2)
     = 0x1.0000000000001p+0%float
  /\ Binary64.cosineSimSparse (Some rounding_vector_2) (Some rounding_vector_1)
     = 0x1.fffffffffffffp-1%float
  /\ (1 <? Binary64.cosineSimSparse (Some rounding_vector_1)
                                    (Some rounding_vector_2))%float = true
  /\ is_nan (Binary64.cosineSimSparse (Some large_vector) (Some large_vector))
     = true.
Proof.
  split_and!; [done | by destruct ma | apply cosine64_disjoint
              | vm_compute; reflexivity..].
Qed.

End SparseCosine64.

(** ** The progress bar *)

Section Progress64.
Local Open Scope R_scope.

Lemma progress_real (p q : R) :
  0 <= clamp01 p <= 1
  /\ clamp01 (clamp01 p) = clamp01 p
  /\ (0 <= p <= 1 -> clamp01 p = p)
  /\ (0 <= progress_percent p <= 100)%Z
  /\ (p <= q -> (progress_percent p <= progress_percent q)%Z)
  /\ progress_percent 0 = 0%Z /\ progress_percent 1 = 100%Z.
Proof.
  assert (forall x, 0 <= x <= 1 -> clamp01 x = x) as Hid.
  { intros x [H0 H1]. unfold clamp01.
    destruct (Rltb x 0) eqn:E1; [apply Rltb_true in E1; lra|].
    destruct (Rltb 1 x) eqn:E2; [apply Rltb_true in E2; lra|]. done. }
  assert (forall x y, x <= y -> clamp01 x <= clamp01 y) as Hmono.
  { intros x y Hxy. unfold clamp01.
    destruct (Rltb x 0) eqn:E1, (Rltb y 0) eqn:E2;
      destruct (Rltb 1 x) eqn:E3, (Rltb 1 y) eqn:E4;
      rewrite ?Rltb_true, ?Rltb_false in *; lra. }
  assert (forall x y, x <= y -> (js_round x <= js_round y)%Z) as Hround.
  { intros x y Hxy. unfold js_round.
    pose proof (Int_part_bounds (x + / 2)).
    pose proof (Int_part_bounds (y + / 2)).
    apply Z.lt_succ_r, lt_IZR. rewrite succ_IZR. lra. }
  assert (forall z : Z, js_round (IZR z) = z) as Hint.
  { intros z. unfold js_round.
    pose proof (Int_part_bounds (IZR z + / 2)) as [H1 H2].
    apply Z.le_antisymm.
    - apply Z.lt_succ_r, lt_IZR. rewrite succ_IZR. lra.
    - apply Z.lt_succ_r, lt_IZR. rewrite succ_IZR. lra. }
  pose proof (clamp01_range p) as Hp.
  refine (conj Hp (conj (Hid _ Hp) (conj (Hid p) (conj _ (conj _ (conj _ _)))))).
  - unfold progress_percent.
    pose proof (Hround (IZR 0) (clamp01 p * 100) ltac:(lra)) as H0.
    pose proof (Hround (clamp01 p * 100) (IZR 100) ltac:(lra)) as H1.
    rewrite Hint in H0, H1. done.
  - intros Hpq. apply Hround. specialize (Hmono p q Hpq). lra.
  - unfold progress_percent. rewrite Hid by lra.
    rewrite Rmult_0_l. apply (Hint 0%Z).
  - unfold progress_percent. rewrite Hid by lra.
    rewrite Rmult_1_l. apply (Hint 100%Z).
Qed.

(** X21: [clamp01] brings every number that is not NaN into the interval
    from [0] to [1], the infinities included, and leaves the numbers of the
    interval as they are; the width that [setProgress] writes is then a
    whole percentage from [0] to [100] that grows with the progress
    reported.  NaN passes through [clamp01], and the width is [NaN%]: so it
    is for the progress that the n-gram scan reports on a store without
    rows, [0.02 + 0.48 * (0 / 0)]. *)
Theorem progress_in_range (p q : R) (x : float) :
  (is_nan x = false ->
   (0 <=? Binary64.clamp01 x)%float = true
   /\ (Binary64.clamp01 x <=? 1)%float = true)
  /\ ((0 <=? x)%float = true -> (x <=? 1)%float = true ->
      Binary64.clamp01 x = x)
  /\ Binary64.clamp01 (Binary64.clamp01 x) = Binary64.clamp01 x
  /\ Binary64.clamp01 infinity = 1%float
  /\ Binary64.clamp01 neg_infinity = 0%float
  /\ (is_nan x = true ->
      is_nan (Binary64.clamp01 x) = true
      /\ Binary64.progress_width x = "NaN%")
  /\ is_nan (Binary64.scan_progress 0 0) = true
  /\ Binary64.progress_width (Binary64.scan_progress 0 0) = "NaN%"
  /\ Binary64.progress_width 0 = "0%"
  /\ Binary64.progress_width 0x1p-1 = "50%"
  /\ Binary64.progress_width 1 = "100%"
  /\ 0 <= clamp01 p <= 1
  /\ (0 <= p <= 1 -> clamp01 p = p)
  /\ (0 <= progress_percent p <= 100)%Z
  /\ (p <= q -> (progress_percent p <= progress_percent q)%Z)
  /\ progress_percent 0 = 0%Z /\ progress_percent 1 = 100%Z.
Proof.
  destruct (progress_real p q) as (R1 & _ & R3 & R4 & R5 & R6 & R7).
  split_and!; try done; try lia; try lra; try (vm_compute; reflexivity).
  - apply clamp01_range64.
  - apply clamp01_fixed64.
  - apply clamp01_idem64.
  - intros ->%is_nan_eq. split; vm_compute; reflexivity.
Qed.

End Progress64.

(** ** The filter without bounds *)

Section Capacity.
Local Open Scope R_scope.










End Capacity.

(** ** The default branch of [tagSimilarity] *)

Section DefaultCosine.
Local Open Scope R_scope.

(** The weight that the cosine gives a tag of a row of a built store. *)
Lemma built_tag_weight (p : Payload) (r : Row) (t : string) (w : bool) :
  let st := buildStore p in
  r ∈ rows st -> t ∈ tags r ->
  Query.tag_weight st w t = if w then corpus_weight (rows st) t else 1.
Proof.
  intros st Hr Ht. unfold Query.tag_weight, corpus_weight.
  destruct w; [|done]. subst st. unfold buildStore in *.
  rewrite idf_built.
  pose proof (doc_freq_le (rows (buildStore_with (row_tags (tag_map p)) p)) t)
    as Hle.
  destruct (doc_freq t _) as [|n] eqn:E.
  - exfalso. unfold doc_freq in E. apply length_zero_iff_nil in E.
    assert (r ∈ filter (fun r => t ∈ tags r)
                  (rows (buildStore_with (row_tags (tag_map p)) p))) as Hin
      by (by apply list_elem_of_filter).
    rewrite E in Hin. by apply elem_of_nil in Hin.
  - cbn [num_or]. pose proof (idf_weight_ge_1 _ _ Hle) as Hge.
    destruct (is_zero _) eqn:Z; [|done].
    apply is_zero_true in Z. lra.
Qed.

Lemma corpus_weight_pos (p : Payload) (t : string) (w : bool) :
  0 < (if w then corpus_weight (rows (buildStore p)) t else 1)
      * (if w then corpus_weight (rows (buildStore p)) t else 1).
Proof.
  destruct w; [|lra]. unfold corpus_weight.
  pose proof (idf_weight_ge_1 _ _ (doc_freq_le (rows (buildStore p)) t)).
  nra.
Qed.

(** On two rows of a built store the default branch is the weighted cosine
    of the specification under the weights of the IDF table. *)
Lemma built_cosine (p : Payload) (a b : Row) (o : SimOpts) :
  let st := buildStore p in
  mode o ∉ handled_modes -> a ∈ rows st -> b ∈ rows st ->
  Query.tagSimilarity st a b o
  = weighted_cosine
      (fun t => if weightTags o then corpus_weight (rows st) t else 1)
      (tags a) (tags b).
Proof.
  intros st Hm Ha Hb. unfold handled_modes in Hm.
  rewrite !not_elem_of_cons in Hm. destruct_and!.
  destruct (build_invariant p) as [_ Hinv].
  destruct (Hinv a Ha) as [HA _]. destruct (Hinv b Hb) as [HB _].
  unfold Query.tagSimilarity. mode_tests.
  rewrite !of_list_NoDup by done.
  fold st. rewrite (cosine_closed_form st o (tags a) (tags b) HA HB).
  set (w := fun t => if weightTags o then corpus_weight (rows st) t else 1).
  unfold cosine_of, weighted_cosine.
  assert (forall r l, r ∈ rows st -> (forall t, t ∈ l -> t ∈ tags r) ->
            rsum (sq_weight st o) l = rsum (fun t => w t * w t) l) as Hsum.
  { intros r l Hr Hl. apply rsum_ext. intros t Ht.
    unfold sq_weight. by rewrite (built_tag_weight p r t _ Hr (Hl t Ht)). }
  rewrite (Hsum a (filter _ _) Ha)
    by (intros t Ht; by apply list_elem_of_filter in Ht as [_ ?]).
  rewrite (Hsum a (tags a) Ha), (Hsum b (tags b) Hb) by done.
  destruct (is_zero (rsum (fun t => w t * w t)
                       (filter (fun t => t ∈ tags b) (tags a)))) eqn:E0.
  { apply is_zero_true in E0. rewrite E0. cbn [orb]. unfold Rdiv.
    by rewrite Rmult_0_l. }
  cbn [orb].
  assert (forall l, l <> [] -> 0 < rsum (fun t => w t * w t) l) as Hpos.
  { intros l Hl. apply rsum_pos; [done|]. intros t _.
    apply (corpus_weight_pos p t (weightTags o)). }
  assert (tags a <> []) as Hna.
  { intros E. rewrite E in E0. cbn in E0. apply is_zero_false in E0. lra. }
  assert (tags b <> []) as Hnb.
  { intros E.
    assert (filter (fun t => t ∈ tags b) (tags a) = []) as Hnil.
    { apply nil_by_members. intros t [Ht _]%list_elem_of_filter.
      rewrite E in Ht. by apply elem_of_nil in Ht. }
    rewrite Hnil in E0. cbn in E0. apply is_zero_false in E0. lra. }
  pose proof (Hpos _ Hna). pose proof (Hpos _ Hnb).
  by rewrite !(proj2 (is_zero_false _)) by lra.
Qed.

Lemma built_cosine_pos (p : Payload) (a b : Row) (o : SimOpts) (t : string) :
  let st := buildStore p in
  mode o ∉ handled_modes -> a ∈ rows st -> b ∈ rows st ->
  t ∈ tags a -> t ∈ tags b ->
  0 < Query.tagSimilarity st a b o.
Proof.
  intros st Hm Ha Hb Hta Htb. subst st.
  rewrite built_cosine by done. unfold weighted_cosine.
  assert (forall l, l <> [] ->
            0 < rsum (fun t =>
                        (if weightTags o
                         then corpus_weight (rows (buildStore p)) t else 1)
                        * (if weightTags o
                           then corpus_weight (rows (buildStore p)) t else 1))
                     l) as Hpos.
  { intros l Hl. apply rsum_pos; [done|]. intros u _.
    apply (corpus_weight_pos p u (weightTags o)). }
  assert (forall l : list string, t ∈ l -> l <> []) as Hne
    by (intros l Hl ->; by apply elem_of_nil in Hl).
  apply Rdiv_lt_0_compat.
  - apply Hpos, (Hne _). by apply list_elem_of_filter.
  - apply sqrt_lt_R0, Rmult_lt_0_compat; apply Hpos; by apply Hne.
Qed.

Lemma built_cosine_zero (p : Payload) (a b : Row) (o : SimOpts) :
  let st := buildStore p in
  mode o ∉ handled_modes -> a ∈ rows st -> b ∈ rows st ->
  (forall t, t ∈ tags a -> t ∉ tags b) ->
  Query.tagSimilarity st a b o = 0.
Proof.
  intros st Hm Ha Hb Hd. subst st.
  rewrite built_cosine by done. unfold weighted_cosine.
  assert (filter (fun t => t ∈ tags b) (tags a) = []) as ->.
  { apply nil_by_members. intros t [Htb Hta]%list_elem_of_filter.
    by apply (Hd t). }
  cbn [rsum]. unfold Rdiv. by rewrite Rmult_0_l.
Qed.

(** C10.  A mode that is none of the eleven tested ones, [cosine] itself
    included, takes the default branch.  On two rows of a built store with
    [weightTags] set the result is the cosine of the two tag sets under the
    IDF weights of the corpus, [Math.log((N + 1) / (df + 1)) + 1] for a tag
    in [df] of the [N] rows; with [weightTags] off every weight is [1].  It
    is positive as soon as the rows share a tag, and [0] when they share
    none. *)
Theorem unknown_mode_is_cosine (p : Payload) (a b : Row) (o : SimOpts) :
  mode o ∉ handled_modes ->
  a ∈ rows (buildStore p) -> b ∈ rows (buildStore p) ->
  Query.tagSimilarity (buildStore p) a b o
  = weighted_cosine
      (fun t => if weightTags o
                then idf_weight (length (rows (buildStore p)))
                                (doc_freq t (rows (buildStore p)))
                else 1)
      (tags a) (tags b)
  /\ ((exists t, t ∈ tags a /\ t ∈ tags b) ->
      0 < Query.tagSimilarity (buildStore p) a b o)
  /\ ((forall t, t ∈ tags a -> t ∉ tags b) ->
      Query.tagSimilarity (buildStore p) a b o = 0).
Proof.
  intros Hm Ha Hb. split_and!.
  - by apply built_cosine.
  - intros (t & Hta & Htb). by apply (built_cosine_pos p a b o t).
  - by apply built_cosine_zero.
Qed.

Lemma doc_freq_tags (t : string) (rs : list Row) :
  doc_freq t rs = length (filter (fun l => t ∈ l) (map tags rs)).
Proof.
  unfold doc_freq. induction rs as [|r rs IH]; [done|].
  cbn [map]. rewrite !filter_cons.
  destruct (decide (t ∈ tags r)); cbn [length]; by rewrite IH.
Qed.

(** The first two rows of the scenario. *)
Lemma scenario_first_rows :
  row_of scenario (scenario_char "1" ["a"; "b"]) ∈ rows (buildStore scenario)
  /\ row_of scenario (scenario_char "2" ["b"; "c"])
       ∈ rows (buildStore scenario).
Proof.
  split.
  - apply (first_row_kept scenario [] [scenario_char "2" ["b"; "c"];
                                       scenario_char "3" ["a"; "b"; "c"]]);
      [done | apply not_elem_of_nil].
  - apply (first_row_kept scenario [scenario_char "1" ["a"; "b"]]
             [scenario_char "3" ["a"; "b"; "c"]]); [done|].
    cbn. rewrite not_elem_of_cons. split; [done | apply not_elem_of_nil].
Qed.

Lemma cosine_unhandled : "cosine" ∉ handled_modes.
Proof.
  unfold handled_modes. rewrite !not_elem_of_cons.
  split_and!; try done. apply not_elem_of_nil.
Qed.

(** The scenario under the IDF-weighted cosine: the documents tagged [a b]
    and [b c] share the tag [b], of weight [1], and their other tags have
    the weight [u = Math.log(4 / 3) + 1]; the cosine is [1 / (1 + u * u)],
    below the [1 / 2] of the cosine without weights. *)
Lemma scenario_cosine :
  Query.tagSimilarity (buildStore scenario)
    (row_of scenario (scenario_char "1" ["a"; "b"]))
    (row_of scenario (scenario_char "2" ["b"; "c"])) (sim_mode "cosine")
  = 1 / (1 + idf_weight 3 2 * idf_weight 3 2)
  /\ 1 / (1 + idf_weight 3 2 * idf_weight 3 2) < 1 / 2.
Proof.
  destruct scenario_first_rows as [H1 H2].
  rewrite (built_cosine scenario _ _ (sim_mode "cosine") cosine_unhandled H1 H2).
  cbn [sim_mode weightTags]. unfold weighted_cosine, corpus_weight.
  assert (length (rows (buildStore scenario)) = 3%nat) as ->
    by (rewrite <- (length_map (fun r => (id r, tags r, tag_count r))),
          scenario_rows; done).
  assert (forall t, doc_freq t (rows (buildStore scenario))
                    = length (filter (fun l => t ∈ l)
                                [["a"; "b"]; ["b"; "c"]; ["a"; "b"; "c"]]))
    as Hdf.
  { intros t. unfold buildStore.
    rewrite rows_buildStore_with, doc_freq_with_metrics, doc_freq_tags.
    reflexivity. }
  change (tags (row_of scenario (scenario_char "1" ["a"; "b"])))
    with ["a"; "b"].
  change (tags (row_of scenario (scenario_char "2" ["b"; "c"])))
    with ["b"; "c"].
  change (filter (fun t => t ∈ ["b"; "c"]) ["a"; "b"]) with ["b"].
  cbn [rsum]. rewrite !Hdf.
  change (length (filter (fun l => "a" ∈ l) _)) with 2%nat.
  change (length (filter (fun l => "b" ∈ l) _)) with 3%nat.
  change (length (filter (fun l => "c" ∈ l) _)) with 2%nat.
  rewrite idf_weight_full.
  pose proof (idf_weight_decreasing 3 2 3 ltac:(lia)) as Hu.
  rewrite idf_weight_full in Hu.
  set (u := idf_weight 3 2) in *.
  replace ((u * u + (1 * 1 + 0)) * (1 * 1 + (u * u + 0)))
    with ((1 + u * u) * (1 + u * u)) by ring.
  rewrite sqrt_square by nra.
  split.
  - f_equal. ring.
  - apply Rmult_lt_compat_l; [lra|]. apply Rinv_lt_contravar; nra.
Qed.

Lemma unknown_mode_is_cosine_witness :
  ("cosine" ∉ handled_modes)
  /\ row_of scenario (scenario_char "1" ["a"; "b"]) ∈ rows (buildStore scenario)
  /\ row_of scenario (scenario_char "2" ["b"; "c"]) ∈ rows (buildStore scenario)
  /\ Query.tagSimilarity (buildStore scenario)
       (row_of scenario (scenario_char "1" ["a"; "b"]))
       (row_of scenario (scenario_char "2" ["b"; "c"])) (sim_mode "cosine")
     = weighted_cosine
         (fun t => idf_weight (length (rows (buildStore scenario)))
                              (doc_freq t (rows (buildStore scenario))))
         ["a"; "b"] ["b"; "c"].
Proof.
  pose proof cosine_unhandled as H0.
  destruct scenario_first_rows as [H1 H2].
  split_and!; [exact H0 | exact H1 | exact H2 |].
  exact (proj1 (unknown_mode_is_cosine scenario
                  (row_of scenario (scenario_char "1" ["a"; "b"]))
                  (row_of scenario (scenario_char "2" ["b"; "c"]))
                  (sim_mode "cosine") H0 H1 H2)).
Defined.

End DefaultCosine.

(** ** The document frequencies of the text index *)

Section TextFrequencies.

Lemma get_set_eq {V : Type} (m : list (string * V)) (k : string) (v : V) :
  JsMap.get (JsMap.set m k v) k = Some v.
Proof.
  induction m as [|[k' v'] m IH]; cbn [JsMap.set JsMap.get].
  - by rewrite bool_decide_eq_true_2.
  - case_bool_decide as E; cbn [JsMap.get].
    + by rewrite bool_decide_eq_true_2.
    + by rewrite bool_decide_eq_false_2.
Qed.

Lemma get_set_ne {V : Type} (m : list (string * V)) (k k' : string) (v : V) :
  k <> k' -> JsMap.get (JsMap.set m k v) k' = JsMap.get m k'.
Proof.
  intros Hne. induction m as [|[k0 v0] m IH]; cbn [JsMap.set JsMap.get].
  - by rewrite bool_decide_eq_false_2.
  - case_bool_decide as E; cbn [JsMap.get].
    + subst k0. by rewrite !bool_decide_eq_false_2.
    + by rewrite IH.
Qed.

Lemma keys_set {V : Type} (m : list (string * V)) (k : string) (v : V) :
  (JsMap.set m k v).*1 = if decide (k ∈ m.*1) then m.*1 else m.*1 ++ [k].
Proof.
  induction m as [|[k' v'] m IH]; cbn [JsMap.set].
  - rewrite decide_False by apply not_elem_of_nil. done.
  - case_bool_decide as E.
    + subst k'. rewrite !fmap_cons. cbn [fst].
      by rewrite decide_True by apply list_elem_of_here.
    + rewrite !fmap_cons, IH. cbn [fst].
      destruct (decide (k ∈ m.*1)) as [Hk|Hk].
      * by rewrite decide_True by by apply list_elem_of_further.
      * rewrite decide_False; [done|].
        rewrite not_elem_of_cons. split; [congruence | done].
Qed.

Lemma NoDup_keys_set {V : Type} (m : list (string * V)) (k : string) (v : V) :
  NoDup m.*1 -> NoDup (JsMap.set m k v).*1.
Proof.
  intros Hm. rewrite keys_set. destruct (decide (k ∈ m.*1)); [done|].
  apply NoDup_app. split_and!; [done | | apply NoDup_singleton].
  intros x Hx ->%list_elem_of_singleton. done.
Qed.

Lemma get_keys {V : Type} (m : list (string * V)) (k : string) :
  is_Some (JsMap.get m k) <-> k ∈ m.*1.
Proof.
  induction m as [|[k' v'] m IH]; cbn [JsMap.get].
  - split; [by intros [? ?] | by intros ?%elem_of_nil].
  - rewrite fmap_cons, elem_of_cons. cbn [fst]. case_bool_decide as E.
    + subst k'. split; [by left | by eexists].
    + rewrite IH. split; [by right | intros [?|?]; [congruence | done]].
Qed.

Lemma elem_get {V : Type} (m : list (string * V)) (k : string) (v : V) :
  NoDup m.*1 -> (k, v) ∈ m <-> JsMap.get m k = Some v.
Proof.
  intros Hm. split; [|apply get_Some_elem].
  induction m as [|[k' v'] m IH]; [by intros ?%elem_of_nil|].
  rewrite fmap_cons in Hm. apply NoDup_cons in Hm as [Hk Hm].
  intros [[= -> ->]|Hin]%elem_of_cons; cbn [JsMap.get].
  - by rewrite bool_decide_eq_true_2.
  - rewrite bool_decide_eq_false_2; [by apply IH|].
    intros ->. apply Hk. apply list_elem_of_fmap. by exists (k, v).
Qed.

(** The keys of the term counts of a row are its terms. *)
Lemma count_terms_keys (toks : list string) (t : string) :
  t ∈ (count_terms toks).*1 <-> t ∈ toks.
Proof.
  unfold count_terms.
  enough (forall m : list (string * nat),
            t ∈ (foldl (fun tf t =>
                          JsMap.set tf t (default 0 (JsMap.get tf t) + 1)%nat)
                       m toks).*1
            <-> t ∈ m.*1 \/ t ∈ toks) as H.
  { rewrite H. split; [intros [?%elem_of_nil|?]; done | by right]. }
  induction toks as [|x toks IH]; intros m; cbn [foldl].
  - split; [by left | intros [?|?%elem_of_nil]; done].
  - rewrite IH, keys_set, elem_of_cons.
    destruct (decide (x ∈ m.*1)) as [Hx|Hx].
    + split; [tauto|]. intros [?|[->|?]]; auto.
    + rewrite elem_of_app, list_elem_of_singleton. tauto.
Qed.

(** The loop over the keys of [tf]. *)
Lemma bump_keys_df (ks : list string) :
  forall (seen : list string) (df : list (string * nat)) (t : string),
    JsMap.get (foldl bump_df (seen, df) ks).2 t
    = if decide (t ∈ ks /\ t ∉ seen)
      then Some (default 0 (JsMap.get df t) + 1)%nat else JsMap.get df t.
Proof.
  induction ks as [|x ks IH]; intros seen df t.
  - simpl. destruct (decide (t ∈ [] /\ t ∉ seen)) as [[Ht _]|_];
      [by apply elem_of_nil in Ht | done].
  - cbn [foldl]. unfold bump_df at 2.
    destruct (JsSet.has seen x) eqn:Hx.
    + apply has_true in Hx. rewrite IH.
      destruct (decide (t ∈ ks /\ t ∉ seen)) as [[H1 H2]|Hn].
      * rewrite decide_True; [done|].
        split; [by apply list_elem_of_further | done].
      * rewrite decide_False; [done|].
        intros [[->|H1]%elem_of_cons H2]; [done | by apply Hn].
    + apply has_false in Hx. rewrite IH.
      destruct (decide (t = x)) as [->|Hne].
      * rewrite decide_False.
        2:{ intros [_ H2]. apply H2, elem_of_add. by right. }
        rewrite get_set_eq.
        rewrite decide_True; [done|]. split; [apply list_elem_of_here | done].
      * rewrite get_set_ne by done.
        destruct (decide (t ∈ ks /\ t ∉ seen)) as [[H1 H2]|Hn].
        -- rewrite decide_True.
           2:{ split; [done|]. rewrite elem_of_add. intros [?|?]; done. }
           rewrite decide_True; [done|].
           split; [by apply list_elem_of_further | done].
        -- rewrite decide_False.
           2:{ intros [H1 H2]. apply Hn. split; [done|].
               intros Hs. apply H2, elem_of_add. by left. }
           rewrite decide_False; [done|].
           intros [[->|H1]%elem_of_cons H2]; [done | by apply Hn].
Qed.

Lemma bump_keys_NoDup (ks : list string) :
  forall (seen : list string) (df : list (string * nat)),
    NoDup df.*1 -> NoDup (foldl bump_df (seen, df) ks).2.*1.
Proof.
  induction ks as [|x ks IH]; intros seen df Hdf; [done|].
  cbn [foldl]. unfold bump_df at 2.
  destruct (JsSet.has seen x); [by apply IH|].
  apply IH. by apply NoDup_keys_set.
Qed.

(** One turn of the first pass adds one to the frequency of every term of
    the row. *)
Lemma scan_row_df (df : list (string * nat)) (docs : list TextDoc)
    (total : nat) (r : TextRow) (t : string) :
  JsMap.get (scan_row (df, docs, total) r).1.1 t
  = if decide (t ∈ row_terms r)
    then Some (default 0 (JsMap.get df t) + 1)%nat else JsMap.get df t.
Proof.
  unfold scan_row. fold (row_terms r).
  change (map fst (count_terms (row_terms r)))
    with ((count_terms (row_terms r)).*1).
  pose proof (bump_keys_df (count_terms (row_terms r)).*1 [] df t) as H.
  destruct (foldl bump_df _ _) as [seen df'] eqn:E. cbn [fst snd] in *.
  rewrite H.
  destruct (decide (t ∈ row_terms r)) as [Ht|Ht].
  - rewrite decide_True; [done|].
    split; [apply (proj2 (count_terms_keys _ _)), Ht | apply not_elem_of_nil].
  - rewrite decide_False; [done|]. intros [Hk _].
    by apply (proj1 (count_terms_keys _ _)) in Hk.
Qed.

Lemma scan_row_NoDup (df : list (string * nat)) (docs : list TextDoc)
    (total : nat) (r : TextRow) :
  NoDup df.*1 -> NoDup (scan_row (df, docs, total) r).1.1.*1.
Proof.
  intros Hdf. unfold scan_row. fold (row_terms r).
  change (map fst (count_terms (row_terms r)))
    with ((count_terms (row_terms r)).*1).
  pose proof (bump_keys_NoDup (count_terms (row_terms r)).*1 [] df Hdf) as H.
  by destruct (foldl bump_df _ _) as [seen df'].
Qed.

(** After the first pass the frequency of a term is the number of rows in
    which it occurs. *)
Lemma scan_rows_df (rows : list TextRow) (t : string) :
  forall (df : list (string * nat)) (docs : list TextDoc) (total : nat),
    JsMap.get (foldl scan_row (df, docs, total) rows).1.1 t
    = bump (JsMap.get df t) (text_df t rows).
Proof.
  unfold text_df.
  induction rows as [|r rows IH]; intros df docs total; [done|].
  cbn [foldl].
  pose proof (scan_row_df df docs total r t) as H.
  destruct (scan_row (df, docs, total) r) as [[df' docs'] total'].
  cbn [fst] in H. rewrite IH, H, filter_cons.
  destruct (decide (t ∈ row_terms r)); [|done].
  simpl. destruct (length _); simpl; f_equal; lia.
Qed.

Lemma scan_rows_NoDup (rows : list TextRow) :
  forall (df : list (string * nat)) (docs : list TextDoc) (total : nat),
    NoDup df.*1 -> NoDup (foldl scan_row (df, docs, total) rows).1.1.*1.
Proof.
  induction rows as [|r rows IH]; intros df docs total Hdf; [done|].
  cbn [foldl].
  pose proof (scan_row_NoDup df docs total r Hdf) as H.
  destruct (scan_row (df, docs, total) r) as [[df' docs'] total'].
  by apply IH.
Qed.

End TextFrequencies.

(** ** The cut-offs of the text index *)

Section TextCutoffs.
Local Open Scope R_scope.

(** The second pass keeps, in the order of the frequency table, the terms
    that pass the two cut-offs. *)
Lemma text_idf_list (N : nat) (df : list (string * nat)) :
  NoDup df.*1 ->
  text_idf N df
  = omap (fun '(t, dfi) =>
            if (dfi <=? 1)%nat then None
            else if Rltb (1 / 100) (INR dfi / INR N) then None
            else Some (t, text_weight N dfi)) df.
Proof.
  unfold text_idf.
  enough (forall idf0 : list (string * R),
            NoDup (idf0.*1 ++ df.*1) ->
            foldl (fun idf '(t, dfi) =>
                     if (dfi <=? 1)%nat then idf
                     else if Rltb (1 / 100) (INR dfi / INR N) then idf
                     else JsMap.set idf t
                            (ln (1 + (INR N - INR dfi + 1 / 2)
                                     / (INR dfi + 1 / 2)))) idf0 df
            = idf0 ++ omap (fun '(t, dfi) =>
                              if (dfi <=? 1)%nat then None
                              else if Rltb (1 / 100) (INR dfi / INR N)
                                   then None
                                   else Some (t, text_weight N dfi)) df) as H.
  { intros Hdf. by rewrite (H []). }
  induction df as [|[t dfi] df IH]; intros idf0 Hnd.
  - by rewrite app_nil_r.
  - rewrite fmap_cons in Hnd. cbn [fst] in Hnd.
    assert (NoDup (idf0.*1 ++ df.*1)) as Hnd1.
    { apply NoDup_app in Hnd as (H1 & H2 & H3).
      apply NoDup_cons in H3 as [_ H3].
      apply NoDup_app. split_and!; [done | | done].
      intros x Hx Hd. apply (H2 x Hx). by right. }
    assert (t ∉ idf0.*1) as Ht.
    { apply NoDup_app in Hnd as (_ & H2 & _). intros Hin.
      apply (H2 t Hin). by left. }
    cbn [foldl omap list_omap].
    destruct (dfi <=? 1)%nat; [by apply IH|].
    destruct (Rltb _ _); [by apply IH|].
    rewrite set_fresh by done. rewrite IH.
    + by rewrite <- app_assoc.
    + rewrite fmap_app, <- app_assoc. done.
Qed.

Lemma cutoff_percent (N d : nat) :
  (1 <= N)%nat -> INR d / INR N <= 1 / 100 <-> (100 * d <= N)%nat.
Proof.
  intros HN. assert (0 < INR N) as HN' by (apply lt_0_INR; lia).
  assert (INR (100 * d) = 100 * INR d) as E.
  { rewrite mult_INR. f_equal.
    change 100%nat with (Z.to_nat 100). rewrite INR_IZR_INZ.
    by rewrite Z2Nat.id by lia. }
  split.
  - intros Hc. apply INR_le. rewrite E.
    apply (Rmult_le_compat_r (INR N)) in Hc; [|lra].
    unfold Rdiv in Hc. rewrite Rmult_assoc, Rinv_l in Hc by lra. lra.
  - intros Hle. apply le_INR in Hle. rewrite E in Hle.
    apply (Rmult_le_reg_r (INR N)); [done|].
    unfold Rdiv. rewrite Rmult_assoc, Rinv_l by lra. lra.
Qed.

(** The terms that the index keeps, by their frequencies. *)
Lemma text_idf_kept (N : nat) (rows : list TextRow) (t : string) (v : R) :
  (1 <= N)%nat ->
  (t, v) ∈ text_idf N (foldl scan_row ([], [], 0%nat) rows).1.1
  <-> (2 <= text_df t rows)%nat /\ (100 * text_df t rows <= N)%nat
      /\ v = text_weight N (text_df t rows).
Proof.
  intros HN.
  pose proof (scan_rows_NoDup rows [] [] 0%nat (NoDup_nil_2)) as Hnd.
  pose proof (fun u => scan_rows_df rows u [] [] 0%nat) as Hdf.
  set (df := (foldl scan_row ([], [], 0%nat) rows).1.1) in *.
  rewrite (text_idf_list N df Hnd), list_elem_of_omap.
  assert (forall dfi, (t, dfi) ∈ df
                      <-> dfi = text_df t rows /\ (1 <= dfi)%nat) as Hin.
  { intros dfi. rewrite (elem_get df t dfi Hnd), Hdf. cbn [JsMap.get].
    destruct (text_df t rows) as [|n]; cbn [bump default].
    - split; [done | lia].
    - split; [intros [= <-]; lia | intros [-> _]; f_equal; lia]. }
  split.
  - intros ([u dfi] & Hu & Hf).
    destruct (dfi <=? 1)%nat eqn:E1; [done|].
    destruct (Rltb _ _) eqn:E2; [done|].
    injection Hf as -> <-. apply Hin in Hu as [-> _].
    apply Nat.leb_gt in E1. apply Rltb_false in E2.
    split_and!; [lia | by apply cutoff_percent | done].
  - intros (H2 & H100 & ->). exists (t, text_df t rows). split.
    + apply Hin. split; [done | lia].
    + rewrite (proj2 (Nat.leb_gt _ _)) by lia.
      rewrite (proj2 (Rltb_false _ _)); [done|].
      by apply cutoff_percent.
Qed.

Lemma text_idf_NoDup (N : nat) (df : list (string * nat)) :
  NoDup df.*1 -> NoDup (text_idf N df).*1.
Proof.
  intros Hdf. rewrite text_idf_list by done.
  induction df as [|[t dfi] df IH]; [constructor|].
  rewrite fmap_cons in Hdf. apply NoDup_cons in Hdf as [Ht Hdf].
  cbn [omap list_omap].
  destruct (dfi <=? 1)%nat; [by apply IH|].
  destruct (Rltb _ _); [by apply IH|].
  rewrite fmap_cons. apply NoDup_cons. split; [|by apply IH].
  cbn [fst]. intros Hin. apply Ht.
  apply list_elem_of_fmap in Hin as ([u w] & -> & Hin).
  apply list_elem_of_omap in Hin as ([u' d'] & Hin & Hf).
  destruct (d' <=? 1)%nat; [done|]. destruct (Rltb _ _); [done|].
  injection Hf as -> _. apply list_elem_of_fmap. by exists (u, d').
Qed.

(** A BM25 vector holds terms of the IDF table only. *)
Lemma bm25_keys (idf : list (string * R)) (avgdl : R) (d : TextDoc)
    (t : string) (w : R) :
  (t, w) ∈ bm25_vector idf avgdl d -> t ∈ idf.*1.
Proof.
  unfold bm25_vector. revert t w.
  apply (foldl_invariant
           (fun m : list (string * R) => forall t w, (t, w) ∈ m -> t ∈ idf.*1)).
  - intros t w H. by apply elem_of_nil in H.
  - intros m [k f] _ Hm t w. cbv beta iota zeta.
    destruct (JsMap.get idf k) as [itf|] eqn:G; [|exact (Hm t w)].
    destruct (is_zero itf); [exact (Hm t w)|].
    intros [[-> ->]|H]%elem_of_set; [|exact (Hm t w H)].
    apply get_keys. by rewrite G.
Qed.

(** X28: the text index keeps a term exactly when it occurs in at least two
    rows and in no more than one row in a hundred, and gives it the weight
    [Math.log(1 + (N - d + 0.5) / (d + 0.5))] for its [d] of the [N] rows.
    So on a corpus of fewer than 200 rows it keeps no term at all: every
    BM25 vector is empty and the cosine of any two of them is [0].  The
    weights that the index holds, IDF and BM25, are positive, and a BM25
    vector holds kept terms only; the index is marked as built, counts at
    least one document, and an index that is marked as built is returned as
    it is. *)
Theorem text_index_cutoffs (rows : list TextRow) (cached : TextIndex)
    (aId bId : string) :
  let ti := buildTextIndex None rows in
  let N := Nat.max 1 (length rows) in
  (forall t v, (t, v) ∈ ti_idf ti
               <-> (2 <= text_df t rows)%nat
                   /\ (100 * text_df t rows <= N)%nat
                   /\ v = text_weight N (text_df t rows))
  /\ NoDup (ti_idf ti).*1
  /\ ti_built ti = true
  /\ ti_docs ti = N
  /\ ti_vocabSize ti = length (ti_idf ti)
  /\ (forall t v, (t, v) ∈ ti_idf ti -> 0 < v)
  /\ (forall i vec t w, (i, vec) ∈ ti_vecs ti -> (t, w) ∈ vec ->
        0 < w /\ t ∈ (ti_idf ti).*1)
  /\ ((length rows < 200)%nat ->
      ti_idf ti = []
      /\ Forall (fun kv => kv.2 = []) (ti_vecs ti)
      /\ cosineSimSparse (JsMap.get (ti_vecs ti) aId)
                         (JsMap.get (ti_vecs ti) bId) = 0)
  /\ (ti_built cached = true -> buildTextIndex (Some cached) rows = cached).
Proof.
  intros ti N. subst ti. cbn [buildTextIndex].
  assert (1 <= N)%nat as HN by (unfold N; lia).
  pose proof (fun t v => text_idf_kept N rows t v HN) as Hkept.
  pose proof (scan_rows_NoDup rows [] [] 0%nat (NoDup_nil_2)) as Hnd.
  destruct (fresh_index_parts rows)
    as (df & docs & total & E & Hlen & Htf & ->).
  rewrite E in Hkept, Hnd. cbn [fst] in Hkept, Hnd.
  cbn zeta. cbn [ti_built ti_docs ti_vocabSize ti_idf ti_vecs].
  rewrite Hlen. fold N.
  assert (0 <= INR total / INR N) as Havg.
  { apply Rmult_le_pos; [apply pos_INR|].
    apply Rlt_le, Rinv_0_lt_compat, lt_0_INR. lia. }
  split_and!; [ | | done | done | done | | | |].
  - intros t v. by apply Hkept.
  - by apply text_idf_NoDup.
  - intros t v. by apply text_idf_positive.
  - intros i vec t w (d & Hd & ->)%vecs_entries Hw. split.
    + revert Hw. apply bm25_entries;
        [|by (rewrite Forall_forall in Htf; apply Htf)|done].
      intros t' v'. by apply text_idf_positive.
    + by apply (bm25_keys _ _ _ _ _ Hw).
  - intros Hsmall.
    assert (text_idf N df = []) as Hnil.
    { apply nil_by_members. intros [t v] Hin.
      apply (proj1 (Hkept t v)) in Hin as (H2 & H100 & _).
      unfold N in H100. lia. }
    rewrite Hnil.
    assert (Forall (fun kv : string * list (string * R) => kv.2 = [])
              (foldl (fun vecs d =>
                        JsMap.set vecs (doc_id d)
                          (bm25_vector [] (INR total / INR N) d)) [] docs))
      as Hvecs.
    { apply Forall_forall. intros [i vec] (d & _ & ->)%vecs_entries.
      cbn [snd]. unfold bm25_vector.
      apply (foldl_invariant (fun m : list (string * R) => m = [])); [done|].
      by intros m [k f] _ ->. }
    split_and!; [done | done |].
    rewrite Forall_forall in Hvecs.
    destruct (JsMap.get _ aId) as [va|] eqn:Ga; [|done].
    destruct (JsMap.get _ bId) as [vb|] eqn:Gb; [|done].
    apply get_Some_elem, Hvecs in Ga. apply get_Some_elem, Hvecs in Gb.
    cbn [snd] in Ga, Gb. subst va vb.
    unfold cosineSimSparse. cbn.
    assert (is_zero 0 = true) as -> by (by apply is_zero_true). done.
  - intros Hb. by rewrite Hb.
Qed.

End TextCutoffs.
